(** * Resumir: the result generation and self-correction pipeline

    A shallow embedding of the LangChain-based analysis service
    (response parser, credential guard, validation and correction engine),
    of the timeout/retry wrapper and the summarize handler of the side
    panel, and of the IndexedDB summary cache, with the properties the
    specification states about them; and of the stored API key, the key
    set-up and the timestamp parser, with further properties of the code:
    its edge cases, what it keeps unchanged and what is read back after
    being written.

    JavaScript values are modelled as follows.
    - A string is the list of its UTF-16 code units ([jsstring]).
    - A promise is modelled by its eventual outcome ([Outcome]): resolved
      with a value, rejected with an error, or never settling.
    - Console output, calls to the provider and React state updates are
      recorded as events.
    - Mutable objects live in an explicit store where aliasing matters
      (module [Store]); elsewhere objects are compared by value. *)

From Stdlib Require Import ZArith NArith List String Ascii Lia Bool.
From Stdlib Require Import DecimalString.
From Stdlib Require Import Sorting.Sorted Sorting.Permutation.
From stdpp Require Import base option list gmap.

Local Open Scope Z_scope.

(** ** JavaScript strings *)

Module JsString.

Definition codeUnit := N.
Definition jsstring := list codeUnit.

(** An ASCII literal as a JavaScript string. *)
Definition js (s : string) : jsstring :=
  List.map N_of_ascii (list_ascii_of_string s).

(** A literal written with apostrophes where the text has double
    quotes. *)
Definition jsq (s : string) : jsstring :=
  List.map (fun c => if (c =? 39)%N then 34%N else c) (js s).

(** ECMAScript WhiteSpace and LineTerminator code points: the
    characters [String.prototype.trim] strips. *)
Definition isWhiteSpace (c : codeUnit) : bool :=
  ((9 <=? c) && (c <=? 13))%N
  || (c =? 32)%N || (c =? 160)%N || (c =? 5760)%N
  || ((8192 <=? c) && (c <=? 8202))%N
  || (c =? 8232)%N || (c =? 8233)%N || (c =? 8239)%N
  || (c =? 8287)%N || (c =? 12288)%N || (c =? 65279)%N.

Fixpoint trimStart (s : jsstring) : jsstring :=
  match s with
  | c :: s' => if isWhiteSpace c then trimStart s' else s
  | [] => []
  end.

Definition trimEnd (s : jsstring) : jsstring :=
  rev (trimStart (rev s)).

Definition trim (s : jsstring) : jsstring := trimEnd (trimStart s).

Definition eqb (a b : jsstring) : bool := bool_decide (a = b).

(** Truthiness of a string: the empty string is falsy. *)
Definition truthy (s : jsstring) : bool :=
  match s with [] => false | _ => true end.

(** [a || b] on strings. *)
Definition orElse (a b : jsstring) : jsstring :=
  if truthy a then a else b.

(** Truthiness of a possibly undefined string property. *)
Definition truthyOpt (o : option jsstring) : bool :=
  match o with Some s => truthy s | None => false end.

(** [s.startsWith(p)] at the head of [s]. *)
Fixpoint prefixb (p s : jsstring) : bool :=
  match p, s with
  | [], _ => true
  | a :: p', b :: s' => (a =? b)%N && prefixb p' s'
  | _ :: _, [] => false
  end.

(** [s.indexOf(p)], as the number of code units before the first
    occurrence, [None] for -1. *)
Fixpoint indexOf (p s : jsstring) : option nat :=
  if prefixb p s then Some O
  else match s with
       | [] => None
       | _ :: s' => S <$> indexOf p s'
       end.

(** The rest of [s] after [p], when [s] starts with [p]. *)
Definition stripPrefixExact (p s : jsstring) : option jsstring :=
  if prefixb p s then Some (drop (length p) s) else None.

(** [s.includes(p)]. *)
Definition includes (p s : jsstring) : bool :=
  match indexOf p s with Some _ => true | None => false end.

End JsString.
Export JsString.

(** ** Shared types (types.ts) *)

Record Highlight := mkHighlight {
  timestamp : jsstring;
  description : jsstring
}.

Record UserAnswerResult := mkUserAnswer {
  text : jsstring;
  relatedSegments : list jsstring
}.

Record AnalysisResult := mkAnalysisResult {
  customAnswer : option UserAnswerResult;
  summary : jsstring;
  keyMoments : list Highlight
}.

Inductive ValidationField := FSummary | FKeyMoments | FCustomAnswer.

Inductive IssueType :=
  | incorrect_timestamp | hallucination | missing_info
  | inaccurate_description | wrong_language.

Inductive CorrectionAction := Replace | Remove | Add.

(** The correction value is probed by property ([value.text],
    [value.timestamp], ...) after a cast to [any]: it is either a bare
    string or an object, each of whose probed properties is a string (or
    a string array) when present. *)
Record ValueObject := mkValueObject {
  v_timestamp : option jsstring;
  v_description : option jsstring;
  v_text : option jsstring;
  v_relatedSegments : option (list jsstring)
}.

Inductive CorrectionValue :=
  | VString (s : jsstring)
  | VObject (o : ValueObject).

Record ValidationCorrection := mkCorrection {
  action : CorrectionAction;
  value : option CorrectionValue
}.

(** [index] is the 0-based array index the validation prompt asks for;
    it is optional and, coming from the model, may be negative. *)
Record ValidationIssue := mkIssue {
  field : ValidationField;
  index : option Z;
  issueType : IssueType;
  issueDescription : jsstring;
  correction : ValidationCorrection
}.

Record ValidationResult := mkValidation {
  isValid : bool;
  issues : list ValidationIssue
}.

#[global] Instance Highlight_eq_dec : EqDecision Highlight.
Proof. solve_decision. Defined.
#[global] Instance UserAnswerResult_eq_dec : EqDecision UserAnswerResult.
Proof. solve_decision. Defined.
#[global] Instance AnalysisResult_eq_dec : EqDecision AnalysisResult.
Proof. solve_decision. Defined.
#[global] Instance CorrectionAction_eq_dec : EqDecision CorrectionAction.
Proof. solve_decision. Defined.
#[global] Instance ValidationField_eq_dec : EqDecision ValidationField.
Proof. solve_decision. Defined.

(** ** The analysis service (services/geminiService.ts): key moments and
       corrections *)

(** What [sanitizeKeyMoments] can observe of a value of unknown shape:
    whether it is an array and, for each element, the [timestamp] and
    [description] properties when they are strings ([None] when
    [typeof] is not ['string']). *)
Record RawMoment := mkRawMoment {
  raw_timestamp : option jsstring;
  raw_description : option jsstring
}.

Inductive Unknown :=
  | NotAnArray
  | AnArray (moments : list RawMoment).

Definition ofHighlight (h : Highlight) : RawMoment :=
  mkRawMoment (Some (timestamp h)) (Some (description h)).

Definition ofHighlights (l : list Highlight) : Unknown :=
  AnArray (List.map ofHighlight l).

Definition trimOrEmpty (o : option jsstring) : jsstring :=
  match o with Some s => trim s | None => [] end.

Definition sanitizeKeyMoments (moments : Unknown) : list Highlight :=
  match moments with
  | NotAnArray => []
  | AnArray l =>
      List.filter
        (fun moment =>
           (0 <? length (timestamp moment))%nat
           && (0 <? length (description moment))%nat)
        (List.map
           (fun moment =>
              mkHighlight (trimOrEmpty (raw_timestamp moment))
                          (trimOrEmpty (raw_description moment)))
           l)
  end.

(** [a.field.localeCompare(b.field)] on the three field names:
    "customAnswer" < "keyMoments" < "summary". *)
Definition fieldRank (f : ValidationField) : Z :=
  match f with FCustomAnswer => 0 | FKeyMoments => 1 | FSummary => 2 end.

Definition localeCompare (a b : ValidationField) : Z :=
  match fieldRank a ?= fieldRank b with
  | Lt => -1 | Eq => 0 | Gt => 1
  end.

Definition isRemove (i : ValidationIssue) : bool :=
  bool_decide (action (correction i) = Remove).

(** [index ?? 0] *)
Definition indexOr0 (i : ValidationIssue) : Z := default 0 (index i).

(** The comparator handed to [sort] in [applyCorrections]. *)
Definition compareIssues (a b : ValidationIssue) : Z :=
  if negb (bool_decide (field a = field b))
  then localeCompare (field a) (field b)
  else if isRemove a && negb (isRemove b) then 1
  else if negb (isRemove a) && isRemove b then -1
  else indexOr0 b - indexOr0 a.

(** [Array.prototype.sort] is stable; with a consistent comparator its
    result is the stable sorted permutation, computed here by stable
    insertion. *)
Section Sort.
Context {A : Type} (cmp : A -> A -> Z).

Fixpoint insertSorted (x : A) (l : list A) : list A :=
  match l with
  | [] => [x]
  | y :: l' => if 0 <? cmp x y then y :: insertSorted x l' else x :: l
  end.

Definition arraySort (l : list A) : list A :=
  List.fold_right insertSorted [] l.
End Sort.

Definition sortIssues (issues : list ValidationIssue) : list ValidationIssue :=
  arraySort compareIssues issues.

(** Property probes on a correction value cast to [any]; a string
    primitive has none of these properties. *)
Definition valueTimestamp (v : CorrectionValue) : option jsstring :=
  match v with VString _ => None | VObject o => v_timestamp o end.
Definition valueDescription (v : CorrectionValue) : option jsstring :=
  match v with VString _ => None | VObject o => v_description o end.
Definition valueText (v : CorrectionValue) : option jsstring :=
  match v with VString _ => None | VObject o => v_text o end.
Definition valueRelatedSegments (v : CorrectionValue)
  : option (list jsstring) :=
  match v with VString _ => None | VObject o => v_relatedSegments o end.

(** Truthiness of [correction.value]: an object is truthy, a string is
    truthy unless empty, [undefined] is falsy. *)
Definition truthyValue (v : option CorrectionValue) : option CorrectionValue :=
  match v with
  | Some (VString s) => if truthy s then v else None
  | Some (VObject _) => v
  | None => None
  end.

(** [a || b] on possibly undefined strings. *)
Definition orOpt (a b : option jsstring) : option jsstring :=
  if truthyOpt a then a else b.

(** [a || 'literal'] *)
Definition orLit (a : option jsstring) (b : jsstring) : jsstring :=
  match a with Some s => orElse s b | None => b end.

(** [JSON.parse(JSON.stringify(result))]: on a well-typed
    [AnalysisResult] (strings, arrays and plain objects only) the round
    trip rebuilds an equal value; the fresh identity of the copy is the
    subject of module [Store]. *)
Definition deepCopy (r : AnalysisResult) : AnalysisResult := r.

Definition setSummary (r : AnalysisResult) (s : jsstring) : AnalysisResult :=
  mkAnalysisResult (customAnswer r) s (keyMoments r).
Definition setKeyMoments (r : AnalysisResult) (l : list Highlight)
  : AnalysisResult :=
  mkAnalysisResult (customAnswer r) (summary r) l.
Definition setCustomAnswer (r : AnalysisResult) (a : option UserAnswerResult)
  : AnalysisResult :=
  mkAnalysisResult a (summary r) (keyMoments r).

Definition answerOfValue (v : CorrectionValue) : UserAnswerResult :=
  mkUserAnswer (orLit (valueText v) []) (default [] (valueRelatedSegments v)).

(** [index !== undefined && index >= 0], with the index as a natural
    number when the test passes. *)
Definition validIndex (issue : ValidationIssue) : option nat :=
  match index issue with
  | Some i => if 0 <=? i then Some (Z.to_nat i) else None
  | None => None
  end.

(** The [Highlight] built from a correction value, with the timestamp
    to fall back on before the literal. *)
Definition momentOfValue (v : CorrectionValue) (prior : option jsstring)
  : Highlight :=
  mkHighlight
    (orLit (orOpt (valueTimestamp v) prior) (js "00:00"))
    (orLit (orOpt (valueDescription v) (valueText v)) []).

(** The body of the [keyMoments] case on the working array. *)
Definition correctKeyMoments (km : list Highlight) (issue : ValidationIssue)
  : list Highlight :=
  let c := correction issue in
  match validIndex issue with
  | Some n =>
      match action c with
      | Remove => delete n km
      | Replace =>
          match truthyValue (value c) with
          | Some v =>
              let newMoment := momentOfValue v (timestamp <$> km !! n) in
              if (n <? length km)%nat then <[n := newMoment]> km else km
          | None => km
          end
      | Add => km
      end
  | None =>
      match action c, truthyValue (value c) with
      | Add, Some v => km ++ [momentOfValue v None]
      | _, _ => km
      end
  end.

(** One iteration of the loop over the sorted issues. *)
Definition applyIssue (r : AnalysisResult) (issue : ValidationIssue)
  : AnalysisResult :=
  let c := correction issue in
  match field issue with
  | FSummary =>
      match action c, truthyValue (value c) with
      | Replace, Some v =>
          let newValue :=
            match v with
            | VString s => Some s
            | VObject _ => orOpt (valueText v) (valueDescription v)
            end in
          match newValue with
          | Some s => if truthy s then setSummary r s else r
          | None => r
          end
      | _, _ => r
      end
  | FKeyMoments => setKeyMoments r (correctKeyMoments (keyMoments r) issue)
  | FCustomAnswer =>
      match action c with
      | Remove => setCustomAnswer r None
      | Replace =>
          match truthyValue (value c) with
          | Some v => setCustomAnswer r (Some (answerOfValue v))
          | None => r
          end
      | Add =>
          match truthyValue (value c), customAnswer r with
          | Some v, None => setCustomAnswer r (Some (answerOfValue v))
          | _, _ => r
          end
      end
  end.

Definition applyCorrections (result : AnalysisResult)
  (issues : list ValidationIssue) : AnalysisResult :=
  List.fold_left applyIssue (sortIssues issues) (deepCopy result).

(** ** Errors, promises and the provider *)

(** A thrown value: an [Error] object with its [name] and [message], or
    an instance of the side panel's [TimeoutError] class (whose [name]
    is ['TimeoutError']). *)
Inductive JsError :=
  | Error (name message : jsstring)
  | TimeoutError (message : jsstring).

Definition errName (e : JsError) : jsstring :=
  match e with
  | Error n _ => n
  | TimeoutError _ => js "TimeoutError"
  end.

Definition errMessage (e : JsError) : jsstring :=
  match e with
  | Error _ m => m
  | TimeoutError m => m
  end.

(** [new Error(message)] *)
Definition newError (message : jsstring) : JsError :=
  Error (js "Error") message.

(** The eventual state of a promise. [Pending] stands for a promise
    that does not settle while anyone waits for it. *)
Inductive Outcome (A : Type) :=
  | Resolved (a : A)
  | Rejected (e : JsError)
  | Pending.
Arguments Resolved {A} a.
Arguments Rejected {A} e.
Arguments Pending {A}.

Inductive LLMProvider := google | openai | anthropic | groq | deepseek.

Record ApiCredentials := mkCredentials {
  provider : LLMProvider;
  key : jsstring
}.

Record LanguageOption := mkLanguage {
  code : jsstring;
  name : jsstring;
  flag : jsstring
}.

(** Temperatures are written in hundredths (0.3 is 30). *)
Record LLMOptions := mkOptions {
  opt_temperature : option Z;
  opt_maxTokens : option Z;
  opt_maxRetries : option Z;
  opt_model : option jsstring
}.

(** The configuration a chat model client is constructed with. *)
Record ChatModel := mkChatModel {
  llm_provider : LLMProvider;
  llm_apiKey : jsstring;
  llm_model : jsstring;
  llm_temperature : Z;
  llm_maxTokens : option Z;
  llm_maxRetries : Z
}.

(** A prompt is a template literal over its arguments; the model keeps
    the template's kind and arguments instead of the rendered text. *)
Inductive Prompt :=
  | QuestionPrompt (transcript userQuery languageName languageCode : jsstring)
  | SummaryPrompt (transcript languageName languageCode : jsstring)
  | AnalyzeInPrompt (languageName languageCode : jsstring)
  | ValidationPrompt (result : AnalysisResult) (transcript : jsstring)
      (originalPrompt : Prompt) (languageName languageCode : jsstring)
  | RespondWithOK.

Inductive LogArg :=
  | LogString (s : jsstring)
  | LogError (e : JsError)
  | LogSyntaxError.

Inductive Event :=
  | Invoked (llm : ChatModel) (prompt : Prompt)
  | ConsoleError (label : jsstring) (arg : LogArg).

(** The module state of the service: the module-level variable and what
    the module has done so far (oldest event first). *)
Record Service := mkService {
  lastAnalysisPrompt : option Prompt;
  events : list Event
}.

(** What the service received as parsed model output, before its own
    checks: [None] for a property that is not a string. *)
Record RawAnswer := mkRawAnswer {
  ra_text : option jsstring;
  ra_relatedSegments : option (list (option jsstring))
}.

Record RawAnalysis := mkRawAnalysis {
  rs_summary : option jsstring;
  rs_keyMoments : Unknown
}.

(** [JSON.parse(raw) as T]: the built-in parser followed by the type
    assertion, [None] when [JSON.parse] throws. *)
Class JsonParse (T : Type) := JSON_parse : jsstring -> option T.

(** Asynchronous computations: state passing over the state [S] they
    act on, with the outcome of the awaited promise. *)
Module Async.

Definition Task (S A : Type) : Type := S -> Outcome A * S.

Definition ret {S A} (a : A) : Task S A := fun s => (Resolved a, s).

Definition throw {S A} (e : JsError) : Task S A := fun s => (Rejected e, s).

Definition bind {S A B} (m : Task S A) (k : A -> Task S B) : Task S B :=
  fun s =>
    match m s with
    | (Resolved a, s') => k a s'
    | (Rejected e, s') => (Rejected e, s')
    | (Pending, s') => (Pending, s')
    end.

(** [try { m } catch (error) { handler(error) }] *)
Definition tryCatch {S A} (m : Task S A) (handler : JsError -> Task S A)
  : Task S A :=
  fun s =>
    match m s with
    | (Rejected e, s') => handler e s'
    | r => r
    end.

(** [await p] for a promise with a known outcome. *)
Definition await {S A} (p : Outcome A) : Task S A := fun s => (p, s).

(** Computations of the analysis service. *)
Definition M : Type -> Type := Task Service.

Definition emit (e : Event) : M unit :=
  fun s => (Resolved tt, mkService (lastAnalysisPrompt s) (events s ++ [e])).

Definition setLastAnalysisPrompt (p : Prompt) : M unit :=
  fun s => (Resolved tt, mkService (Some p) (events s)).

Definition getLastAnalysisPrompt : M (option Prompt) :=
  fun s => (Resolved (lastAnalysisPrompt s), s).

End Async.
Import Async.

Notation "'do' x <- m ; k" := (bind m (fun x => k))
  (at level 10, x name, m at level 100, k at level 200).

(** ** The response parser *)

Module Parser.

Definition backtick : codeUnit := 96%N.
Definition fence : jsstring := [backtick; backtick; backtick].

(** Case folding of the [i] flag on the code units of the patterns
    used here: only ASCII letters fold onto ASCII letters. *)
Definition canonicalize (c : codeUnit) : codeUnit :=
  if ((97 <=? c) && (c <=? 122))%N then (c - 32)%N else c.

(** The rest of [s] after the pattern [p], when [s] starts with [p]
    up to case. *)
Fixpoint stripPrefixCI (p s : jsstring) : option jsstring :=
  match p, s with
  | [], _ => Some s
  | a :: p', b :: s' =>
      if (canonicalize a =? canonicalize b)%N then stripPrefixCI p' s' else None
  | _ :: _, [] => None
  end.

(** The shortest text before a closing fence: the lazy group
    [([\s\S]*?)] followed by the three backticks. *)
Fixpoint untilFence (s : jsstring) : option jsstring :=
  if prefixb fence s then Some []
  else match s with
       | [] => None
       | c :: s' => cons c <$> untilFence s'
       end.

(** [raw.match(/<opener>([\s\S]*?)```/i)]: the first capture group of
    the leftmost match, [None] when there is no match. *)
Fixpoint matchFenced (opener s : jsstring) : option jsstring :=
  match (stripPrefixCI opener s ≫= untilFence) with
  | Some captured => Some captured
  | None =>
      match s with
      | [] => None
      | _ :: s' => matchFenced opener s'
      end
  end.

(** [s.lastIndexOf(c)] for a single code unit. *)
Definition lastIndexOf (c : codeUnit) (s : jsstring) : option nat :=
  (fun k => (length s - 1 - k)%nat) <$> indexOf [c] (rev s).

(** [s.slice(from, to)] for [0 <= from <= to]. *)
Definition slice (from to : nat) (s : jsstring) : jsstring :=
  take (to - from) (drop from s).

Definition openBrace : codeUnit := 123%N.
Definition closeBrace : codeUnit := 125%N.

(** [raw.match(/```json([\s\S]*?)```/i) || raw.match(/```([\s\S]*?)```/i)],
    as the first capture group of the match found. *)
Definition fencedMatch (raw : jsstring) : option jsstring :=
  match matchFenced (fence ++ js "json") raw with
  | Some g => Some g
  | None => matchFenced fence raw
  end.

(** The text from the first opening brace to the last closing brace,
    when both occur in this order. *)
Definition bracedText (raw : jsstring) : option jsstring :=
  match indexOf [openBrace] raw, lastIndexOf closeBrace raw with
  | Some firstBrace, Some lastBrace =>
      if (firstBrace <? lastBrace)%nat
      then Some (slice firstBrace (lastBrace + 1) raw)
      else None
  | _, _ => None
  end.

Definition extractJsonFromText (raw : jsstring) : jsstring :=
  let fenced := fencedMatch raw in
  if truthyOpt fenced then trim (default [] fenced)
  else
    match bracedText raw with
    | Some braced => braced
    | None => trim raw
    end.

Definition parseJsonContent {T} {parser : JsonParse T} (raw context : jsstring)
  : M T :=
  match JSON_parse raw with
  | Some v => ret v
  | None =>
      let fallback := extractJsonFromText raw in
      let failed :=
        do _ <- emit (ConsoleError (context ++ js " raw response") (LogString raw));
        throw (newError (context ++ js " returned invalid JSON")) in
      if negb (eqb fallback raw) then
        match JSON_parse fallback with
        | Some v => ret v
        | None =>
            do _ <- emit (ConsoleError (context ++ js " JSON parse failed")
                            LogSyntaxError);
            failed
        end
      else failed
  end.

End Parser.
Export Parser.

(** ** The analysis service: provider operations *)

Definition DEFAULT_MODELS (p : LLMProvider) : jsstring :=
  match p with
  | google => js "gemini-2.5-flash"
  | openai => js "o4-mini"
  | anthropic => js "claude-sonnet-4-5-20250929"
  | groq => js "llama-3.3-70b-versatile"
  | deepseek => js "deepseek-chat"
  end.

Definition sanitizeLanguage (targetLanguage : option LanguageOption)
  : jsstring * jsstring :=
  (default (js "English") (name <$> targetLanguage),
   default (js "en") (code <$> targetLanguage)).

Definition sanitizeTranscript (value : option jsstring) : jsstring :=
  default [] (trim <$> value).

Definition ensureCredentials (credentials : option ApiCredentials) : M unit :=
  match credentials with
  | Some c =>
      if truthy (trim (key c)) then ret tt
      else throw (newError (js "API Key not configured"))
  | None => throw (newError (js "API Key not configured"))
  end.

Definition createLLM (credentials : ApiCredentials) (options : LLMOptions)
  : M ChatModel :=
  do _ <- ensureCredentials (Some credentials);
  ret (mkChatModel
         (provider credentials)
         (trim (key credentials))
         (default (DEFAULT_MODELS (provider credentials)) (opt_model options))
         (default 30 (opt_temperature options))
         (opt_maxTokens options)
         (default 2 (opt_maxRetries options))).

Definition mapProviderLabel (p : LLMProvider) : jsstring :=
  match p with
  | google => js "Google Gemini"
  | openai => js "OpenAI"
  | anthropic => js "Anthropic"
  | groq => js "Groq"
  | deepseek => js "DeepSeek"
  end.

Definition sanitizeUserAnswer (v : RawAnswer) : UserAnswerResult :=
  mkUserAnswer
    (match ra_text v with
     | Some t => if (0 <? length (trim t))%nat then trim t else []
     | None => []
     end)
    (match ra_relatedSegments v with
     | Some l =>
         List.filter (fun entry => (0 <? length entry)%nat)
           (List.map trimOrEmpty l)
     | None => []
     end).

Section Service.

(** How the provider behaves when a chat model is invoked with a
    prompt: the promise returned by [runnable.invoke(prompt)]. *)
Variable respond : ChatModel -> Prompt -> Outcome jsstring.

Context {parseAnswer : JsonParse RawAnswer}
        {parseAnalysis : JsonParse RawAnalysis}
        {parseValidation : JsonParse ValidationResult}.

Definition invoke (llm : ChatModel) (prompt : Prompt) : M jsstring :=
  do _ <- emit (Invoked llm prompt);
  await (respond llm prompt).

Definition invokeModelForJson {T} {parser : JsonParse T}
  (llm : ChatModel) (prompt : Prompt) (context : jsstring) : M T :=
  do response <- invoke llm prompt;
  let raw := trim response in
  if negb (truthy raw)
  then throw (newError (context ++ js " returned an empty response"))
  else parseJsonContent raw context.

Definition validateProviderCredentials (credentials : option ApiCredentials)
  : M unit :=
  do _ <- ensureCredentials credentials;
  match credentials with
  | None => throw (newError (js "API Key not configured"))
  | Some c =>
      tryCatch
        (do llm <- createLLM c (mkOptions (Some 0) (Some 8) (Some 0) None);
         do _ <- invoke llm RespondWithOK;
         ret tt)
        (fun error =>
           let providerLabel := mapProviderLabel (provider c) in
           let message :=
             orElse (trim (errMessage error))
               (js "Unable to reach " ++ providerLabel
                  ++ js ". Please verify the API key.") in
           throw (newError (providerLabel ++ js ": " ++ message)))
  end.

Definition answerUserQuestion (transcript userQuery : jsstring)
  (credentials : option ApiCredentials) (targetLanguage : option LanguageOption)
  : M UserAnswerResult :=
  do _ <- ensureCredentials credentials;
  match credentials with
  | None => throw (newError (js "API Key not configured"))
  | Some c =>
      let '(languageName, languageCode) := sanitizeLanguage targetLanguage in
      let sanitizedTranscript :=
        orElse (sanitizeTranscript (Some transcript))
               (js "Transcript unavailable.") in
      do llm <- createLLM c (mkOptions (Some 25) (Some 1024) (Some 3) None);
      let prompt :=
        QuestionPrompt sanitizedTranscript userQuery languageName languageCode in
      do response <- invokeModelForJson llm prompt (js "answerUserQuestion");
      ret (sanitizeUserAnswer response)
  end.

Definition analyzeVideo (transcript : jsstring)
  (credentials : option ApiCredentials) (targetLanguage : option LanguageOption)
  : M AnalysisResult :=
  do _ <- ensureCredentials credentials;
  match credentials with
  | None => throw (newError (js "API Key not configured"))
  | Some c =>
      let '(languageName, languageCode) := sanitizeLanguage targetLanguage in
      let sanitizedTranscript :=
        orElse (sanitizeTranscript (Some transcript))
               (js "Transcript unavailable. Explain the limitation.") in
      do llm <- createLLM c (mkOptions (Some 30) (Some 2048) (Some 3) None);
      let prompt := SummaryPrompt sanitizedTranscript languageName languageCode in
      do _ <- setLastAnalysisPrompt prompt;
      do response <- invokeModelForJson llm prompt (js "analyzeVideo");
      ret (mkAnalysisResult None
             (default [] (rs_summary response))
             (sanitizeKeyMoments (rs_keyMoments response)))
  end.

Definition validateResult (llm : ChatModel) (result : AnalysisResult)
  (transcript : jsstring) (originalPrompt : Prompt)
  (languageName languageCode : jsstring) : M ValidationResult :=
  let prompt :=
    ValidationPrompt result transcript originalPrompt languageName languageCode in
  tryCatch
    (invokeModelForJson llm prompt (js "validateResult"))
    (fun error =>
       do _ <- emit (ConsoleError (js "Validation Error:") (LogError error));
       ret (mkValidation true [])).

Definition validateAndFixResult (llm : ChatModel) (result : AnalysisResult)
  (transcript : jsstring) (originalPrompt : Prompt)
  (languageName languageCode : jsstring) : M AnalysisResult :=
  do validation <-
    validateResult llm result transcript originalPrompt languageName languageCode;
  if isValid validation || (length (issues validation) =? 0)%nat then
    ret (setKeyMoments result
           (sanitizeKeyMoments (ofHighlights (keyMoments result))))
  else
    let correctedResult := applyCorrections result (issues validation) in
    ret (setKeyMoments correctedResult
           (sanitizeKeyMoments (ofHighlights (keyMoments correctedResult)))).

Definition improveResult (result : AnalysisResult) (transcript : jsstring)
  (credentials : option ApiCredentials) (targetLanguage : option LanguageOption)
  : M AnalysisResult :=
  do _ <- ensureCredentials credentials;
  match credentials with
  | None => throw (newError (js "API Key not configured"))
  | Some c =>
      let '(languageName, languageCode) := sanitizeLanguage targetLanguage in
      let sanitizedTranscript := sanitizeTranscript (Some transcript) in
      do llm <- createLLM c (mkOptions (Some 20) (Some 2048) (Some 3) None);
      do last <- getLastAnalysisPrompt;
      let originalPrompt :=
        default (AnalyzeInPrompt languageName languageCode) last in
      validateAndFixResult llm result sanitizedTranscript originalPrompt
        languageName languageCode
  end.

End Service.

(** ** The side panel component: timeout, retry and the summarize
       handler *)

Inductive AppState := IDLE | LOADING | SUCCESS | ERROR.

(** What the side panel does besides calling the service, in order:
    React state updates, console output, timers and the fire-and-forget
    cache write. [Called] records each call of the wrapped
    [operation()]. *)
Inductive UiEvent :=
  | CancelActiveRequest
  | ScheduleManualRetryTimer
  | ClearManualRetryTimer
  | SetCanManualRetry (b : bool)
  | SetStatus (s : AppState)
  | SetError (message : option jsstring)
  | SetErrorDetails (details : option jsstring)
  | SetIsCommunicationError (b : bool)
  | SetShowErrorModal (b : bool)
  | SetResult (r : option AnalysisResult)
  | SetIsFromCache (b : bool)
  | SetIsImproving (b : bool)
  | SetCurrentTranscript (transcript : jsstring)
  | SetTranscriptLength (n : nat)
  | SetRetryAttempt (n : nat)
  | Called (operationName : jsstring) (attempt : nat)
  | ConsoleWarn (label : jsstring) (error : JsError)
  | ConsoleLog (label : jsstring) (arg : jsstring)
  | SetTimeout (ms : N)
  | SaveSummary (videoId : jsstring) (r : AnalysisResult)
      (videoUrl language userQuery : jsstring)
  | ClearUserApiKey
  | SetCredentials (c : option ApiCredentials)
  | SetKeySetupSuccess (message : option jsstring).

Record Panel := mkPanel {
  service : Service;
  ui : list UiEvent
}.

Definition P : Type -> Type := Task Panel.

Definition uiEvent (e : UiEvent) : P unit :=
  fun s => (Resolved tt, mkPanel (service s) (ui s ++ [e])).

(** A call into the service from the side panel. *)
Definition callService {A} (m : M A) : P A :=
  fun s => let '(r, svc) := m (service s) in (r, mkPanel svc (ui s)).

Definition SUMMARY_TIMEOUT_MS : N := 45000.
Definition MAX_RETRY_ATTEMPTS : nat := 3.

(** The text of [ms / 1000] in a template literal: the quotient in
    decimal, followed by the fraction without trailing zeros when there
    is one. *)
Definition decimal (n : N) : jsstring :=
  js (NilZero.string_of_uint (N.to_uint n)).

Definition fractionDigits (r : N) : jsstring :=
  let padded := drop 1 (decimal (1000 + r)) in
  if (r mod 100 =? 0)%N then take 1 padded
  else if (r mod 10 =? 0)%N then take 2 padded
  else padded.

Definition secondsText (ms : N) : jsstring :=
  if (ms mod 1000 =? 0)%N then decimal (ms / 1000)
  else decimal (ms / 1000) ++ js "." ++ fractionDigits (ms mod 1000).

Definition withTimeout {T} (promise : P T) (timeoutMs : N)
  (operationName : jsstring) : P T :=
  fun s =>
    match promise s with
    | (Pending, s') =>
        (Rejected (TimeoutError (operationName ++ js " timed out after "
                                   ++ secondsText timeoutMs ++ js " seconds")),
         s')
    | settled => settled
    end.

Definition isTimeoutInstance (e : JsError) : bool :=
  match e with TimeoutError _ => true | Error _ _ => false end.

Section Panel.

(** [String.prototype.toLowerCase] and the translation function [t]
    of react-i18next. *)
Variable toLowerCase : jsstring -> jsstring.
Variable t : jsstring -> jsstring.

Definition messageMentions (e : JsError) (word : string) : bool :=
  includes (js word) (toLowerCase (errMessage e)).

(** The retry test of [withTimeoutAndRetry]. *)
Definition isRetryable (error : JsError) : bool :=
  isTimeoutInstance error
  || messageMentions error "network"
  || messageMentions error "fetch"
  || messageMentions error "connection"
  || eqb (errName error) (js "TypeError").

Section Retry.
Context {T : Type}.
Variable operation : nat -> P T.
Variable timeoutMs : N.
Variable maxAttempts : nat.
Variable operationName : jsstring.
Variable onRetry : option (nat -> JsError -> P unit).

(** The loop from [attempt], with [remaining] iterations left
    ([attempt + remaining = maxAttempts + 1]). *)
Fixpoint retryFrom (remaining attempt : nat) (lastError : option JsError)
  : P T :=
  match remaining with
  | O => throw (default (newError (js "Unknown error")) lastError)
  | S remaining' =>
      tryCatch
        (withTimeout
           (do _ <- uiEvent (Called operationName attempt);
            operation attempt)
           timeoutMs operationName)
        (fun error =>
           if isRetryable error && (attempt <? maxAttempts)%nat then
             do _ <- uiEvent (ConsoleWarn
                                (js "Attempt " ++ decimal (N.of_nat attempt)
                                   ++ js "/" ++ decimal (N.of_nat maxAttempts)
                                   ++ js " failed for " ++ operationName
                                   ++ js ":")
                                error);
             do _ <- match onRetry with
                     | Some callback => callback attempt error
                     | None => ret tt
                     end;
             do _ <- uiEvent (SetTimeout 500);
             retryFrom remaining' (S attempt) (Some error)
           else throw error)
  end.

Definition withTimeoutAndRetry : P T :=
  retryFrom maxAttempts 1%nat None.
End Retry.

End Panel.

(** What [handleSummarize] reads from the component and the tab: the
    stored credentials, the transcript extracted from the page, the
    question typed by the user, the selected language, the video URL and
    the video id [extractVideoId] finds in it. *)
Record SummarizeInput := mkSummarizeInput {
  in_credentials : option ApiCredentials;
  in_transcriptText : jsstring;
  in_userQuery : jsstring;
  in_selectedLanguageOption : option LanguageOption;
  in_language : jsstring;
  in_currentVideoUrl : option jsstring;
  in_videoId : option jsstring
}.

(** What the outside world decides during one [handleSummarize]: how
    the provider answers each attempt of the two wrapped calls and the
    validation call, which of the two wrapped calls rejects first when
    both reject, and whether a newer request has cancelled this one's
    token by the time each await resumes. *)
Record SummarizeEnv := mkSummarizeEnv {
  respondAnswer : nat -> ChatModel -> Prompt -> Outcome jsstring;
  respondAnalysis : nat -> ChatModel -> Prompt -> Outcome jsstring;
  respondImprove : ChatModel -> Prompt -> Outcome jsstring;
  answerRejectsFirst : bool;
  cancelledAfterGeneration : bool;
  cancelledAfterImprove : bool
}.

(** [Promise.all([p, q])] on settled outcomes. *)
Definition promiseAll {A B} (firstRejectsFirst : bool)
  (p : Outcome A) (q : Outcome B) : Outcome (A * B) :=
  match p, q with
  | Resolved a, Resolved b => Resolved (a, b)
  | Rejected e, Rejected e' => Rejected (if firstRejectsFirst then e else e')
  | Rejected e, _ => Rejected e
  | _, Rejected e => Rejected e
  | _, _ => Pending
  end.

(** Two tasks started together and awaited with [Promise.all]. Both
    run to their end; their effects are recorded one task after the
    other. *)
Definition awaitAll {S A B} (firstRejectsFirst : bool)
  (m1 : Task S A) (m2 : Task S B) : Task S (A * B) :=
  fun s =>
    let '(o1, s1) := m1 s in
    let '(o2, s2) := m2 s1 in
    (promiseAll firstRejectsFirst o1 o2, s2).

Section Summarize.

Variable toLowerCase : jsstring -> jsstring.
Variable t : jsstring -> jsstring.
Context {parseAnswer : JsonParse RawAnswer}
        {parseAnalysis : JsonParse RawAnalysis}
        {parseValidation : JsonParse ValidationResult}.

Variable input : SummarizeInput.
Variable env : SummarizeEnv.

Definition handleLanguageAwareError (message : jsstring)
  (details : option jsstring) (communicationError : bool) : P unit :=
  do _ <- uiEvent (SetStatus ERROR);
  do _ <- uiEvent (SetError (Some message));
  do _ <- uiEvent (SetErrorDetails details);
  do _ <- uiEvent (SetIsCommunicationError communicationError);
  uiEvent (SetShowErrorModal true).

Definition clearManualRetryTimer : P unit :=
  do _ <- uiEvent ClearManualRetryTimer;
  uiEvent (SetCanManualRetry false).

Definition handleRetry (attempt : nat) (error : JsError) : P unit :=
  do _ <- uiEvent (ConsoleLog (js "Retry attempt " ++ decimal (N.of_nat attempt)
                                 ++ js " due to:") (errMessage error));
  uiEvent (SetRetryAttempt attempt).

(** [saveSummary(...).catch(...)], not awaited. *)
Definition saveToCache (r : AnalysisResult) (trimmedQuery : jsstring)
  : P unit :=
  match in_videoId input, in_currentVideoUrl input with
  | Some videoId, Some url =>
      if truthy videoId && truthy url
      then uiEvent (SaveSummary videoId r url (in_language input) trimmedQuery)
      else ret tt
  | _, _ => ret tt
  end.

Definition authErrorPatterns : list string :=
  [ "requested entity was not found"; "invalid api key"; "unauthorized";
    "permission"; "authentication" ]%string.

(** The outer [catch (err)] of the handler. The stack trace the
    details end with is left out. *)
Definition handleFailure (err : JsError) : P unit :=
  if cancelledAfterGeneration env then clearManualRetryTimer
  else
    do _ <- uiEvent (SetIsImproving false);
    do _ <- uiEvent (SetRetryAttempt 0);
    do _ <- clearManualRetryTimer;
    let errorName := orElse (errName err) (js "Error") in
    let isTimeoutErr :=
      isTimeoutInstance err || eqb (errName err) (js "TimeoutError") in
    let isNetworkErr :=
      messageMentions toLowerCase err "network"
      || messageMentions toLowerCase err "fetch"
      || messageMentions toLowerCase err "connection"
      || eqb (errName err) (js "TypeError") in
    let '(errorMessage, isCommunicationErr) :=
      if isTimeoutErr then (t (js "errors.timeout"), true)
      else if isNetworkErr then (t (js "errors.networkError"), true)
      else (orElse (errMessage err) (t (js "errors.extractionFailed")), false) in
    let formattedDetails :=
      errorName ++ js ": " ++ orElse (errMessage err) (js "Unknown error") in
    let loweredMessage := toLowerCase (errMessage err) in
    if truthy loweredMessage
       && existsb (fun pattern => includes (js pattern) loweredMessage)
            authErrorPatterns
    then
      do _ <- uiEvent ClearUserApiKey;
      do _ <- uiEvent (SetCredentials None);
      do _ <- uiEvent (SetKeySetupSuccess None);
      handleLanguageAwareError (t (js "errors.apiKeyInvalid"))
        (Some formattedDetails) false
    else
      handleLanguageAwareError errorMessage (Some formattedDetails)
        isCommunicationErr.

(** The first phase: one wrapped call, or two wrapped calls in
    parallel when the user asked a question. *)
Definition generate (trimmedQuery : jsstring) : P AnalysisResult :=
  let transcriptText := in_transcriptText input in
  let credentials := in_credentials input in
  let language := in_selectedLanguageOption input in
  let analysis :=
    withTimeoutAndRetry toLowerCase
      (fun attempt =>
         callService (analyzeVideo (respondAnalysis env attempt)
                        transcriptText credentials language))
      SUMMARY_TIMEOUT_MS MAX_RETRY_ATTEMPTS (js "Video analysis")
      (Some handleRetry) in
  if truthy trimmedQuery then
    do both <-
      awaitAll (answerRejectsFirst env)
        (withTimeoutAndRetry toLowerCase
           (fun attempt =>
              callService (answerUserQuestion (respondAnswer env attempt)
                             transcriptText trimmedQuery credentials language))
           SUMMARY_TIMEOUT_MS MAX_RETRY_ATTEMPTS (js "User question analysis")
           (Some handleRetry))
        analysis;
    let '(userAnswerResult, analysisResult) := both in
    ret (mkAnalysisResult (Some userAnswerResult)
           (summary analysisResult) (keyMoments analysisResult))
  else analysis.

(** The second phase, after the preliminary result is on screen. *)
Definition improve (initialResult : AnalysisResult) (trimmedQuery : jsstring)
  : P unit :=
  do _ <- uiEvent (SetIsImproving true);
  fun s =>
    match callService
            (improveResult (respondImprove env) initialResult
               (in_transcriptText input) (in_credentials input)
               (in_selectedLanguageOption input)) s with
    | (Resolved improvedResult, s') =>
        if cancelledAfterImprove env then uiEvent (SetIsImproving false) s'
        else
          (do _ <- uiEvent (SetResult (Some improvedResult));
           do _ <- saveToCache improvedResult trimmedQuery;
           uiEvent (SetIsImproving false)) s'
    | (Rejected improvementError, s') =>
        if cancelledAfterImprove env then uiEvent (SetIsImproving false) s'
        else
          (do _ <- uiEvent (ConsoleWarn
                              (js "Improvement failed, keeping initial result:")
                              improvementError);
           do _ <- saveToCache initialResult trimmedQuery;
           uiEvent (SetIsImproving false)) s'
    | (Pending, s') => (Pending, s')
    end.

(** The [try] block of the handler, from the check of the transcript
    on. *)
Definition summarize : P unit :=
  let transcriptText := in_transcriptText input in
  if negb (truthy transcriptText) || (length transcriptText <? 50)%nat
  then throw (newError (t (js "errors.transcriptShort")))
  else
    do _ <- uiEvent (SetCurrentTranscript transcriptText);
    do _ <- uiEvent (SetTranscriptLength (length transcriptText));
    let trimmedQuery := trim (in_userQuery input) in
    do _ <- uiEvent (SetRetryAttempt 0);
    do initialResult <- generate trimmedQuery;
    do _ <- uiEvent (SetRetryAttempt 0);
    if cancelledAfterGeneration env then clearManualRetryTimer
    else
      do _ <- uiEvent (SetResult (Some initialResult));
      do _ <- uiEvent (SetStatus SUCCESS);
      do _ <- clearManualRetryTimer;
      improve initialResult trimmedQuery.

Definition handleSummarize : P unit :=
  match in_credentials input with
  | None =>
      handleLanguageAwareError (t (js "errors.apiKeyMissing"))
        (Some (js "API Key is not configured")) false
  | Some credentials =>
      if negb (truthy (key credentials)) then
        handleLanguageAwareError (t (js "errors.apiKeyMissing"))
          (Some (js "API Key is not configured")) false
      else
        do _ <- uiEvent CancelActiveRequest;
        do _ <- uiEvent (SetCanManualRetry false);
        do _ <- clearManualRetryTimer;
        do _ <- uiEvent ScheduleManualRetryTimer;
        do _ <- uiEvent (SetStatus LOADING);
        do _ <- uiEvent (SetError None);
        do _ <- uiEvent (SetResult None);
        do _ <- uiEvent (SetIsFromCache false);
        do _ <- uiEvent (SetIsImproving false);
        tryCatch summarize handleFailure
  end.

(** The result on screen after a sequence of updates, given the one
    before them. *)
Definition visibleResult (before : option AnalysisResult)
  (updates : list UiEvent) : option AnalysisResult :=
  List.fold_left
    (fun shown e => match e with SetResult r => r | _ => shown end)
    updates before.

(** Every result the handler has put on screen. *)
Definition shownResults (updates : list UiEvent) : list AnalysisResult :=
  omap (fun e => match e with SetResult (Some r) => Some r | _ => None end)
       updates.

End Summarize.

(** ** The summary cache (services/summaryStorage.ts, on IndexedDB) *)

Module SummaryStorage.

Record StoredSummary := mkStoredSummary {
  videoId : jsstring;
  result : AnalysisResult;
  videoUrl : jsstring;
  language : jsstring;
  userQuery : jsstring;
  createdAt : Z;
  updatedAt : Z
}.

(** The module state: whether [dbInstance] holds an open connection,
    the records of the object store by key, and the console. *)
Record Storage := mkStorage {
  dbInstance : bool;
  records : gmap jsstring StoredSummary;
  console : list (jsstring * option JsError)
}.

(** How [indexedDB.open] behaves: it fires [onsuccess], fires
    [onerror] with [request.error], throws (no [indexedDB] at all), or
    fires nothing. *)
Inductive OpenBehaviour :=
  | OpenSucceeds
  | OpenErrors (error : JsError)
  | OpenThrows (error : JsError)
  | OpenHangs.

(** The events IndexedDB delivers to the handlers a promise executor
    installed, in the order it delivers them. *)
Inductive IdbEvent :=
  | RequestSuccess
  | RequestError (error : JsError)
  | PutSuccess
  | PutError (error : JsError)
  | TransactionError (error : JsError).

(** The storage during one cache operation: the opening of the
    database, whether [db.transaction] throws, the events delivered
    and the clock. *)
Record Idb := mkIdb {
  idb_open : OpenBehaviour;
  idb_transactionThrows : option JsError;
  idb_events : list IdbEvent;
  idb_now : Z
}.

Definition SM : Type -> Type := Task Storage.

Definition consoleError (label : jsstring) (error : option JsError) : SM unit :=
  fun s =>
    (Resolved tt,
     mkStorage (dbInstance s) (records s) (console s ++ [(label, error)])).

Definition openDatabase (env : Idb) : SM unit :=
  fun s =>
    if dbInstance s then (Resolved tt, s)
    else
      match idb_open env with
      | OpenSucceeds => (Resolved tt, mkStorage true (records s) (console s))
      | OpenErrors error =>
          (do _ <- consoleError (js "Failed to open IndexedDB:") (Some error);
           throw error) s
      | OpenThrows error => (Rejected error, s)
      | OpenHangs => (Pending, s)
      end.

(** A promise under construction: settled by the first call of
    [resolve] or [reject], later calls have no effect. *)
Definition settle {A} (current : Outcome A) (next : Outcome A) : Outcome A :=
  match current with
  | Pending => next
  | _ => current
  end.

(** [new Promise(executor)] for the executors of this module: the
    executor opens a transaction (which may throw, rejecting the
    promise), issues its first request and installs [handler], which
    reacts to each delivered event by updating its local variables
    and the storage and possibly settling. *)
Definition newPromise {A L} (env : Idb) (init : L)
  (handler : IdbEvent -> L -> Storage -> Outcome A * L * Storage) : SM A :=
  fun s =>
    match idb_transactionThrows env with
    | Some error => (Rejected error, s)
    | None =>
        let '(settled, _, s') :=
          List.fold_left
            (fun '(current, l, st) event =>
               let '(next, l', st') := handler event l st in
               (settle current next, l', st'))
            (idb_events env) (Pending, init, s) in
        (settled, s')
    end.

(** A handler body that only touches the storage. *)
Definition run {A L} (l : L) (m : SM A) (st : Storage)
  : Outcome A * L * Storage :=
  let '(r, st') := m st in (r, l, st').

Definition putRecord (entry : StoredSummary) : SM unit :=
  fun s =>
    (Resolved tt,
     mkStorage (dbInstance s) (<[videoId entry := entry]> (records s))
       (console s)).

Definition saveSummary (env : Idb) (id : jsstring) (r : AnalysisResult)
  (url lang query : jsstring) : SM unit :=
  do _ <- openDatabase env;
  let now := idb_now env in
  newPromise env (None : option StoredSummary)
    (fun event putRequest st =>
       match event with
       | RequestSuccess =>
           let existing := records st !! id in
           let entry :=
             mkStoredSummary id r url lang query
               (default now (createdAt <$> existing)) now in
           (Pending, Some entry, st)
       | RequestError _ =>
           let entry := mkStoredSummary id r url lang query now now in
           (Pending, Some entry, st)
       | PutSuccess =>
           match putRequest with
           | Some entry => run None (putRecord entry) st
           | None => (Pending, putRequest, st)
           end
       | PutError error =>
           match putRequest with
           | Some _ =>
               run None
                 (do _ <- consoleError (js "Failed to save summary:") (Some error);
                  throw error) st
           | None => (Pending, putRequest, st)
           end
       | TransactionError error =>
           run putRequest
             (do _ <- consoleError (js "Transaction failed:") (Some error);
              throw error) st
       end).

(** In [getSummary] and [getAllSummaries] the [try] block awaits
    [openDatabase()] and then returns the request's promise without
    awaiting it: the [catch] block handles a failed opening, while a
    rejection of the returned promise settles the caller's promise. *)
Definition getSummary (env : Idb) (id : jsstring) : SM (option StoredSummary) :=
  fun s =>
    match openDatabase env s with
    | (Resolved _, s') =>
        newPromise env tt
          (fun event l st =>
             match event with
             | RequestError error =>
                 run l (do _ <- consoleError (js "Failed to get summary:")
                                  (Some error);
                        throw error) st
             | RequestSuccess => (Resolved (records st !! id), l, st)
             | _ => (Pending, l, st)
             end) s'
    | (Rejected error, s') =>
        (do _ <- consoleError (js "Failed to access summary storage:")
                   (Some error);
         ret None) s'
    | (Pending, s') => (Pending, s')
    end.

Definition deleteSummary (env : Idb) (id : jsstring) : SM unit :=
  do _ <- openDatabase env;
  newPromise env tt
    (fun event l st =>
       match event with
       | RequestError error =>
           run l (do _ <- consoleError (js "Failed to delete summary:")
                            (Some error);
                  throw error) st
       | RequestSuccess =>
           (Resolved tt, l,
            mkStorage (dbInstance st) (delete id (records st)) (console st))
       | _ => (Pending, l, st)
       end).

(** Keys of an object store are ordered; strings by code units. *)
Fixpoint compareKeys (a b : jsstring) : Z :=
  match a, b with
  | [], [] => 0
  | [], _ :: _ => -1
  | _ :: _, [] => 1
  | x :: a', y :: b' =>
      match (x ?= y)%N with
      | Lt => -1
      | Gt => 1
      | Eq => compareKeys a' b'
      end
  end.

Definition allRecords (st : Storage) : list StoredSummary :=
  (arraySort (fun x y => compareKeys (fst x) (fst y))
     (map_to_list (records st))).*2.

Definition getAllSummaries (env : Idb) : SM (list StoredSummary) :=
  fun s =>
    match openDatabase env s with
    | (Resolved _, s') =>
        newPromise env tt
          (fun event l st =>
             match event with
             | RequestError error =>
                 run l (do _ <- consoleError (js "Failed to get all summaries:")
                                  (Some error);
                        throw error) st
             | RequestSuccess => (Resolved (allRecords st), l, st)
             | _ => (Pending, l, st)
             end) s'
    | (Rejected error, s') =>
        (do _ <- consoleError (js "Failed to access summary storage:")
                   (Some error);
         ret []) s'
    | (Pending, s') => (Pending, s')
    end.

Definition clearAllSummaries (env : Idb) : SM unit :=
  do _ <- openDatabase env;
  newPromise env tt
    (fun event l st =>
       match event with
       | RequestError error =>
           run l (do _ <- consoleError (js "Failed to clear summaries:")
                            (Some error);
                  throw error) st
       | RequestSuccess =>
           (Resolved tt, l, mkStorage (dbInstance st) ∅ (console st))
       | _ => (Pending, l, st)
       end).


End SummaryStorage.

(** ** Object identity: [applyCorrections] on a store

    Objects and arrays are reached through references. An
    [AnalysisResult] object holds its summary, its answer and a
    reference to its [keyMoments] array. The code below never writes
    into a [Highlight] or a [UserAnswerResult] object once built (it
    replaces array slots and properties by new objects), so these are
    kept by value. *)

Module Store.

Definition ref := positive.

Record ResultObject := mkResultObject {
  o_customAnswer : option UserAnswerResult;
  o_summary : jsstring;
  o_keyMoments : ref
}.

Record Heap := mkHeap {
  objects : gmap ref ResultObject;
  arrays : gmap ref (list Highlight)
}.

(** The value of the result object at [r]. *)
Definition load (h : Heap) (r : ref) : option AnalysisResult :=
  o ← objects h !! r;
  km ← arrays h !! o_keyMoments o;
  Some (mkAnalysisResult (o_customAnswer o) (o_summary o) km).

(** [JSON.parse(JSON.stringify(result))]: a new object with a new
    array, holding the value read from [r]. *)
Definition deepCopy (r : ref) (h : Heap) : option (ref * Heap) :=
  v ← load h r;
  let a := fresh (dom (arrays h)) in
  let c := fresh (dom (objects h)) in
  Some (c, mkHeap
             (<[c := mkResultObject (customAnswer v) (summary v) a]> (objects h))
             (<[a := keyMoments v]> (arrays h))).

(** [{ ...result }]: a new object sharing the array of [r]. The
    service does not copy this way before correcting; the definition
    is here for comparison. *)
Definition shallowCopy (r : ref) (h : Heap) : option (ref * Heap) :=
  o ← objects h !! r;
  let c := fresh (dom (objects h)) in
  Some (c, mkHeap (<[c := o]> (objects h)) (arrays h)).

(** One iteration of the loop: every write goes through
    [correctedResult]: assignments to and deletion of its properties,
    and [splice], [push] and index assignment on the array its
    [keyMoments] property refers to. *)
Definition applyIssueAt (c : ref) (h : Heap) (issue : ValidationIssue)
  : option Heap :=
  o ← objects h !! c;
  v ← load h c;
  let v' := applyIssue v issue in
  Some (mkHeap
          (<[c := mkResultObject (customAnswer v') (summary v') (o_keyMoments o)]>
             (objects h))
          (<[o_keyMoments o := keyMoments v']> (arrays h))).

Fixpoint forEach (c : ref) (issues : list ValidationIssue) (h : Heap)
  : option Heap :=
  match issues with
  | [] => Some h
  | issue :: rest => h' ← applyIssueAt c h issue; forEach c rest h'
  end.

Definition applyCorrections (r : ref) (issues : list ValidationIssue) (h : Heap)
  : option (ref * Heap) :=
  '(c, h1) ← deepCopy r h;
  h2 ← forEach c (sortIssues issues) h1;
  Some (c, h2).

(** The same loop on a shallow copy. *)
Definition applyCorrectionsShallow (r : ref) (issues : list ValidationIssue)
  (h : Heap) : option (ref * Heap) :=
  '(c, h1) ← shallowCopy r h;
  h2 ← forEach c (sortIssues issues) h1;
  Some (c, h2).

(** The store while the loop runs on the copy [c] with array [a] of a
    result of the store [h0]: [h0] with the two cells of the copy on
    top, holding the working value [w]. *)
Definition working (h0 : Heap) (c a : ref) (w : AnalysisResult) (h : Heap)
  : Prop :=
  objects h = <[c := mkResultObject (customAnswer w) (summary w) a]> (objects h0)
  /\ arrays h = <[a := keyMoments w]> (arrays h0).

End Store.

(** ** A JSON reader

    [JSON.parse] is a built-in. The properties of the response parser
    are proved for any parser ([JsonParse]); the examples of the
    specification are evaluated with the reader below, which follows
    the JSON grammar (ECMA-404). A number is kept as its lexeme. *)

Module Json.

#[local] Unset Elimination Schemes.
Inductive json :=
  | JNull
  | JBool (b : bool)
  | JNumber (lexeme : jsstring)
  | JString (s : jsstring)
  | JArray (elements : list json)
  | JObject (members : list (jsstring * json)).
#[local] Set Elimination Schemes.

Definition isJsonSpace (c : codeUnit) : bool :=
  (c =? 32)%N || (c =? 9)%N || (c =? 10)%N || (c =? 13)%N.

Fixpoint skipSpace (s : jsstring) : jsstring :=
  match s with
  | c :: s' => if isJsonSpace c then skipSpace s' else s
  | [] => []
  end.

Definition isDigit (c : codeUnit) : bool := ((48 <=? c) && (c <=? 57))%N.

Definition hexValue (c : codeUnit) : option N :=
  if isDigit c then Some (c - 48)%N
  else if ((97 <=? c) && (c <=? 102))%N then Some (c - 87)%N
  else if ((65 <=? c) && (c <=? 70))%N then Some (c - 55)%N
  else None.

(** The characters of a string after its opening quote, up to the
    closing quote. *)
Fixpoint readString (s : jsstring) : option (jsstring * jsstring) :=
  match s with
  | [] => None
  | 34%N :: rest => Some ([], rest)
  | 92%N :: 117%N :: a :: b :: c :: d :: rest =>
      match hexValue a, hexValue b, hexValue c, hexValue d with
      | Some x, Some y, Some z, Some w =>
          '(chars, rest') ← readString rest;
          Some ((x * 4096 + y * 256 + z * 16 + w)%N :: chars, rest')
      | _, _, _, _ => None
      end
  | 92%N :: e :: rest =>
      unit ←
        (if (e =? 34)%N then Some 34%N
         else if (e =? 92)%N then Some 92%N
         else if (e =? 47)%N then Some 47%N
         else if (e =? 98)%N then Some 8%N
         else if (e =? 102)%N then Some 12%N
         else if (e =? 110)%N then Some 10%N
         else if (e =? 114)%N then Some 13%N
         else if (e =? 116)%N then Some 9%N
         else None);
      '(chars, rest') ← readString rest;
      Some (unit :: chars, rest')
  | c :: rest =>
      if (c <? 32)%N || (c =? 92)%N then None
      else '(chars, rest') ← readString rest; Some (c :: chars, rest')
  end.

Fixpoint readDigits (s : jsstring) : jsstring * jsstring :=
  match s with
  | c :: s' =>
      if isDigit c then let '(ds, rest) := readDigits s' in (c :: ds, rest)
      else ([], s)
  | [] => ([], [])
  end.

(** A number: an optional minus sign; a zero, or a non-zero digit
    followed by digits; optionally a point and at least one digit;
    optionally an exponent mark, a sign and at least one digit. *)
Definition readNumber (s : jsstring) : option (jsstring * jsstring) :=
  let '(sign, s1) :=
    match s with 45%N :: r => ([45%N], r) | _ => ([], s) end in
  '(int, s2) ←
    match s1 with
    | 48%N :: r => Some ([48%N], r)
    | c :: _ => if isDigit c then Some (readDigits s1) else None
    | [] => None
    end;
  '(frac, s3) ←
    match s2 with
    | 46%N :: r =>
        let '(ds, r') := readDigits r in
        if truthy ds then Some (46%N :: ds, r') else None
    | _ => Some ([], s2)
    end;
  '(exp, s4) ←
    match s3 with
    | e :: r =>
        if (e =? 101)%N || (e =? 69)%N then
          let '(sgn, r1) :=
            match r with
            | c :: r' =>
                if (c =? 43)%N || (c =? 45)%N then ([c], r') else ([], r)
            | [] => ([], r)
            end in
          let '(ds, r2) := readDigits r1 in
          if truthy ds then Some (e :: sgn ++ ds, r2) else None
        else Some ([], s3)
    | [] => Some ([], s3)
    end;
  Some (sign ++ int ++ frac ++ exp, s4).

Fixpoint readValue (fuel : nat) (s : jsstring) : option (json * jsstring) :=
  match fuel with
  | O => None
  | S fuel' =>
      match s with
      | 123%N :: rest =>
          match skipSpace rest with
          | 125%N :: rest' => Some (JObject [], rest')
          | _ =>
              '(members, rest') ← readMembers fuel' rest;
              Some (JObject members, rest')
          end
      | 91%N :: rest =>
          match skipSpace rest with
          | 93%N :: rest' => Some (JArray [], rest')
          | _ =>
              '(elements, rest') ← readElements fuel' rest;
              Some (JArray elements, rest')
          end
      | 34%N :: rest =>
          '(chars, rest') ← readString rest; Some (JString chars, rest')
      | _ =>
          match stripPrefixExact (js "true") s,
                stripPrefixExact (js "false") s,
                stripPrefixExact (js "null") s with
          | Some rest, _, _ => Some (JBool true, rest)
          | _, Some rest, _ => Some (JBool false, rest)
          | _, _, Some rest => Some (JNull, rest)
          | _, _, _ =>
              '(lexeme, rest) ← readNumber s; Some (JNumber lexeme, rest)
          end
      end
  end
with readElements (fuel : nat) (s : jsstring)
  : option (list json * jsstring) :=
  match fuel with
  | O => None
  | S fuel' =>
      '(v, rest) ← readValue fuel' (skipSpace s);
      match skipSpace rest with
      | 44%N :: rest' =>
          '(vs, rest'') ← readElements fuel' rest'; Some (v :: vs, rest'')
      | 93%N :: rest' => Some ([v], rest')
      | _ => None
      end
  end
with readMembers (fuel : nat) (s : jsstring)
  : option (list (jsstring * json) * jsstring) :=
  match fuel with
  | O => None
  | S fuel' =>
      match skipSpace s with
      | 34%N :: afterQuote =>
          '(k, rest) ← readString afterQuote;
          match skipSpace rest with
          | 58%N :: rest1 =>
              '(v, rest2) ← readValue fuel' (skipSpace rest1);
              match skipSpace rest2 with
              | 44%N :: rest3 =>
                  '(ms, rest4) ← readMembers fuel' rest3;
                  Some ((k, v) :: ms, rest4)
              | 125%N :: rest3 => Some ([(k, v)], rest3)
              | _ => None
              end
          | _ => None
          end
      | _ => None
      end
  end.

(** A JSON text is one value between optional white space. A nested
    value costs the reader two calls and at least one character, so
    twice the length of the text bounds the recursion. *)
Definition parse (s : jsstring) : option json :=
  '(v, rest) ← readValue (2 * length s + 2) (skipSpace s);
  match skipSpace rest with
  | [] => Some v
  | _ => None
  end.

#[export] Instance json_parse : JsonParse json := parse.

End Json.


(** ** Reading typed values out of JSON

    The service asserts the type of what [JSON.parse] returns
    ([as T]). The readers below make the assertion checkable: they
    accept the JSON values that have the asserted type and read the
    properties the service reads. A property that is absent or of
    another type reads as [None] where the service tests for it. The
    JSON value [null], on which a property read throws, has no
    reading. *)

Module Decode.
Import Json.

(** [value[name]] on a parsed object: the last member of that name. *)
Fixpoint property (name : jsstring) (members : list (jsstring * json))
  : option json :=
  match members with
  | [] => None
  | (k, v) :: rest =>
      match property name rest with
      | Some later => Some later
      | None => if eqb k name then Some v else None
      end
  end.

Definition get (name : string) (j : json) : option json :=
  match j with
  | JObject members => property (js name) members
  | _ => None
  end.

Definition asString (j : option json) : option jsstring :=
  match j with Some (JString s) => Some s | _ => None end.

Definition asStrings (j : option json) : option (list jsstring) :=
  match j with
  | Some (JArray l) => mapM (fun e => asString (Some e)) l
  | _ => None
  end.

Fixpoint digitsValue (acc : Z) (s : jsstring) : option Z :=
  match s with
  | [] => Some acc
  | c :: s' =>
      if isDigit c then digitsValue (10 * acc + Z.of_N (c - 48)) s' else None
  end.

(** An integer written without fraction or exponent. *)
Definition asInteger (j : option json) : option Z :=
  match j with
  | Some (JNumber (45%N :: (_ :: _) as ds)) => Z.opp <$> digitsValue 0 ds
  | Some (JNumber ((_ :: _) as ds)) => digitsValue 0 ds
  | _ => None
  end.

Definition rawMoment (j : json) : RawMoment :=
  mkRawMoment (asString (get "timestamp" j)) (asString (get "description" j)).

Definition unknownArray (j : option json) : Unknown :=
  match j with
  | Some (JArray l) => AnArray (List.map rawMoment l)
  | _ => NotAnArray
  end.

Definition rawAnalysis (j : json) : option RawAnalysis :=
  match j with
  | JNull => None
  | _ => Some (mkRawAnalysis (asString (get "summary" j))
                 (unknownArray (get "keyMoments" j)))
  end.

Definition rawAnswer (j : json) : option RawAnswer :=
  match j with
  | JNull => None
  | _ =>
      Some (mkRawAnswer (asString (get "text" j))
              (match get "relatedSegments" j with
               | Some (JArray l) =>
                   Some (List.map (fun e => asString (Some e)) l)
               | _ => None
               end))
  end.

Definition fieldOf (s : jsstring) : option ValidationField :=
  if eqb s (js "summary") then Some FSummary
  else if eqb s (js "keyMoments") then Some FKeyMoments
  else if eqb s (js "customAnswer") then Some FCustomAnswer
  else None.

Definition issueTypeOf (s : jsstring) : option IssueType :=
  if eqb s (js "incorrect_timestamp") then Some incorrect_timestamp
  else if eqb s (js "hallucination") then Some hallucination
  else if eqb s (js "missing_info") then Some missing_info
  else if eqb s (js "inaccurate_description") then Some inaccurate_description
  else if eqb s (js "wrong_language") then Some wrong_language
  else None.

Definition actionOf (s : jsstring) : option CorrectionAction :=
  if eqb s (js "replace") then Some Replace
  else if eqb s (js "remove") then Some Remove
  else if eqb s (js "add") then Some Add
  else None.

Definition correctionValue (j : option json)
  : option (option CorrectionValue) :=
  match j with
  | None => Some None
  | Some (JString s) => Some (Some (VString s))
  | Some (JObject members) =>
      let o := JObject members in
      Some (Some (VObject
                    (mkValueObject (asString (get "timestamp" o))
                       (asString (get "description" o))
                       (asString (get "text" o))
                       (asStrings (get "relatedSegments" o)))))
  | Some _ => None
  end.

Definition validationIssue (j : json) : option ValidationIssue :=
  f ← asString (get "field" j) ≫= fieldOf;
  i ← match get "index" j with
      | None => Some None
      | Some n => Some <$> asInteger (Some n)
      end;
  ty ← asString (get "issueType" j) ≫= issueTypeOf;
  d ← asString (get "description" j);
  c ← get "correction" j;
  a ← asString (get "action" c) ≫= actionOf;
  v ← correctionValue (get "value" c);
  Some (mkIssue f i ty d (mkCorrection a v)).

Definition validationResult (j : json) : option ValidationResult :=
  match get "isValid" j, get "issues" j with
  | Some (JBool b), Some (JArray l) =>
      mkValidation b <$> mapM validationIssue l
  | _, _ => None
  end.

#[export] Instance parseRawAnswer : JsonParse RawAnswer :=
  fun raw => parse raw ≫= rawAnswer.
#[export] Instance parseRawAnalysis : JsonParse RawAnalysis :=
  fun raw => parse raw ≫= rawAnalysis.
#[export] Instance parseValidationResult : JsonParse ValidationResult :=
  fun raw => parse raw ≫= validationResult.

(** [String.prototype.toLowerCase] on ASCII text. *)
Definition asciiToLowerCase (s : jsstring) : jsstring :=
  List.map (fun c => if ((65 <=? c) && (c <=? 90))%N then (c + 32)%N else c) s.

End Decode.


(** ** The stored API key (services/apiKeyStorage.ts)

    The credentials are kept as a JSON text under one key of
    [chrome.storage.local] or, without it, of [window.localStorage]. At
    run time the provider read back is whatever string the stored text
    holds, so the stored credentials carry the provider as a string. *)

Module ApiKeyStorage.
Import Json Decode.

Definition STORAGE_KEY : jsstring := js "tubegist:gemini_api_key".
Definition FALLBACK_PROVIDER : jsstring := js "google".

Record Credentials := mkStored {
  stored_provider : jsstring;
  stored_key : jsstring
}.

(** The name of a provider as the string it is at run time. *)
Definition providerName (p : LLMProvider) : jsstring :=
  match p with
  | google => js "google"
  | openai => js "openai"
  | anthropic => js "anthropic"
  | groq => js "groq"
  | deepseek => js "deepseek"
  end.

(** [JSON.stringify] of a string (QuoteJSONString): the quotation
    mark, the backslash and the control characters are escaped, a
    surrogate that is not part of a pair is written as a [\u] escape
    with lowercase digits, every other code unit is copied. *)
Definition hexDigit (n : N) : codeUnit :=
  if (n <? 10)%N then (48 + n)%N else (87 + n)%N.

Definition unicodeEscape (c : codeUnit) : jsstring :=
  [92%N; 117%N; hexDigit (c / 4096); hexDigit ((c / 256) mod 16);
   hexDigit ((c / 16) mod 16); hexDigit (c mod 16)].

Definition isHighSurrogate (c : codeUnit) : bool :=
  ((55296 <=? c) && (c <=? 56319))%N.
Definition isLowSurrogate (c : codeUnit) : bool :=
  ((56320 <=? c) && (c <=? 57343))%N.

Definition escapeUnit (c : codeUnit) : jsstring :=
  if (c =? 8)%N then [92%N; 98%N]
  else if (c =? 9)%N then [92%N; 116%N]
  else if (c =? 10)%N then [92%N; 110%N]
  else if (c =? 12)%N then [92%N; 102%N]
  else if (c =? 13)%N then [92%N; 114%N]
  else if (c =? 34)%N then [92%N; 34%N]
  else if (c =? 92)%N then [92%N; 92%N]
  else if (c <? 32)%N then unicodeEscape c
  else [c].

Fixpoint quoteUnits (s : jsstring) : jsstring :=
  match s with
  | [] => []
  | c :: rest =>
      if isHighSurrogate c then
        match rest with
        | d :: rest' =>
            if isLowSurrogate d then c :: d :: quoteUnits rest'
            else unicodeEscape c ++ quoteUnits rest
        | [] => unicodeEscape c
        end
      else if isLowSurrogate c then unicodeEscape c ++ quoteUnits rest
      else escapeUnit c ++ quoteUnits rest
  end.

Definition quoteJSONString (s : jsstring) : jsstring :=
  34%N :: quoteUnits s ++ [34%N].

(** [JSON.stringify(value)] on an object with the string properties
    [provider] and [key], in this order. *)
Definition serializeCredentials (value : Credentials) : jsstring :=
  js "{" ++ quoteJSONString (js "provider") ++ js ":"
    ++ quoteJSONString (stored_provider value) ++ js ","
    ++ quoteJSONString (js "key") ++ js ":"
    ++ quoteJSONString (stored_key value) ++ js "}".

Section Parse.
Context {parser : JsonParse json}.

(** [parsed && typeof parsed.key === 'string'], as the key when the
    test passes. Only an object has a string property [key]: the
    values on which the first conjunct is false ([null], [false], 0,
    the empty string) have none, as have the other numbers, strings,
    booleans and the arrays. *)
Definition storedKey (parsed : json) : option jsstring :=
  match parsed with
  | JNull => None
  | _ => asString (get "key" parsed)
  end.

Definition parseStoredCredentials (raw : option jsstring)
  : option Credentials :=
  match raw with
  | None => None
  | Some raw =>
      if negb (truthy raw) then None
      else
        let legacy := Some (mkStored FALLBACK_PROVIDER raw) in
        match JSON_parse raw with
        | Some parsed =>
            match storedKey parsed with
            | Some key =>
                Some (mkStored
                        (default FALLBACK_PROVIDER
                           (asString (get "provider" parsed)))
                        key)
            | None =>
                if negb (prefixb (js "{") (trim raw)) then legacy
                else if negb (prefixb (js "{") (trim raw)) then legacy
                else None
            end
        | None => legacy
        end
  end.

End Parse.

(** Which storage the page has. *)
Record Backends := mkBackends {
  hasChromeStorage : bool;
  hasLocalStorage : bool
}.

(** What the storage does during one operation: whether
    [chrome.runtime.lastError] is set when the callback runs, and
    whether the access to [window.localStorage] throws. A failing
    write leaves the storage as it was. *)
Record Access := mkAccess {
  lastError : option JsError;
  localStorageThrows : option JsError
}.

Record KeyStore := mkKeyStore {
  chromeLocal : gmap jsstring jsstring;
  localStorage : gmap jsstring jsstring;
  keyConsole : list (jsstring * JsError)
}.

Definition KM : Type -> Type := Task KeyStore.

Definition getFromChromeStorage (access : Access) : KM (option jsstring) :=
  fun s =>
    match lastError access with
    | Some error => (Rejected error, s)
    | None => (Resolved (chromeLocal s !! STORAGE_KEY), s)
    end.

Definition setChromeStorage (access : Access) (value : option jsstring)
  : KM unit :=
  fun s =>
    match lastError access with
    | Some error => (Rejected error, s)
    | None =>
        (Resolved tt,
         mkKeyStore
           (match value with
            | None => delete STORAGE_KEY (chromeLocal s)
            | Some v => <[STORAGE_KEY := v]> (chromeLocal s)
            end)
           (localStorage s) (keyConsole s))
    end.

Definition localGetItem (access : Access) : KM (option jsstring) :=
  fun s =>
    match localStorageThrows access with
    | Some error => (Rejected error, s)
    | None => (Resolved (localStorage s !! STORAGE_KEY), s)
    end.

Definition localSetItem (access : Access) (value : jsstring) : KM unit :=
  fun s =>
    match localStorageThrows access with
    | Some error => (Rejected error, s)
    | None =>
        (Resolved tt,
         mkKeyStore (chromeLocal s) (<[STORAGE_KEY := value]> (localStorage s))
           (keyConsole s))
    end.

Definition localRemoveItem (access : Access) : KM unit :=
  fun s =>
    match localStorageThrows access with
    | Some error => (Rejected error, s)
    | None =>
        (Resolved tt,
         mkKeyStore (chromeLocal s) (delete STORAGE_KEY (localStorage s))
           (keyConsole s))
    end.

Definition logError (label : jsstring) (error : JsError) : KM unit :=
  fun s =>
    (Resolved tt,
     mkKeyStore (chromeLocal s) (localStorage s)
       (keyConsole s ++ [(label, error)])).

Section Operations.
Context {parser : JsonParse json}.
Variable backends : Backends.
Variable access : Access.

Definition getUserApiKey : KM (option Credentials) :=
  tryCatch
    (do raw <-
       (if hasChromeStorage backends then getFromChromeStorage access
        else if hasLocalStorage backends then localGetItem access
        else ret None);
     ret (parseStoredCredentials raw))
    (fun error =>
       do _ <- logError (js "Failed to load stored API key") error;
       ret None).

Definition saveUserApiKey (credentials : Credentials) : KM unit :=
  let trimmed := trim (stored_key credentials) in
  if negb (truthy trimmed) then throw (newError (js "API key cannot be empty"))
  else
    let payload := mkStored (stored_provider credentials) trimmed in
    let serialized := serializeCredentials payload in
    if hasChromeStorage backends then setChromeStorage access (Some serialized)
    else if negb (hasLocalStorage backends)
    then throw (newError (js "No storage mechanism available"))
    else localSetItem access serialized.

Definition clearUserApiKey : KM unit :=
  if hasChromeStorage backends then setChromeStorage access None
  else if hasLocalStorage backends then localRemoveItem access
  else ret tt.

End Operations.

End ApiKeyStorage.


(** ** Setting up the key (App.tsx) *)

Module KeySetup.
Import ApiKeyStorage.

(** The state updates of the key form: those of the side panel and
    two of its own. *)
Inductive SetupEvent :=
  | Update (e : UiEvent)
  | SetSelectedProvider (p : LLMProvider)
  | SetKeySetupError (message : option jsstring).

(** What [persistApiKey] acts on: the analysis service, the key
    storage and the component state. *)
Record Setup := mkSetup {
  setup_service : Service;
  setup_store : KeyStore;
  setup_updates : list SetupEvent
}.

Definition SU : Type -> Type := Task Setup.

Definition update (e : SetupEvent) : SU unit :=
  fun s =>
    (Resolved tt,
     mkSetup (setup_service s) (setup_store s) (setup_updates s ++ [e])).

Definition callAnalysis {A} (m : M A) : SU A :=
  fun s =>
    let '(r, svc) := m (setup_service s) in
    (r, mkSetup svc (setup_store s) (setup_updates s)).

Definition callStorage {A} (m : KM A) : SU A :=
  fun s =>
    let '(r, store) := m (setup_store s) in
    (r, mkSetup (setup_service s) store (setup_updates s)).

Section PersistApiKey.

Variable t : jsstring -> jsstring.
Variable respond : ChatModel -> Prompt -> Outcome jsstring.
Variable backends : Backends.
Variable access : Access.

Definition persistApiKey (provider : LLMProvider) (key : jsstring) : SU unit :=
  let trimmed := trim key in
  if negb (truthy trimmed) then throw (newError (t (js "auth.errorMissing")))
  else
    let payload := mkCredentials provider trimmed in
    do _ <- callAnalysis (validateProviderCredentials respond (Some payload));
    do _ <- callStorage
              (saveUserApiKey backends access
                 (mkStored (providerName provider) trimmed));
    do _ <- update (Update (SetCredentials (Some payload)));
    do _ <- update (SetSelectedProvider provider);
    do _ <- update (SetKeySetupError None);
    update (Update (SetKeySetupSuccess (Some (t (js "auth.successMessage"))))).

End PersistApiKey.

End KeySetup.


(** ** Timestamps (App.tsx, services/mockData.ts)

    Times are whole numbers of seconds. *)

Module Timestamps.
Import Json.

(** [String(n).padStart(2, '0')] *)
Definition padStart2 (s : jsstring) : jsstring :=
  match s with
  | [c] => [48%N; c]
  | [] => [48%N; 48%N]
  | _ => s
  end.

Definition formatTime (seconds : N) : jsstring :=
  let min := (seconds / 60)%N in
  let sec := (seconds mod 60)%N in
  decimal min ++ js ":" ++ padStart2 (decimal sec).

(** The two ways the group of one or two digits and a colon can match
    at the start of [s], the longer first: the text matched and the
    rest. *)
Definition isColon (c : codeUnit) : bool := (c =? 58)%N.

Definition digitsColon (s : jsstring) : list (jsstring * jsstring) :=
  match s with
  | a :: b :: c :: rest =>
      if isDigit a && isDigit b && isColon c then [([a; b; c], rest)] else []
  | _ => []
  end
  ++ match s with
     | a :: c :: rest =>
         if isDigit a && isColon c then [([a; c], rest)] else []
     | _ => []
     end.

(** Two digits at the start of [s]. *)
Definition twoDigits (s : jsstring) : option jsstring :=
  match s with
  | a :: b :: _ => if isDigit a && isDigit b then Some [a; b] else None
  | _ => None
  end.

(** The first success of [f] on the elements of a list, in order. *)
Fixpoint firstSome {A B} (f : A -> option B) (l : list A) : option B :=
  match l with
  | [] => None
  | x :: l' => match f x with Some y => Some y | None => firstSome f l' end
  end.

(** A match of the pattern at the start of [s]: the group once or
    twice, then two digits. The matcher backtracks in this order: for
    each way of matching the first group, a second group is tried
    before none. *)
Definition matchHere (s : jsstring) : option jsstring :=
  firstSome
    (fun '(first, rest) =>
       match firstSome
               (fun '(second, rest') =>
                  (fun last => first ++ second ++ last) <$> twoDigits rest')
               (digitsColon rest) with
       | Some m => Some m
       | None => (fun last => first ++ last) <$> twoDigits rest
       end)
    (digitsColon s).

(** [value.match(TIMESTAMP_REGEX)]: the leftmost match. *)
Fixpoint matchTimestamp (s : jsstring) : option jsstring :=
  match matchHere s with
  | Some m => Some m
  | None =>
      match s with
      | [] => None
      | _ :: s' => matchTimestamp s'
      end
  end.

(** [text.split(':')] *)
Fixpoint splitColon (s : jsstring) : list jsstring :=
  match s with
  | [] => [[]]
  | c :: s' =>
      match splitColon s' with
      | part :: parts =>
          if isColon c then [] :: part :: parts else (c :: part) :: parts
      | [] => [[c]]
      end
  end.

(** [Number(segment)] on a text of decimal digits; [None] stands for
    [NaN]. *)
Definition numberOfDigits (s : jsstring) : option N :=
  List.fold_left
    (fun acc c =>
       match acc with
       | Some n => if isDigit c then Some (10 * n + (c - 48))%N else None
       | None => None
       end)
    s (Some 0%N).

Definition parseTimestampToSeconds (value : jsstring) : option N :=
  if negb (truthy value) then None
  else
    match matchTimestamp value with
    | None => None
    | Some m =>
        match mapM numberOfDigits (splitColon m) with
        | None => None
        | Some parts =>
            Some (List.fold_left (fun acc segment => acc * 60 + segment)%N
                    parts 0%N)
        end
    end.

End Timestamps.


(** ** Concrete scenarios

    Inputs on which the model is evaluated in the examples below. *)

Module Scenario.
Import Decode.

Definition credentials : ApiCredentials :=
  mkCredentials google (js "AIzaSy-key").

Definition blankCredentials : ApiCredentials := mkCredentials openai (js "   ").

Definition idle : Service := mkService None [].

Definition moment (ts d : string) : Highlight := mkHighlight (js ts) (js d).

Definition preliminary : AnalysisResult :=
  mkAnalysisResult None (js "A talk about proofs.")
    [moment "00:10" "Intro"; moment "01:30" "Main idea"; moment "02:45" "Outro"].

(** A validation response asking to replace the first key moment by
    one without description and to correct the summary. *)
Definition validationResponse : jsstring :=
  jsq "{'isValid': false, 'issues': [
       {'field': 'keyMoments', 'index': 0, 'issueType': 'hallucination',
        'description': 'not in the transcript',
        'correction': {'action': 'replace', 'value': {'timestamp': '00:20'}}},
       {'field': 'summary', 'issueType': 'inaccurate_description',
        'description': 'too vague',
        'correction': {'action': 'replace', 'value': 'A talk about Rocq.'}}]}".

Definition validating : ChatModel -> Prompt -> Outcome jsstring :=
  fun _ _ => Resolved validationResponse.

Definition improved : AnalysisResult :=
  mkAnalysisResult None (js "A talk about Rocq.")
    [moment "01:30" "Main idea"; moment "02:45" "Outro"].

(** Corrections of key moments. *)
Definition removeAt (i : Z) : ValidationIssue :=
  mkIssue FKeyMoments (Some i) hallucination (js "not in the transcript")
    (mkCorrection Remove None).

Definition replaceAt (i : Z) (ts d : string) : ValidationIssue :=
  mkIssue FKeyMoments (Some i) incorrect_timestamp (js "wrong time")
    (mkCorrection Replace
       (Some (VObject (mkValueObject (Some (js ts)) (Some (js d)) None None)))).

Definition twoMoments : AnalysisResult :=
  mkAnalysisResult None (js "A talk about proofs.")
    [moment "00:10" "Intro"; moment "01:30" "Main idea"].

(** A store holding [twoMoments] at reference 1, its array at
    reference 2. *)
Definition store : Store.Heap :=
  Store.mkHeap
    {[ 1%positive := Store.mkResultObject None (js "A talk about proofs.") 2%positive ]}
    {[ 2%positive := [moment "00:10" "Intro"; moment "01:30" "Main idea"] ]}.

(** Model output with a fenced block that is not JSON, followed by a
    JSON object. *)
Definition fenceThenObject : jsstring := jsq "```x``` {'a':1}".

(** The three responses of the parser examples (P4). *)
Definition fencedResponse : jsstring :=
  jsq "Here is the result:
```json
{'summary':'x','keyMoments':[]}
```".

Definition proseResponse : jsstring := jsq "blah {'a':1} blah".

Definition notJson : jsstring := js "not json at all".

(** A provider that never answers. *)
Definition silent : ChatModel -> Prompt -> Outcome jsstring :=
  fun _ _ => Pending.

Definition panel : Panel := mkPanel idle [].

(** A summarize request on a transcript of more than 50 characters,
    without and with a question. *)
Definition transcript : jsstring :=
  js "[00:10] Welcome to this talk about proofs. [01:30] The main idea. [02:45] Bye.".

Definition analysisResponse : jsstring :=
  jsq "{'summary': 'A talk about proofs.', 'keyMoments': [
        {'timestamp': '00:10', 'description': 'Intro'},
        {'timestamp': ' 01:30', 'description': 'Main idea '},
        {'timestamp': '02:45', 'description': 'Outro'},
        {'timestamp': '03:00', 'description': '   '}]}".

Definition answerResponse : jsstring :=
  jsq "```json
{'text': 'It is about proofs.', 'relatedSegments': ['00:10 - 01:30', '']}
```".

Definition answer : UserAnswerResult :=
  mkUserAnswer (js "It is about proofs.") [js "00:10 - 01:30"].

Definition request (query : string) : SummarizeInput :=
  mkSummarizeInput (Some credentials) transcript (js query) None (js "en")
    (Some (js "https://www.youtube.com/watch?v=abc")) (Some (js "abc")).

(** The provider answers both calls of the first phase; the validation
    call gets prose instead of JSON. *)
Definition validationBroken : SummarizeEnv :=
  mkSummarizeEnv
    (fun _ _ _ => Resolved answerResponse)
    (fun _ _ _ => Resolved analysisResponse)
    (fun _ _ => Resolved notJson)
    true false false.

(** The provider answers the analysis call and never the question. *)
Definition answerHangs : SummarizeEnv :=
  mkSummarizeEnv
    (fun _ _ _ => Pending)
    (fun _ _ _ => Resolved analysisResponse)
    (fun _ _ => Resolved validationResponse)
    true false false.

(** The cache before any use, a storage that cannot be opened and a
    storage whose read request fails. *)
Definition emptyCache : SummaryStorage.Storage :=
  SummaryStorage.mkStorage false ∅ [].

Definition quotaError : JsError :=
  Error (js "QuotaExceededError") (js "The quota has been exceeded.").



(** The provider never answers the analysis call. *)
Definition analysisHangs : SummarizeEnv :=
  mkSummarizeEnv
    (fun _ _ _ => Resolved answerResponse)
    (fun _ _ _ => Pending)
    (fun _ _ => Resolved validationResponse)
    true false false.

(** A storage that works: the request succeeds, then the put. *)
Definition workingStorage (now : Z) : SummaryStorage.Idb :=
  SummaryStorage.mkIdb SummaryStorage.OpenSucceeds None
    [SummaryStorage.RequestSuccess; SummaryStorage.PutSuccess] now.

End Scenario.


(** ** Predicates of the statements *)

(** A string that does not start with white space. *)
Definition startsClean (s : jsstring) : Prop :=
  match s with
  | [] => True
  | c :: _ => isWhiteSpace c = false
  end.

(** A key moment is well formed when neither its timestamp nor its
    description is empty after trimming. *)
Definition wellFormedMoment (h : Highlight) : Prop :=
  trim (timestamp h) <> [] /\ trim (description h) <> [].

(** [a] may stay before [b] in an array sorted with [cmp]. *)
Definition notAfter {A : Type} (cmp : A -> A -> Z) (a b : A) : Prop :=
  cmp a b <= 0.

(** The order the comparator of [applyCorrections] defines: by field
    name; within a field, the actions other than ['remove'] before the
    ['remove'] actions; within each of the two groups, by descending
    index, a missing index counting as 0. *)
Definition processedBefore (a b : ValidationIssue) : Prop :=
  fieldRank (field a) < fieldRank (field b)
  \/ (field a = field b /\ isRemove a = false /\ isRemove b = true)
  \/ (field a = field b /\ isRemove a = isRemove b
      /\ indexOr0 b <= indexOr0 a).

(** The order the specification describes for the corrections of
    [keyMoments]: every ['remove'] is processed before every other
    action. *)
Definition removesBeforeOthers (l : list ValidationIssue) : Prop :=
  forall i j a b,
    l !! i = Some a -> l !! j = Some b ->
    field a = FKeyMoments -> field b = FKeyMoments ->
    isRemove a = true -> isRemove b = false ->
    (i < j)%nat.


(** The fallback chain of the response parser as the specification
    words it: the direct parse, then the contents of a fenced block,
    then the text between the first and the last brace, each tried when
    the one before failed. *)
Definition parseAsSpecified {T} {parser : JsonParse T} (raw : jsstring)
  : option T :=
  match JSON_parse raw with
  | Some v => Some v
  | None =>
      match fencedMatch raw ≫= (fun g => JSON_parse (trim g)) with
      | Some v => Some v
      | None => bracedText raw ≫= JSON_parse
      end
  end.


(** The attempt numbers with which the wrapped operation was called,
    in order. *)
Definition attempts (updates : list UiEvent) : list nat :=
  omap (fun e => match e with Called _ k => Some k | _ => None end) updates.

(** A task that does not itself record calls of a wrapped operation. *)
Definition quiet {A} (m : P A) : Prop :=
  forall s, attempts (ui (snd (m s))) = attempts (ui s).

(** A retry callback that returns normally, as a callback that only
    logs and updates component state does. *)
Definition returnsNormally (onRetry : option (nat -> JsError -> P unit))
  : Prop :=
  forall callback, onRetry = Some callback ->
    forall k e s, fst (callback k e s) = Resolved tt /\ quiet (callback k e).


(** The successive values given to the [result] state. *)
Definition resultUpdates (updates : list UiEvent)
  : list (option AnalysisResult) :=
  omap (fun e => match e with SetResult r => Some r | _ => None end) updates.

(** A task that only appends events satisfying [Q] to the record of the
    side panel. *)
Definition appendsOnly (Q : UiEvent -> Prop) {A} (m : P A) : Prop :=
  forall s, exists l, ui (snd (m s)) = ui s ++ l /\ Forall Q l.

(** An event that is not an update of the [result] state. *)
Definition keepsResult (e : UiEvent) : Prop :=
  match e with SetResult _ => False | _ => True end.

(** The validation call fails: whatever the chat model and the prompt,
    [invokeModelForJson] rejects. *)
Definition validationFails (respond : ChatModel -> Prompt -> Outcome jsstring)
  {parseValidation : JsonParse ValidationResult} : Prop :=
  forall llm prompt s,
    exists e s',
      invokeModelForJson respond (T := ValidationResult) llm prompt
        (js "validateResult") s = (Rejected e, s').




(** The calls to the provider among the events of the service, in
    order. *)
Definition invocations (l : list Event) : list (ChatModel * Prompt) :=
  omap (fun e => match e with Invoked llm p => Some (llm, p) | _ => None end) l.

(** Credentials the guard of the service accepts. *)
Definition configured (c : ApiCredentials) : Prop := trim (key c) <> [].

(** The chat model [createLLM] builds for these credentials when the
    caller gives a temperature, a token limit and a retry count and no
    model name. *)
Definition clientOf (c : ApiCredentials) (temperature maxTokens maxRetries : Z)
  : ChatModel :=
  mkChatModel (provider c) (trim (key c)) (DEFAULT_MODELS (provider c))
    temperature (Some maxTokens) maxRetries.


(** Two results with the same value of a field. *)
Definition sameField (f : ValidationField) (r r' : AnalysisResult) : Prop :=
  match f with
  | FSummary => summary r = summary r'
  | FKeyMoments => keyMoments r = keyMoments r'
  | FCustomAnswer => customAnswer r = customAnswer r'
  end.

(** The issues about one field, in their order. *)
Definition issuesOf (f : ValidationField) (issues : list ValidationIssue)
  : list ValidationIssue :=
  List.filter (fun issue => bool_decide (field issue = f)) issues.

(** The elements of an array whose position, counted from [position],
    is not among [indices]. *)
Fixpoint withoutFrom {A} (indices : list nat) (position : nat) (l : list A)
  : list A :=
  match l with
  | [] => []
  | x :: l' =>
      if bool_decide (position ∈ indices)
      then withoutFrom indices (S position) l'
      else x :: withoutFrom indices (S position) l'
  end.

Definition withoutIndices {A} (indices : list nat) (l : list A) : list A :=
  withoutFrom indices 0 l.

(** The positions the ['remove'] corrections of [keyMoments] name. *)
Definition removedIndices (issues : list ValidationIssue) : list nat :=
  omap validIndex (issuesOf FKeyMoments issues).


(** An update of the side panel that tells the user nothing about the
    outcome of a request and stores nothing: it is not a result, a
    final status, an error or its dialog, a write to the summary cache
    or a change of the stored key. *)
Definition withoutOutcome (e : UiEvent) : Prop :=
  match e with
  | SetResult (Some _) => False
  | SetStatus SUCCESS => False
  | SetStatus ERROR => False
  | SetError (Some _) => False
  | SetShowErrorModal true => False
  | SaveSummary _ _ _ _ _ => False
  | ClearUserApiKey => False
  | SetCredentials _ => False
  | _ => True
  end.

(** An update made while a request is being prepared or the provider
    is being called: no result, no cache write and no change of the
    improving or status flags. *)
Definition inProgress (e : UiEvent) : Prop :=
  match e with
  | SetResult _ => False
  | SaveSummary _ _ _ _ _ => False
  | SetIsImproving _ => False
  | SetStatus _ => False
  | SetShowErrorModal _ => False
  | _ => True
  end.

(** The results written to the summary cache, in order. *)
Definition savedResults (updates : list UiEvent) : list AnalysisResult :=
  omap (fun e => match e with
                 | SaveSummary _ r _ _ _ => Some r
                 | _ => None
                 end) updates.

(** The value of the [isImproving] state after a sequence of updates,
    given the one before them. *)
Definition improving (before : bool) (updates : list UiEvent) : bool :=
  List.fold_left
    (fun flag e => match e with SetIsImproving b => b | _ => flag end)
    updates before.


(** An update made while a failure is reported: no result, no cache
    write, and the improving flag is not raised. *)
Definition reportsFailure (e : UiEvent) : Prop :=
  match e with
  | SetResult _ => False
  | SaveSummary _ _ _ _ _ => False
  | SetIsImproving true => False
  | _ => True
  end.

(** A task that returns normally after appending to the record of the
    side panel only events satisfying [Q], and that does not call the
    service. *)
Definition onlyRecords (Q : UiEvent -> Prop) (m : P unit) : Prop :=
  forall s, exists l,
    m s = (Resolved tt, mkPanel (service s) (ui s ++ l)) /\ Forall Q l.


(** The value of a decimal digit. *)
Definition digitValue (c : codeUnit) : N := (c - 48)%N.

(** [f] holds of every number below [n]. *)
Definition allBelow (n : N) (f : N -> bool) : bool :=
  snd (N.iter n (fun '(k, ok) => (k + 1, ok && f k)%N) (0%N, true)).

(** The time formatted by [formatTime] is parsed as the same time up
    to multiples of 100 minutes. *)
Definition readBack (n : N) : bool :=
  match Timestamps.parseTimestampToSeconds (Timestamps.formatTime n) with
  | Some seconds => (seconds =? n mod 6000)%N
  | None => false
  end.


(** * Properties *)

(** ** Trimming *)

Lemma trimStart_startsClean s : startsClean (trimStart s).
Proof.
  induction s as [|c s IH]; simpl; [exact I|].
  destruct (isWhiteSpace c) eqn:E; [exact IH | exact E].
Qed.

Lemma trimStart_clean s : startsClean s -> trimStart s = s.
Proof. destruct s as [|c s]; simpl; [reflexivity|]. intros ->. reflexivity. Qed.

Lemma trimStart_idem s : trimStart (trimStart s) = trimStart s.
Proof. apply trimStart_clean, trimStart_startsClean. Qed.

Lemma trimStart_snoc l c :
  isWhiteSpace c = false -> trimStart (l ++ [c]) = trimStart l ++ [c].
Proof.
  intros Hc. induction l as [|x l IH]; simpl.
  - rewrite Hc. reflexivity.
  - destruct (isWhiteSpace x); [exact IH | reflexivity].
Qed.

Lemma trimEnd_startsClean s : startsClean s -> startsClean (trimEnd s).
Proof.
  destruct s as [|c s]; [intros _; exact I|].
  simpl. intros Hc. unfold trimEnd. simpl.
  rewrite trimStart_snoc by exact Hc.
  rewrite rev_app_distr. simpl. exact Hc.
Qed.

Lemma trimEnd_idem s : trimEnd (trimEnd s) = trimEnd s.
Proof.
  unfold trimEnd. rewrite rev_involutive, trimStart_idem. reflexivity.
Qed.

Lemma trim_idem s : trim (trim s) = trim s.
Proof.
  unfold trim.
  rewrite (trimStart_clean (trimEnd (trimStart s))).
  - apply trimEnd_idem.
  - apply trimEnd_startsClean, trimStart_startsClean.
Qed.

Lemma trimOrEmpty_trim o : trim (trimOrEmpty o) = trimOrEmpty o.
Proof. destruct o; simpl; [apply trim_idem | reflexivity]. Qed.

Lemma length_pos_nonempty (s : jsstring) :
  (0 <? length s)%nat = true <-> s <> [].
Proof.
  destruct s as [|c s]; simpl; split; intros Hs.
  - discriminate.
  - contradiction.
  - discriminate.
  - reflexivity.
Qed.

(** ** The task monad *)

Lemma bind_resolved {S A B} (m : Task S A) (k : A -> Task S B) s b s' :
  bind m k s = (Resolved b, s') ->
  exists a s1, m s = (Resolved a, s1) /\ k a s1 = (Resolved b, s').
Proof.
  unfold bind. destruct (m s) as [[a|e|] s1]; intros E; try discriminate.
  eauto.
Qed.

Lemma bind_step {S A B} (m : Task S A) (k : A -> Task S B) s a s1 :
  m s = (Resolved a, s1) -> bind m k s = k a s1.
Proof. unfold bind. intros ->. reflexivity. Qed.

Lemma bind_rejected {S A B} (m : Task S A) (k : A -> Task S B) s e s1 :
  m s = (Rejected e, s1) -> bind m k s = (Rejected e, s1).
Proof. unfold bind. intros ->. reflexivity. Qed.

(** ** Key moments after sanitizing *)

Lemma sanitizeKeyMoments_wellFormed u :
  Forall wellFormedMoment (sanitizeKeyMoments u).
Proof.
  destruct u as [|l]; simpl; [constructor|].
  apply List.Forall_forall. intros h Hin.
  apply List.filter_In in Hin. destruct Hin as [Hin Hok].
  apply List.in_map_iff in Hin. destruct Hin as [m [<- _]].
  simpl in Hok. apply andb_true_iff in Hok. destruct Hok as [Ht Hd].
  apply length_pos_nonempty in Ht, Hd.
  split; simpl; rewrite trimOrEmpty_trim; assumption.
Qed.

Lemma sanitizeKeyMoments_idem u :
  sanitizeKeyMoments (ofHighlights (sanitizeKeyMoments u)) = sanitizeKeyMoments u.
Proof.
  destruct u as [|l]; simpl; [reflexivity|].
  induction l as [|m l IH]; simpl; [reflexivity|].
  destruct ((0 <? length (trimOrEmpty (raw_timestamp m)))%nat
            && (0 <? length (trimOrEmpty (raw_description m)))%nat) eqn:E.
  - simpl. rewrite !trimOrEmpty_trim, E. f_equal. exact IH.
  - exact IH.
Qed.

(** ** The correction engine keeps key moments well formed *)

Section CorrectionEngine.

Variable respond : ChatModel -> Prompt -> Outcome jsstring.
Context {parseValidation : JsonParse ValidationResult}.

Lemma validateAndFixResult_sanitized llm result transcript originalPrompt
  languageName languageCode s r s' :
  validateAndFixResult respond llm result transcript originalPrompt
    languageName languageCode s = (Resolved r, s') ->
  exists corrected,
    r = setKeyMoments corrected
          (sanitizeKeyMoments (ofHighlights (keyMoments corrected)))
    /\ (corrected = result
        \/ exists issues, issues <> [] /\ corrected = applyCorrections result issues).
Proof.
  unfold validateAndFixResult. intros E.
  apply bind_resolved in E. destruct E as (validation & s1 & _ & E).
  destruct (isValid validation || (length (issues validation) =? 0)%nat) eqn:V;
    unfold ret in E; inversion E; subst; clear E.
  - exists result. split; [reflexivity | left; reflexivity].
  - eexists. split; [reflexivity|]. right. exists (issues validation).
    split; [|reflexivity].
    apply orb_false_iff in V. destruct V as [_ V].
    destruct (issues validation); [discriminate | congruence].
Qed.

Lemma improveResult_inv result transcript credentials targetLanguage s r s' :
  improveResult respond result transcript credentials targetLanguage s
    = (Resolved r, s') ->
  exists llm transcript' originalPrompt languageName languageCode s1,
    validateAndFixResult respond llm result transcript' originalPrompt
      languageName languageCode s1 = (Resolved r, s').
Proof.
  unfold improveResult. intros E.
  apply bind_resolved in E. destruct E as ([] & s1 & _ & E).
  destruct credentials as [c|]; [|discriminate].
  destruct (sanitizeLanguage targetLanguage) as [languageName languageCode].
  apply bind_resolved in E. destruct E as (llm & s2 & _ & E).
  apply bind_resolved in E. destruct E as (last & s3 & _ & E).
  eauto 10.
Qed.

(** C1. Every result the correction engine returns, through
    [validateAndFixResult] or through [improveResult], whatever the
    validation said and whichever issues were applied, has only key
    moments whose timestamp and description are non-empty after
    trimming; its key moments are what the final filtering pass
    ([sanitizeKeyMoments]) kept of the corrected ones. *)
Theorem keyMoments_invariant llm result transcript originalPrompt
  languageName languageCode credentials targetLanguage s r s' :
  validateAndFixResult respond llm result transcript originalPrompt
    languageName languageCode s = (Resolved r, s')
  \/ improveResult respond result transcript credentials targetLanguage s
       = (Resolved r, s') ->
  Forall wellFormedMoment (keyMoments r)
  /\ exists corrected,
       keyMoments r = sanitizeKeyMoments (ofHighlights corrected).
Proof.
  intros [E|E].
  - apply validateAndFixResult_sanitized in E.
    destruct E as (corrected & -> & _). cbn [keyMoments setKeyMoments].
    split; [apply sanitizeKeyMoments_wellFormed | eauto].
  - apply improveResult_inv in E.
    destruct E as (llm' & tr & op & ln & lc & s1 & E).
    apply validateAndFixResult_sanitized in E.
    destruct E as (corrected & -> & _). cbn [keyMoments setKeyMoments].
    split; [apply sanitizeKeyMoments_wellFormed | eauto].
Qed.

End CorrectionEngine.

(** On a preliminary result with three key moments, a validation that
    replaces the first by a moment without description yields the two
    others. *)
Lemma keyMoments_invariant_witness :
  Forall wellFormedMoment (keyMoments Scenario.improved)
  /\ exists corrected,
       keyMoments Scenario.improved = sanitizeKeyMoments (ofHighlights corrected).
Proof.
  eapply (keyMoments_invariant Scenario.validating
            (parseValidation := Decode.parseValidationResult)
            (mkChatModel google [] [] 0 None 0) Scenario.preliminary
            (js "transcript") RespondWithOK [] []
            (Some Scenario.credentials) None Scenario.idle).
  right. vm_compute. reflexivity.
Defined.

(** ** The order in which corrections are applied *)

Section SortFacts.

Context {A : Type} (cmp : A -> A -> Z).

Hypothesis cmp_total : forall a b, 0 < cmp a b -> notAfter cmp b a.
Hypothesis cmp_trans :
  forall a b c, notAfter cmp a b -> notAfter cmp b c -> notAfter cmp a c.

Lemma insertSorted_perm x l : Permutation (x :: l) (insertSorted cmp x l).
Proof.
  induction l as [|y l IH]; simpl; [reflexivity|].
  destruct (0 <? cmp x y); [|reflexivity].
  rewrite perm_swap. constructor. exact IH.
Qed.

Lemma arraySort_perm l : Permutation l (arraySort cmp l).
Proof.
  induction l as [|x l IH]; simpl; [constructor|].
  rewrite <- insertSorted_perm. constructor. exact IH.
Qed.

Lemma insertSorted_sorted x l :
  StronglySorted (notAfter cmp) l ->
  StronglySorted (notAfter cmp) (insertSorted cmp x l).
Proof.
  induction 1 as [|y l Hs IH Hy]; simpl.
  - repeat constructor.
  - destruct (0 <? cmp x y) eqn:E.
    + apply Z.ltb_lt in E. constructor; [exact IH|].
      rewrite <- insertSorted_perm. constructor; [|exact Hy].
      apply cmp_total. exact E.
    + apply Z.ltb_ge in E. constructor.
      * constructor; assumption.
      * constructor; [exact E|].
        eapply List.Forall_impl; [|exact Hy].
        intros z Hz. eapply cmp_trans; [exact E | exact Hz].
Qed.

Lemma arraySort_sorted l : StronglySorted (notAfter cmp) (arraySort cmp l).
Proof.
  induction l as [|x l IH]; simpl; [constructor|].
  apply insertSorted_sorted. exact IH.
Qed.

End SortFacts.

Lemma fieldRank_inj f g : fieldRank f = fieldRank g -> f = g.
Proof. destruct f, g; simpl; intros E; try reflexivity; discriminate. Qed.

Lemma localeCompare_sign f g :
  (localeCompare f g <= 0 <-> fieldRank f <= fieldRank g)
  /\ (f <> g -> localeCompare f g <= 0 -> fieldRank f < fieldRank g).
Proof.
  destruct f, g; unfold localeCompare; simpl; split; try split; intros;
    try lia; try congruence.
Qed.

Lemma compareIssues_notAfter a b :
  notAfter compareIssues a b <-> processedBefore a b.
Proof.
  unfold notAfter, compareIssues, processedBefore.
  destruct (decide (field a = field b)) as [Ef|Nf].
  - rewrite bool_decide_eq_true_2 by exact Ef. simpl.
    rewrite Ef.
    destruct (isRemove a), (isRemove b); simpl; split; intros Hc;
      try lia; try (right; left; auto; fail);
      try (right; right; repeat split; auto; lia);
      destruct Hc as [Hc|[(_ & Hc1 & Hc2)|(_ & Hc1 & Hc2)]];
      try lia; try discriminate.
  - rewrite bool_decide_eq_false_2 by exact Nf. simpl.
    destruct (localeCompare_sign (field a) (field b)) as [_ Hlt].
    split.
    + intros Hc. left. apply Hlt; assumption.
    + intros [Hc|[(Hc & _)|(Hc & _)]]; try contradiction.
      destruct (field a), (field b); unfold localeCompare; simpl in *; lia.
Qed.

Lemma compareIssues_total a b :
  0 < compareIssues a b -> notAfter compareIssues b a.
Proof.
  intros Hab. apply compareIssues_notAfter.
  assert (Hn : ~ processedBefore a b).
  { intros Hp. apply compareIssues_notAfter in Hp. unfold notAfter in Hp. lia. }
  unfold processedBefore in *.
  destruct (Z.lt_trichotomy (fieldRank (field a)) (fieldRank (field b)))
    as [Hlt|[Heq|Hgt]].
  - exfalso. apply Hn. left. exact Hlt.
  - apply fieldRank_inj in Heq.
    destruct (isRemove a) eqn:Ra, (isRemove b) eqn:Rb.
    + right. right. repeat split; auto.
      destruct (Z.le_gt_cases (indexOr0 a) (indexOr0 b)); [assumption|].
      exfalso. apply Hn. right. right. repeat split; auto. lia.
    + right. left. auto.
    + exfalso. apply Hn. right. left. auto.
    + right. right. repeat split; auto.
      destruct (Z.le_gt_cases (indexOr0 a) (indexOr0 b)); [assumption|].
      exfalso. apply Hn. right. right. repeat split; auto. lia.
  - left. lia.
Qed.

Lemma processedBefore_trans a b c :
  processedBefore a b -> processedBefore b c -> processedBefore a c.
Proof.
  unfold processedBefore.
  intros [H1|[(E1 & A1 & B1)|(E1 & A1 & B1)]]
         [H2|[(E2 & A2 & B2)|(E2 & A2 & B2)]];
    try rewrite E1 in *; try rewrite <- E2 in *;
    try (left; lia);
    try (right; left; repeat split; congruence);
    try (right; right; repeat split; try congruence; lia);
    try congruence.
Qed.

Lemma compareIssues_trans a b c :
  notAfter compareIssues a b -> notAfter compareIssues b c ->
  notAfter compareIssues a c.
Proof.
  rewrite !compareIssues_notAfter. apply processedBefore_trans.
Qed.

Lemma sortIssues_sorted issues :
  StronglySorted processedBefore (sortIssues issues).
Proof.
  pose proof (arraySort_sorted compareIssues compareIssues_total
                compareIssues_trans issues) as Hs.
  unfold sortIssues. induction Hs as [|x l Hs IH Hx]; constructor.
  - exact IH.
  - eapply List.Forall_impl; [|exact Hx].
    intros y. apply compareIssues_notAfter.
Qed.

(** A ['remove'] and a ['replace'] of the same key moment: the
    replacement is applied first and the removal last, so the replaced
    moment is the one removed. Processing the removal first would
    leave the replacement in the result. *)
Lemma removes_are_applied_last :
  sortIssues [Scenario.removeAt 0; Scenario.replaceAt 0 "00:20" "Start"]
    = [Scenario.replaceAt 0 "00:20" "Start"; Scenario.removeAt 0]
  /\ ~ removesBeforeOthers
        (sortIssues [Scenario.removeAt 0; Scenario.replaceAt 0 "00:20" "Start"])
  /\ keyMoments
       (applyCorrections Scenario.twoMoments
          [Scenario.removeAt 0; Scenario.replaceAt 0 "00:20" "Start"])
     = [Scenario.moment "01:30" "Main idea"].
Proof.
  split; [reflexivity|]. split; [|reflexivity].
  intros Hc.
  specialize (Hc 1%nat 0%nat (Scenario.removeAt 0)
                (Scenario.replaceAt 0 "00:20" "Start")
                eq_refl eq_refl eq_refl eq_refl eq_refl eq_refl).
  lia.
Qed.

(** C2 (as the code has it). [applyCorrections] applies the issues one
    by one in the order [sort] leaves them in: a rearrangement of the
    issues that is ordered by field name and, within a field, has the
    ['replace'] and ['add'] actions first and the ['remove'] actions
    last, each of the two groups by descending index (a missing index
    counting as 0). *)
Theorem corrections_processing_order result issues :
  applyCorrections result issues
    = List.fold_left applyIssue (sortIssues issues) result
  /\ Permutation issues (sortIssues issues)
  /\ StronglySorted processedBefore (sortIssues issues).
Proof.
  split; [reflexivity|]. split.
  - apply arraySort_perm.
  - apply sortIssues_sorted.
Qed.

(** Two removals are applied from the higher index down, so each index
    still names the element it named in the given array. *)
Lemma removals_descending answer text km i j ty d v ty' d' v' :
  0 <= i < j ->
  keyMoments
    (applyCorrections (mkAnalysisResult answer text km)
       [ mkIssue FKeyMoments (Some i) ty d (mkCorrection Remove v);
         mkIssue FKeyMoments (Some j) ty' d' (mkCorrection Remove v') ])
  = delete (Z.to_nat i) (delete (Z.to_nat j) km).
Proof.
  intros Hij. unfold applyCorrections, sortIssues, deepCopy. simpl arraySort.
  assert (Hcmp : (0 <? compareIssues
                         (mkIssue FKeyMoments (Some i) ty d
                            (mkCorrection Remove v))
                         (mkIssue FKeyMoments (Some j) ty' d'
                            (mkCorrection Remove v'))) = true).
  { apply Z.ltb_lt. unfold compareIssues, isRemove, indexOr0. simpl. lia. }
  rewrite Hcmp. simpl.
  unfold correctKeyMoments, validIndex. simpl.
  destruct (Z.leb_spec 0 j) as [_|Hj]; [|lia].
  destruct (Z.leb_spec 0 i) as [_|Hi]; [|lia].
  reflexivity.
Qed.

(** C9. Removing the key moments at indices 0 and 2 of a three-element
    array leaves exactly the element that was at index 1. *)
Theorem removal_ordering answer text a b c ty0 d0 v0 ty2 d2 v2 :
  keyMoments
    (applyCorrections (mkAnalysisResult answer text [a; b; c])
       [ mkIssue FKeyMoments (Some 0) ty0 d0 (mkCorrection Remove v0);
         mkIssue FKeyMoments (Some 2) ty2 d2 (mkCorrection Remove v2) ])
  = [b].
Proof.
  rewrite removals_descending by lia.
  reflexivity.
Qed.

(** ** Corrections are applied to a copy and are safe on indices *)

Lemma correctKeyMoments_out_of_range km issue i :
  index issue = Some i ->
  Z.of_nat (length km) <= i ->
  action (correction issue) = Remove \/ action (correction issue) = Replace ->
  correctKeyMoments km issue = km.
Proof.
  intros Hi Hlen Hact. unfold correctKeyMoments, validIndex. rewrite Hi.
  assert (Hpos : (0 <=? i) = true) by (apply Z.leb_le; lia).
  rewrite Hpos.
  assert (Hn : (length km <= Z.to_nat i)%nat) by lia.
  destruct Hact as [-> | ->].
  - revert Hn. generalize (Z.to_nat i). clear.
    induction km as [|x km IH]; intros n Hn; [destruct n; reflexivity|].
    destruct n as [|n]; simpl in *; [lia|].
    f_equal. apply IH. lia.
  - destruct (truthyValue (value (correction issue))); [|reflexivity].
    assert (E : (Z.to_nat i <? length km)%nat = false) by (apply Nat.ltb_ge; lia).
    rewrite E. reflexivity.
Qed.

Module StoreFacts.
Lemma working_load h0 c a w h :
  Store.working h0 c a w h -> Store.load h c = Some w.
Proof.
  intros [Ho Ha]. unfold Store.load. rewrite Ho, lookup_insert_eq. simpl.
  rewrite Ha, lookup_insert_eq. simpl. destruct w; reflexivity.
Qed.

Lemma applyIssueAt_working h0 c a w h issue :
  Store.working h0 c a w h ->
  exists h', Store.applyIssueAt c h issue = Some h'
             /\ Store.working h0 c a (applyIssue w issue) h'.
Proof.
  intros Hw. pose proof (working_load _ _ _ _ _ Hw) as Hl.
  destruct Hw as [Ho Ha]. unfold Store.applyIssueAt.
  rewrite Hl, Ho, lookup_insert_eq. simpl.
  eexists. split; [reflexivity|]. split; simpl.
  - rewrite insert_insert_eq. reflexivity.
  - rewrite Ha, insert_insert_eq. reflexivity.
Qed.

Lemma forEach_working h0 c a issues : forall w h,
  Store.working h0 c a w h ->
  exists h', Store.forEach c issues h = Some h'
             /\ Store.working h0 c a (List.fold_left applyIssue issues w) h'.
Proof.
  induction issues as [|issue rest IH]; intros w h Hw; simpl.
  - eauto.
  - destruct (applyIssueAt_working _ _ _ _ _ issue Hw) as (h1 & -> & Hw1).
    simpl. apply IH. exact Hw1.
Qed.

Lemma fresh_object (h : Store.Heap) l o :
  Store.objects h !! l = Some o -> l <> fresh (dom (Store.objects h)).
Proof.
  intros Hl ->. apply (is_fresh (dom (Store.objects h))).
  apply elem_of_dom. eauto.
Qed.

Lemma fresh_array (h : Store.Heap) l (a : list Highlight) :
  Store.arrays h !! l = Some a -> l <> fresh (dom (Store.arrays h)).
Proof.
  intros Hl ->. apply (is_fresh (dom (Store.arrays h))).
  apply elem_of_dom. eauto.
Qed.

Lemma applyCorrections_on_copy h r v issues :
  Store.load h r = Some v ->
  exists c h',
    Store.applyCorrections r issues h = Some (c, h')
    /\ Store.objects h !! c = None
    /\ Store.load h' c = Some (applyCorrections v issues)
    /\ Store.load h' r = Some v
    /\ (forall l o, Store.objects h !! l = Some o -> Store.objects h' !! l = Some o)
    /\ (forall l a, Store.arrays h !! l = Some a -> Store.arrays h' !! l = Some a).
Proof.
  intros Hl. unfold Store.applyCorrections, Store.deepCopy. rewrite Hl. simpl.
  set (a := fresh (dom (Store.arrays h))). set (c := fresh (dom (Store.objects h))).
  set (h1 := Store.mkHeap _ _).
  assert (Hw : Store.working h c a v h1) by (split; reflexivity).
  destruct (forEach_working h c a (sortIssues issues) v h1 Hw) as (h2 & -> & Hw2).
  simpl. exists c, h2.
  assert (Hobj : forall l o, Store.objects h !! l = Some o -> Store.objects h2 !! l = Some o).
  { intros l o Ho. destruct Hw2 as [-> _].
    rewrite lookup_insert_ne; [exact Ho|].
    intros E. apply (fresh_object h l o Ho). symmetry. exact E. }
  assert (Harr : forall l k, Store.arrays h !! l = Some k -> Store.arrays h2 !! l = Some k).
  { intros l k Hk. destruct Hw2 as [_ ->].
    rewrite lookup_insert_ne; [exact Hk|].
    intros E. apply (fresh_array h l k Hk). symmetry. exact E. }
  split; [reflexivity|]. split.
  { apply not_elem_of_dom. apply is_fresh. }
  split; [exact (working_load _ _ _ _ _ Hw2)|]. split; [|split; assumption].
  unfold Store.load in *.
  destruct (Store.objects h !! r) as [o|] eqn:Ho; [|discriminate]. simpl in Hl.
  rewrite (Hobj _ _ Ho). simpl.
  destruct (Store.arrays h !! Store.o_keyMoments o) as [k|] eqn:Hk; [|discriminate].
  rewrite (Harr _ _ Hk). exact Hl.
Qed.

End StoreFacts.

(** C10. [applyCorrections] always returns, on a fresh object that
    holds the corrected value, and the result object it was given and
    every other object and array of the store are as before; and a
    ['remove'] or ['replace'] of [keyMoments] whose index is at or
    beyond the current length leaves the array as it is. *)
Theorem applyCorrections_total_and_index_safe
  (h : Store.Heap) (r : Store.ref) (v : AnalysisResult)
  (issues : list ValidationIssue) :
  Store.load h r = Some v ->
  (exists c h',
     Store.applyCorrections r issues h = Some (c, h')
     /\ Store.objects h !! c = None
     /\ Store.load h' c = Some (applyCorrections v issues)
     /\ Store.load h' r = Some v
     /\ (forall l o, Store.objects h !! l = Some o ->
                     Store.objects h' !! l = Some o)
     /\ (forall l a, Store.arrays h !! l = Some a ->
                     Store.arrays h' !! l = Some a))
  /\ (forall current issue i,
        field issue = FKeyMoments ->
        index issue = Some i ->
        Z.of_nat (length (keyMoments current)) <= i ->
        action (correction issue) = Remove
        \/ action (correction issue) = Replace ->
        keyMoments (applyIssue current issue) = keyMoments current).
Proof.
  intros Hl. split.
  - apply StoreFacts.applyCorrections_on_copy. exact Hl.
  - intros current issue i Hf Hi Hlen Hact.
    unfold applyIssue. rewrite Hf. simpl.
    eapply correctKeyMoments_out_of_range; eassumption.
Qed.

(** On a store holding a result with two key moments, removing the
    first yields a new object and leaves the given one as it was. *)
Lemma applyCorrections_total_and_index_safe_witness :
  Store.load Scenario.store 1%positive = Some Scenario.twoMoments
  /\ exists c h',
       Store.applyCorrections 1%positive [Scenario.removeAt 0] Scenario.store
         = Some (c, h')
       /\ Store.load h' c
          = Some (applyCorrections Scenario.twoMoments [Scenario.removeAt 0])
       /\ Store.load h' 1%positive = Some Scenario.twoMoments.
Proof.
  split; [reflexivity|].
  destruct (applyCorrections_total_and_index_safe Scenario.store 1%positive
              Scenario.twoMoments [Scenario.removeAt 0] eq_refl)
    as [(c & h' & E & _ & Hc & Hr & _) _].
  exists c, h'. repeat split; assumption.
Defined.

(** The copy matters: the same loop on a shallow copy, which shares the
    array, removes the key moment from the given result too. *)
Remark shallow_copy_would_mutate :
  exists c h',
    Store.applyCorrectionsShallow 1%positive [Scenario.removeAt 0] Scenario.store
      = Some (c, h')
    /\ (keyMoments <$> Store.load h' 1%positive)
       = Some [Scenario.moment "01:30" "Main idea"].
Proof. do 2 eexists. split; vm_compute; reflexivity. Qed.

(** ** The response parser *)

Lemma extractJsonFromText_choice raw :
  extractJsonFromText raw
  = match fencedMatch raw with
    | Some (c :: g) => trim (c :: g)
    | _ => match bracedText raw with
           | Some braced => braced
           | None => trim raw
           end
    end.
Proof.
  unfold extractJsonFromText.
  destruct (fencedMatch raw) as [[|c g]|]; reflexivity.
Qed.

(** A fenced block that does not parse ends the search: the object
    after it, which the chain of the specification would reach through
    the braces, is never tried. *)
Lemma fenced_block_preempts_braces :
  parseAsSpecified (parser := Json.json_parse) Scenario.fenceThenObject
    = Some (Json.JObject [(js "a", Json.JNumber (js "1"))])
  /\ fst (parseJsonContent (parser := Json.json_parse) Scenario.fenceThenObject (js "ctx")
            Scenario.idle)
     = Rejected (newError (js "ctx returned invalid JSON")).
Proof. split; vm_compute; reflexivity. Qed.

(** What [parseJsonContent] settles with, by the two parses it makes. *)
Lemma parseJsonContent_cases {T} {parser : JsonParse T} (raw context : jsstring)
  (s : Service) :
  let fallback := extractJsonFromText raw in
  match parseJsonContent raw context s with
  | (Resolved v, s') =>
      s' = s
      /\ (JSON_parse raw = Some v
          \/ (JSON_parse raw = None /\ fallback <> raw
              /\ JSON_parse fallback = Some v))
  | (Rejected e, s') =>
      JSON_parse raw = None
      /\ (fallback = raw \/ JSON_parse fallback = None)
      /\ e = newError (context ++ js " returned invalid JSON")
      /\ lastAnalysisPrompt s' = lastAnalysisPrompt s
      /\ exists earlier,
           events s'
           = events s ++ earlier
               ++ [ConsoleError (context ++ js " raw response")
                     (LogString raw)]
  | (Pending, _) => False
  end.
Proof.
  intros fallback. unfold parseJsonContent. fold fallback.
  destruct (JSON_parse raw) as [v|] eqn:Eraw.
  { simpl. auto. }
  unfold eqb. destruct (decide (fallback = raw)) as [Eq|Ne].
  - rewrite bool_decide_eq_true_2 by exact Eq. simpl.
    repeat split; auto. exists []. reflexivity.
  - rewrite bool_decide_eq_false_2 by exact Ne. simpl.
    destruct (JSON_parse fallback) as [v|] eqn:Efb.
    + simpl. split; [reflexivity|]. right. auto.
    + simpl. repeat split; auto.
      eexists [_]. rewrite <- app_assoc. reflexivity.
Qed.

(** C3 (as the code has it). [parseJsonContent] tries the raw text
    first. When that fails it tries one other text, the one
    [extractJsonFromText] selects (the trimmed contents of the first
    fenced block when it has any, otherwise the text from the first
    opening to the last closing brace, otherwise the trimmed text),
    provided it differs from the raw text. It returns only what one of
    the two parses returned, and otherwise logs the raw text and throws
    [<context> returned invalid JSON]. *)
Theorem parser_fallback {T} {parser : JsonParse T} (raw context : jsstring)
  (s : Service) :
  let fallback := extractJsonFromText raw in
  fallback
  = match fencedMatch raw with
    | Some (c :: g) => trim (c :: g)
    | _ => match bracedText raw with
           | Some braced => braced
           | None => trim raw
           end
    end
  /\ match parseJsonContent raw context s with
     | (Resolved v, s') =>
         s' = s
         /\ (JSON_parse raw = Some v
             \/ (JSON_parse raw = None /\ fallback <> raw
                 /\ JSON_parse fallback = Some v))
     | (Rejected e, s') =>
         JSON_parse raw = None
         /\ (fallback = raw \/ JSON_parse fallback = None)
         /\ e = newError (context ++ js " returned invalid JSON")
         /\ lastAnalysisPrompt s' = lastAnalysisPrompt s
         /\ exists earlier,
              events s'
              = events s ++ earlier
                  ++ [ConsoleError (context ++ js " raw response")
                        (LogString raw)]
     | (Pending, _) => False
     end.
Proof.
  intros fallback. split.
  - apply extractJsonFromText_choice.
  - apply parseJsonContent_cases.
Qed.

(** The parser examples of the specification (P4), with the JSON
    reader of this development. *)
Example parser_reads_fenced_block :
  fst (parseJsonContent (parser := Json.json_parse) Scenario.fencedResponse (js "ctx")
         Scenario.idle)
  = Resolved (Json.JObject [(js "summary", Json.JString (js "x"));
                            (js "keyMoments", Json.JArray [])]).
Proof. vm_compute. reflexivity. Qed.

Example parser_reads_braced_text :
  fst (parseJsonContent (parser := Json.json_parse) Scenario.proseResponse (js "ctx")
         Scenario.idle)
  = Resolved (Json.JObject [(js "a", Json.JNumber (js "1"))]).
Proof. vm_compute. reflexivity. Qed.

Example parser_rejects_prose :
  fst (parseJsonContent (parser := Json.json_parse) Scenario.notJson (js "ctx")
         Scenario.idle)
  = Rejected (newError (js "ctx returned invalid JSON")).
Proof. vm_compute. reflexivity. Qed.

(** ** Credentials are checked first *)

Lemma ensureCredentials_blank c s :
  trim (key c) = [] ->
  ensureCredentials (Some c) s
  = (Rejected (newError (js "API Key not configured")), s).
Proof. unfold ensureCredentials. intros ->. reflexivity. Qed.

(** C8. With credentials whose key is empty or only white space, each
    of the four provider operations rejects with the error
    [API Key not configured] and leaves the module as it was: no chat
    model has been invoked and no prompt has been recorded. The outcome
    does not depend on the provider. *)
Theorem blank_key_is_rejected
  (respond : ChatModel -> Prompt -> Outcome jsstring)
  {parseAnswer : JsonParse RawAnswer} {parseAnalysis : JsonParse RawAnalysis}
  {parseValidation : JsonParse ValidationResult}
  (c : ApiCredentials) (transcript userQuery : jsstring)
  (result : AnalysisResult) (targetLanguage : option LanguageOption)
  (s : Service) :
  trim (key c) = [] ->
  let rejected {A} : Outcome A * Service :=
    (Rejected (newError (js "API Key not configured")), s) in
  answerUserQuestion respond transcript userQuery (Some c) targetLanguage s
    = rejected
  /\ analyzeVideo respond transcript (Some c) targetLanguage s = rejected
  /\ improveResult respond result transcript (Some c) targetLanguage s = rejected
  /\ validateProviderCredentials respond (Some c) s = rejected.
Proof.
  intros Hblank rejected. subst rejected.
  pose proof (ensureCredentials_blank c s Hblank) as E.
  unfold answerUserQuestion, analyzeVideo, improveResult,
    validateProviderCredentials.
  repeat split; apply bind_rejected; exact E.
Qed.

Lemma blank_key_is_rejected_witness :
  trim (key Scenario.blankCredentials) = []
  /\ analyzeVideo Scenario.validating (parseAnalysis := Decode.parseRawAnalysis)
       (js "transcript") (Some Scenario.blankCredentials) None Scenario.idle
     = (Rejected (newError (js "API Key not configured")), Scenario.idle).
Proof.
  split; [reflexivity|].
  exact (proj1 (proj2
           (blank_key_is_rejected Scenario.validating
              (parseAnswer := Decode.parseRawAnswer)
              (parseAnalysis := Decode.parseRawAnalysis)
              (parseValidation := Decode.parseValidationResult)
              Scenario.blankCredentials (js "transcript") (js "why?")
              Scenario.preliminary None Scenario.idle eq_refl))).
Defined.

(** ** The retry wrapper *)

Lemma attempts_app l l' : attempts (l ++ l') = attempts l ++ attempts l'.
Proof. unfold attempts. apply omap_app. Qed.

Lemma quiet_callService {A} (m : M A) : quiet (callService m).
Proof.
  intros s. unfold callService. destruct (m (service s)). reflexivity.
Qed.

Section RetryFacts.

Variable toLowerCase : jsstring -> jsstring.
Context {T : Type}.
Variable operation : nat -> P T.
Variable timeoutMs : N.
Variable maxAttempts : nat.
Variable operationName : jsstring.
Variable onRetry : option (nat -> JsError -> P unit).

Hypothesis operation_quiet : forall k, quiet (operation k).
Hypothesis onRetry_returns : returnsNormally onRetry.

Let attempt (k : nat) : P T :=
  withTimeout (do _ <- uiEvent (Called operationName k); operation k)
    timeoutMs operationName.


Let loop := retryFrom toLowerCase operation timeoutMs maxAttempts
              operationName onRetry.

Lemma attempt_settles k s : fst (attempt k s) <> Pending.
Proof.
  unfold attempt, withTimeout.
  destruct (bind _ _ s) as [[v|e|] s1]; simpl; discriminate.
Qed.

Lemma attempt_records k s :
  attempts (ui (snd (attempt k s))) = attempts (ui s) ++ [k].
Proof.
  unfold attempt, withTimeout, bind, uiEvent.
  set (s0 := mkPanel (service s) (ui s ++ [Called operationName k])).
  pose proof (operation_quiet k s0) as Hq.
  destruct (operation k s0) as [[v|e|] s1]; simpl in *;
    rewrite Hq; unfold s0; simpl; rewrite attempts_app; reflexivity.
Qed.


Lemma loop_step remaining k last s :
  loop (S remaining) k last s
  = match attempt k s with
    | (Rejected error, s1) =>
        if isRetryable toLowerCase error && (k <? maxAttempts)%nat then
          (do _ <- uiEvent (ConsoleWarn
                              (js "Attempt " ++ decimal (N.of_nat k)
                                 ++ js "/" ++ decimal (N.of_nat maxAttempts)
                                 ++ js " failed for " ++ operationName ++ js ":")
                              error);
           do _ <- match onRetry with
                   | Some callback => callback k error
                   | None => ret tt
                   end;
           do _ <- uiEvent (SetTimeout 500);
           loop remaining (S k) (Some error)) s1
        else (Rejected error, s1)
    | settled => settled
    end.
Proof.
  unfold loop. simpl. unfold tryCatch. fold (attempt k).
  destruct (attempt k s) as [[v|e|] s1]; try reflexivity.
  destruct (isRetryable toLowerCase e && (k <? maxAttempts)%nat); reflexivity.
Qed.

(** Between two attempts: the warning, the callback and the delay. *)
Lemma between_attempts {B} label error k (next : P B) s :
  exists s2,
    (do _ <- uiEvent (ConsoleWarn label error);
     do _ <- match onRetry with
             | Some callback => callback k error
             | None => ret tt
             end;
     do _ <- uiEvent (SetTimeout 500);
     next) s = next s2
    /\ attempts (ui s2) = attempts (ui s).
Proof.
  unfold bind at 1. unfold uiEvent at 1.
  set (s0 := mkPanel (service s) (ui s ++ [ConsoleWarn label error])).
  assert (H0 : attempts (ui s0) = attempts (ui s)).
  { unfold s0. simpl. rewrite attempts_app. simpl. apply app_nil_r. }
  destruct onRetry as [callback|] eqn:Ecb.
  - destruct (onRetry_returns callback eq_refl k error s0) as [Hr Hq].
    specialize (Hq s0). unfold bind at 1.
    destruct (callback k error s0) as [o s1]. simpl in Hr, Hq. subst o.
    unfold bind, uiEvent. eexists. split; [reflexivity|]. simpl.
    rewrite attempts_app. simpl. rewrite app_nil_r.
    rewrite Hq. exact H0.
  - unfold bind, ret, uiEvent. eexists. split; [reflexivity|]. simpl.
    rewrite attempts_app. simpl. rewrite app_nil_r. exact H0.
Qed.

Lemma loop_retry remaining k error s s1 :
  attempt k s = (Rejected error, s1) ->
  isRetryable toLowerCase error && (k <? maxAttempts)%nat = true ->
  exists s2,
    (forall last,
       loop (S remaining) k last s = loop remaining (S k) (Some error) s2)
    /\ attempts (ui s2) = attempts (ui s) ++ [k].
Proof.
  intros Ea Er.
  destruct (between_attempts
              (js "Attempt " ++ decimal (N.of_nat k) ++ js "/"
                 ++ decimal (N.of_nat maxAttempts) ++ js " failed for "
                 ++ operationName ++ js ":") error k
              (loop remaining (S k) (Some error)) s1) as (s2 & E2 & H2).
  exists s2. split.
  - intros last. rewrite loop_step, Ea, Er. exact E2.
  - rewrite H2. pose proof (attempt_records k s) as Hr.
    rewrite Ea in Hr. exact Hr.
Qed.

Lemma loop_stop remaining k last error s s1 :
  attempt k s = (Rejected error, s1) ->
  isRetryable toLowerCase error && (k <? maxAttempts)%nat = false ->
  loop (S remaining) k last s = (Rejected error, s1).
Proof. intros Ea Er. rewrite loop_step, Ea, Er. reflexivity. Qed.

(** The loop never calls the operation more often than it has
    iterations left, and it settles. *)
Lemma loop_bound remaining : forall k last s,
  fst (loop remaining k last s) <> Pending
  /\ exists n, (n <= remaining)%nat
       /\ attempts (ui (snd (loop remaining k last s)))
          = attempts (ui s) ++ seq k n.
Proof.
  induction remaining as [|remaining IH]; intros k last s.
  - unfold loop. simpl. split; [discriminate|].
    exists O. split; [lia|]. simpl. rewrite app_nil_r. reflexivity.
  - pose proof (attempt_settles k s) as Hs.
    pose proof (attempt_records k s) as Hr.
    destruct (attempt k s) as [[v|error|] s1] eqn:Ea; simpl in Hs, Hr.
    + rewrite loop_step, Ea. simpl. split; [discriminate|].
      exists 1%nat. split; [lia|]. exact Hr.
    + destruct (isRetryable toLowerCase error && (k <? maxAttempts)%nat) eqn:Er.
      * destruct (loop_retry remaining k error s s1 Ea Er) as (s2 & E2 & H2).
        rewrite E2.
        destruct (IH (S k) (Some error) s2) as (Hp & n & Hn & Hat).
        split; [exact Hp|]. exists (S n). split; [lia|].
        rewrite Hat, H2, <- app_assoc. reflexivity.
      * rewrite (loop_stop remaining k last error s s1 Ea Er). simpl.
        split; [discriminate|]. exists 1%nat. split; [lia|]. exact Hr.
    + contradiction.
Qed.


End RetryFacts.

Lemma handleRetry_returns : returnsNormally (Some handleRetry).
Proof.
  intros callback [= <-] k e s. split; [reflexivity|].
  intros s0. unfold handleRetry, bind, uiEvent. simpl.
  rewrite !attempts_app. simpl. rewrite !app_nil_r. reflexivity.
Qed.



(** With a provider that never answers the analysis call, the handler
    calls it three times and reports the time-out. *)
Example summarize_reports_timeout :
  let updates :=
    ui (snd (handleSummarize Decode.asciiToLowerCase id
               (parseAnswer := Decode.parseRawAnswer)
               (parseAnalysis := Decode.parseRawAnalysis)
               (parseValidation := Decode.parseValidationResult)
               (Scenario.request "") Scenario.analysisHangs Scenario.panel)) in
  attempts updates = [1; 2; 3]%nat
  /\ In (SetError (Some (js "errors.timeout"))) updates
  /\ shownResults updates = [].
Proof.
  intros updates. split; [vm_compute; reflexivity|].
  split; [|vm_compute; reflexivity].
  vm_compute. repeat first [left; reflexivity | right].
Qed.

(** ** What a task adds to the record of the side panel *)

Lemma appendsOnly_ret Q {A} (a : A) : appendsOnly Q (ret a).
Proof. intros s. exists []. simpl. rewrite app_nil_r. auto. Qed.

Lemma appendsOnly_throw Q {A} e : appendsOnly Q (throw (A := A) e).
Proof. intros s. exists []. simpl. rewrite app_nil_r. auto. Qed.

Lemma appendsOnly_uiEvent (Q : UiEvent -> Prop) e :
  Q e -> appendsOnly Q (uiEvent e).
Proof. intros He s. exists [e]. simpl. auto. Qed.

Lemma appendsOnly_callService Q {A} (m : M A) : appendsOnly Q (callService m).
Proof.
  intros s. exists []. unfold callService. destruct (m (service s)).
  simpl. rewrite app_nil_r. auto.
Qed.

Lemma appendsOnly_bind Q {A B} (m : P A) (k : A -> P B) :
  appendsOnly Q m -> (forall a, appendsOnly Q (k a)) -> appendsOnly Q (bind m k).
Proof.
  intros Hm Hk s. unfold bind. destruct (Hm s) as (l & El & Hl).
  destruct (m s) as [[a|e|] s1]; simpl in El; eauto.
  destruct (Hk a s1) as (l' & El' & Hl').
  exists (l ++ l'). rewrite El', El, app_assoc. split; [reflexivity|].
  apply Forall_app; auto.
Qed.

Lemma appendsOnly_tryCatch Q {A} (m : P A) (handler : JsError -> P A) :
  appendsOnly Q m -> (forall e, appendsOnly Q (handler e)) ->
  appendsOnly Q (tryCatch m handler).
Proof.
  intros Hm Hk s. unfold tryCatch. destruct (Hm s) as (l & El & Hl).
  destruct (m s) as [[a|e|] s1]; simpl in El; eauto.
  destruct (Hk e s1) as (l' & El' & Hl').
  exists (l ++ l'). rewrite El', El, app_assoc. split; [reflexivity|].
  apply Forall_app; auto.
Qed.

Lemma appendsOnly_withTimeout Q {A} (m : P A) timeoutMs operationName :
  appendsOnly Q m -> appendsOnly Q (withTimeout m timeoutMs operationName).
Proof.
  intros Hm s. unfold withTimeout. destruct (Hm s) as (l & El & Hl).
  destruct (m s) as [[a|e|] s1]; simpl in *; eauto.
Qed.

Lemma appendsOnly_awaitAll Q {A B} first (m1 : P A) (m2 : P B) :
  appendsOnly Q m1 -> appendsOnly Q m2 -> appendsOnly Q (awaitAll first m1 m2).
Proof.
  intros H1 H2 s. unfold awaitAll. destruct (H1 s) as (l & El & Hl).
  destruct (m1 s) as [o1 s1]. simpl in El.
  destruct (H2 s1) as (l' & El' & Hl').
  destruct (m2 s1) as [o2 s2]. simpl in *.
  exists (l ++ l'). rewrite El', El, app_assoc. split; [reflexivity|].
  apply Forall_app; auto.
Qed.

Lemma appendsOnly_retry Q {T} toLowerCase (operation : nat -> P T) timeoutMs
  maxAttempts operationName onRetry :
  (forall k, appendsOnly Q (operation k)) ->
  (forall callback k e, onRetry = Some callback -> appendsOnly Q (callback k e)) ->
  (forall k, Q (Called operationName k)) ->
  (forall label e, Q (ConsoleWarn label e)) ->
  (forall ms, Q (SetTimeout ms)) ->
  appendsOnly Q
    (withTimeoutAndRetry toLowerCase operation timeoutMs maxAttempts
       operationName onRetry).
Proof.
  intros Hop Hcb Hcalled Hwarn Hdelay. unfold withTimeoutAndRetry.
  generalize 1%nat as k. generalize (@None JsError) as last.
  generalize maxAttempts at 2 as remaining.
  induction remaining as [|remaining IH]; intros last k; simpl.
  - apply appendsOnly_throw.
  - apply appendsOnly_tryCatch.
    + apply appendsOnly_withTimeout, appendsOnly_bind.
      * apply appendsOnly_uiEvent, Hcalled.
      * intros _. apply Hop.
    + intros e.
      destruct (isRetryable toLowerCase e && (k <? maxAttempts)%nat);
        [|apply appendsOnly_throw].
      apply appendsOnly_bind; [apply appendsOnly_uiEvent, Hwarn|]. intros _.
      apply appendsOnly_bind.
      { destruct onRetry as [callback|]; [|apply appendsOnly_ret].
        apply (Hcb callback). reflexivity. }
      intros _.
      apply appendsOnly_bind; [apply appendsOnly_uiEvent, Hdelay|]. intros _.
      apply IH.
Qed.

Lemma resultUpdates_app l l' :
  resultUpdates (l ++ l') = resultUpdates l ++ resultUpdates l'.
Proof. unfold resultUpdates. apply omap_app. Qed.

Lemma keepsResult_updates l : Forall keepsResult l -> resultUpdates l = [].
Proof.
  induction 1 as [|e l He _ IH]; [reflexivity|].
  destruct e; simpl in *; try exact IH. contradiction.
Qed.

Lemma shownResults_updates l : shownResults l = omap id (resultUpdates l).
Proof.
  induction l as [|e l IH]; [reflexivity|].
  destruct e; try exact IH.
  simpl. destruct r; simpl; rewrite IH; reflexivity.
Qed.

Lemma visibleResult_updates l : forall before,
  visibleResult before l
  = List.fold_left (fun _ r => r) (resultUpdates l) before.
Proof.
  induction l as [|e l IH]; intros before; [reflexivity|].
  destruct e; apply IH.
Qed.

(** ** The service as the handler calls it *)

Lemma retry_resolved {T} toLowerCase (operation : nat -> P T) timeoutMs
  maxAttempts operationName onRetry s v s' :
  withTimeoutAndRetry toLowerCase operation timeoutMs maxAttempts
    operationName onRetry s = (Resolved v, s') ->
  exists k s0, fst (operation k s0) = Resolved v.
Proof.
  unfold withTimeoutAndRetry.
  generalize 1%nat as k. generalize (@None JsError) as last. revert s.
  generalize maxAttempts at 2 as remaining.
  induction remaining as [|remaining IH]; intros s last k; simpl.
  - destruct last; discriminate.
  - unfold tryCatch, withTimeout.
    destruct (bind (uiEvent (Called operationName k)) (fun _ => operation k) s)
      as [[a|e|] s1] eqn:E.
    + intros [= -> ->]. unfold bind, uiEvent in E.
      exists k. eexists. rewrite E. reflexivity.
    + destruct (isRetryable toLowerCase e && (k <? maxAttempts)%nat);
        [|discriminate].
      intros Hr. repeat (apply bind_resolved in Hr; destruct Hr as (_ & ? & _ & Hr)).
      eapply IH. exact Hr.
    + destruct (isRetryable toLowerCase _ && (k <? maxAttempts)%nat);
        [|discriminate].
      intros Hr. repeat (apply bind_resolved in Hr; destruct Hr as (_ & ? & _ & Hr)).
      eapply IH. exact Hr.
Qed.

Lemma analyzeVideo_sanitized respond {parseAnalysis : JsonParse RawAnalysis}
  transcript credentials targetLanguage s r :
  fst (analyzeVideo respond transcript credentials targetLanguage s) = Resolved r ->
  customAnswer r = None
  /\ exists u, keyMoments r = sanitizeKeyMoments u.
Proof.
  unfold analyzeVideo. intros E.
  destruct (bind _ _ s) as [o s'] eqn:Eb. simpl in E. subst o.
  apply bind_resolved in Eb. destruct Eb as ([] & s1 & _ & Eb).
  destruct credentials as [c|]; [|discriminate].
  destruct (sanitizeLanguage targetLanguage) as [languageName languageCode].
  apply bind_resolved in Eb. destruct Eb as (llm & s2 & _ & Eb).
  apply bind_resolved in Eb. destruct Eb as ([] & s3 & _ & Eb).
  apply bind_resolved in Eb. destruct Eb as (response & s4 & _ & Eb).
  inversion Eb; subst. simpl. eauto.
Qed.

Ltac keeps_step :=
  lazymatch goal with
  | |- appendsOnly _ (bind _ _) => apply appendsOnly_bind; [|intros ?]
  | |- appendsOnly _ (uiEvent _) => apply appendsOnly_uiEvent; exact I
  | |- appendsOnly _ (ret _) => apply appendsOnly_ret
  | |- appendsOnly _ (throw _) => apply appendsOnly_throw
  | |- appendsOnly _ (callService _) => apply appendsOnly_callService
  | |- appendsOnly _ (if ?b then _ else _) => destruct b
  | |- appendsOnly _ (match ?x with _ => _ end) => destruct x
  end.

Ltac keeps_result := repeat keeps_step.

Section HandlerFacts.

Variable toLowerCase : jsstring -> jsstring.
Variable t : jsstring -> jsstring.
Context {parseAnswer : JsonParse RawAnswer}
        {parseAnalysis : JsonParse RawAnalysis}
        {parseValidation : JsonParse ValidationResult}.
Variable input : SummarizeInput.
Variable env : SummarizeEnv.

Lemma handleLanguageAwareError_keeps message details communicationError :
  appendsOnly keepsResult
    (handleLanguageAwareError message details communicationError).
Proof. unfold handleLanguageAwareError. keeps_result. Qed.

Lemma clearManualRetryTimer_keeps :
  appendsOnly keepsResult clearManualRetryTimer.
Proof. unfold clearManualRetryTimer. keeps_result. Qed.

Lemma handleRetry_keeps k e : appendsOnly keepsResult (handleRetry k e).
Proof. unfold handleRetry. keeps_result. Qed.

Ltac keeps_more :=
  repeat first
    [ lazymatch goal with
      | |- appendsOnly _ clearManualRetryTimer =>
          apply clearManualRetryTimer_keeps
      | |- appendsOnly _ (handleLanguageAwareError _ _ _) =>
          apply handleLanguageAwareError_keeps
      end
    | keeps_step ].

Lemma saveToCache_keeps r q : appendsOnly keepsResult (saveToCache input r q).
Proof.
  unfold saveToCache. keeps_result.
Qed.

Lemma saveToCache_returns r q s : fst (saveToCache input r q s) = Resolved tt.
Proof.
  unfold saveToCache.
  destruct (in_videoId input), (in_currentVideoUrl input); try reflexivity.
  destruct (truthy _ && truthy _); reflexivity.
Qed.

Lemma handleFailure_keeps err :
  appendsOnly keepsResult (handleFailure toLowerCase t env err).
Proof.
  unfold handleFailure.
  keeps_more.
Qed.

Lemma wrapped_keeps {A} (m : nat -> M A) operationName :
  appendsOnly keepsResult
    (withTimeoutAndRetry toLowerCase (fun attempt => callService (m attempt))
       SUMMARY_TIMEOUT_MS MAX_RETRY_ATTEMPTS operationName (Some handleRetry)).
Proof.
  apply appendsOnly_retry; try (intros; exact I).
  - intros k. apply appendsOnly_callService.
  - intros callback k e [= <-]. apply handleRetry_keeps.
Qed.

Lemma generate_keeps q :
  appendsOnly keepsResult (generate toLowerCase input env q).
Proof.
  unfold generate. destruct (truthy q); [|apply wrapped_keeps].
  apply appendsOnly_bind.
  - apply appendsOnly_awaitAll; apply wrapped_keeps.
  - intros [a v]. apply appendsOnly_ret.
Qed.

(** What [generate] returns holds the key moments the analysis call
    returned, which are sanitized; with a question it also holds the
    answer. *)
Lemma generate_preliminary q s r s' :
  generate toLowerCase input env q s = (Resolved r, s') ->
  (exists u, keyMoments r = sanitizeKeyMoments u)
  /\ (truthy q = true -> customAnswer r <> None).
Proof.
  unfold generate. destruct (truthy q).
  - intros E. apply bind_resolved in E. destruct E as ([a v] & s1 & E & Er).
    inversion Er; subst; clear Er. simpl.
    split; [|discriminate].
    unfold awaitAll in E.
    destruct (withTimeoutAndRetry _ _ _ _ _ _ s) as [o1 sa].
    destruct (withTimeoutAndRetry _ _ _ _ _ _ sa) as [o2 sb] eqn:E2.
    destruct o1 as [a'|e|], o2 as [v'|e'|]; try discriminate.
    inversion E; subst.
    apply retry_resolved in E2. destruct E2 as (k & s0 & E2).
    unfold callService in E2.
    destruct (analyzeVideo _ _ _ _ (service s0)) as [o sv] eqn:Ev.
    simpl in E2. subst o.
    pose proof (analyzeVideo_sanitized (respondAnalysis env k)
                  (in_transcriptText input) (in_credentials input)
                  (in_selectedLanguageOption input) (service s0) v) as Hs.
    rewrite Ev in Hs. apply Hs. reflexivity.
  - intros E. split; [|discriminate].
    apply retry_resolved in E. destruct E as (k & s0 & E).
    unfold callService in E.
    destruct (analyzeVideo _ _ _ _ (service s0)) as [o sv] eqn:Ev.
    simpl in E. subst o.
    pose proof (analyzeVideo_sanitized (respondAnalysis env k)
                  (in_transcriptText input) (in_credentials input)
                  (in_selectedLanguageOption input) (service s0) r) as Hs.
    rewrite Ev in Hs. apply Hs. reflexivity.
Qed.

Lemma saveToCache_run r q s :
  exists l,
    saveToCache input r q s = (Resolved tt, mkPanel (service s) (ui s ++ l))
    /\ Forall keepsResult l.
Proof.
  unfold saveToCache.
  destruct (in_videoId input), (in_currentVideoUrl input);
    try (exists []; rewrite app_nil_r; destruct s; split; [reflexivity|constructor]).
  destruct (truthy _ && truthy _).
  - eexists [_]. split; [reflexivity|]. repeat constructor.
  - exists []. rewrite app_nil_r. destruct s. split; [reflexivity|constructor].
Qed.

(** The second phase shows at most one more result, the one
    [improveResult] resolved with, and never fails. *)
Lemma improve_updates initial q s :
  exists l,
    ui (snd (improve input env initial q s)) = ui s ++ l
    /\ (forall e, fst (improve input env initial q s) <> Rejected e)
    /\ (resultUpdates l = []
        \/ exists s2 improved s3,
             improveResult (respondImprove env) initial (in_transcriptText input)
               (in_credentials input) (in_selectedLanguageOption input) s2
             = (Resolved improved, s3)
             /\ resultUpdates l = [Some improved]).
Proof.
  destruct (improve input env initial q s) as [o s'] eqn:Ei. simpl.
  unfold improve, bind in Ei. unfold uiEvent at 1 in Ei.
  set (s0 := mkPanel (service s) (ui s ++ [SetIsImproving true])) in Ei.
  unfold callService in Ei.
  destruct (improveResult _ _ _ _ _ (service s0)) as [[improved|e|] svc] eqn:E.
  - destruct (cancelledAfterImprove env).
    + inversion Ei; subst; clear Ei.
      eexists [_; _]. simpl. rewrite <- app_assoc.
      split; [reflexivity|]. split; [discriminate|]. left. reflexivity.
    + unfold uiEvent at 1 in Ei.
      destruct (saveToCache_run improved q
                  (mkPanel svc (ui s0 ++ [SetResult (Some improved)])))
        as (l & El & Hl).
      simpl in El, Ei. rewrite El in Ei. inversion Ei; subst; clear Ei.
      exists ([SetIsImproving true; SetResult (Some improved)] ++ l
                ++ [SetIsImproving false]).
      split; [simpl; rewrite <- !app_assoc; reflexivity|].
      split; [discriminate|].
      right. exists (service s0), improved, svc. split; [exact E|].
      rewrite !resultUpdates_app, (keepsResult_updates l Hl). reflexivity.
  - destruct (cancelledAfterImprove env).
    + inversion Ei; subst; clear Ei.
      eexists [_; _]. simpl. rewrite <- app_assoc.
      split; [reflexivity|]. split; [discriminate|]. left. reflexivity.
    + unfold uiEvent at 1 in Ei.
      destruct (saveToCache_run initial q
                  (mkPanel svc
                     (ui s0
                        ++ [ConsoleWarn
                              (js "Improvement failed, keeping initial result:")
                              e]))) as (l & El & Hl).
      simpl in El, Ei. rewrite El in Ei. inversion Ei; subst; clear Ei.
      exists ([SetIsImproving true;
               ConsoleWarn (js "Improvement failed, keeping initial result:") e]
                ++ l ++ [SetIsImproving false]).
      split; [simpl; rewrite <- !app_assoc; reflexivity|].
      split; [discriminate|].
      left. rewrite !resultUpdates_app, (keepsResult_updates l Hl). reflexivity.
  - inversion Ei; subst; clear Ei.
    eexists [_]. simpl. split; [reflexivity|]. split; [discriminate|].
    left. reflexivity.
Qed.

Lemma bind_uiEvent {B} e (k : unit -> P B) s :
  bind (uiEvent e) k s = k tt (mkPanel (service s) (ui s ++ [e])).
Proof. reflexivity. Qed.

Lemma clearManualRetryTimer_run s :
  clearManualRetryTimer s
  = (Resolved tt,
     mkPanel (service s)
       (ui s ++ [ClearManualRetryTimer; SetCanManualRetry false])).
Proof.
  unfold clearManualRetryTimer. rewrite bind_uiEvent. unfold uiEvent. simpl.
  rewrite <- app_assoc. reflexivity.
Qed.

(** The [try] block shows nothing, or the result of the first phase
    and then at most the result of the second. *)
Lemma summarize_updates s :
  exists l,
    ui (snd (summarize toLowerCase t input env s)) = ui s ++ l
    /\ (resultUpdates l = []
        \/ (forall e, fst (summarize toLowerCase t input env s) <> Rejected e)
           /\ exists s0 initial s1,
                generate toLowerCase input env (trim (in_userQuery input)) s0
                = (Resolved initial, s1)
                /\ (resultUpdates l = [Some initial]
                    \/ exists s2 improved s3,
                         improveResult (respondImprove env) initial
                           (in_transcriptText input) (in_credentials input)
                           (in_selectedLanguageOption input) s2
                         = (Resolved improved, s3)
                         /\ resultUpdates l = [Some initial; Some improved])).
Proof.
  destruct (summarize toLowerCase t input env s) as [o s'] eqn:Es. simpl.
  unfold summarize in Es.
  destruct (negb _ || _).
  { inversion Es; subst. exists []. rewrite app_nil_r. auto. }
  rewrite !bind_uiEvent in Es.
  match type of Es with
  | bind _ _ ?st = _ => set (s0 := st) in Es
  end.
  destruct (generate_keeps (trim (in_userQuery input)) s0) as (lg & Elg & Hlg).
  unfold bind at 1 in Es.
  destruct (generate toLowerCase input env (trim (in_userQuery input)) s0)
    as [[initial|e|] sg] eqn:Eg; simpl in Elg.
  - rewrite bind_uiEvent in Es.
    destruct (cancelledAfterGeneration env).
    + rewrite clearManualRetryTimer_run in Es. inversion Es; subst; clear Es.
      simpl. rewrite Elg. unfold s0. simpl.
      exists ([SetCurrentTranscript (in_transcriptText input);
               SetTranscriptLength (length (in_transcriptText input));
               SetRetryAttempt 0] ++ lg
              ++ [SetRetryAttempt 0; ClearManualRetryTimer;
                  SetCanManualRetry false]).
      split; [rewrite <- !app_assoc; reflexivity|]. left.
      rewrite !resultUpdates_app, (keepsResult_updates lg Hlg). reflexivity.
    + rewrite !bind_uiEvent in Es. unfold bind at 1 in Es.
      rewrite clearManualRetryTimer_run in Es.
      match type of Es with
      | improve _ _ _ _ ?st = _ => set (si := st) in Es
      end.
      destruct (improve_updates initial (trim (in_userQuery input)) si)
        as (li & Eli & Hnr & Hli).
      rewrite Es in Eli, Hnr. simpl in Eli, Hnr.
      exists ([SetCurrentTranscript (in_transcriptText input);
               SetTranscriptLength (length (in_transcriptText input));
               SetRetryAttempt 0] ++ lg
              ++ [SetRetryAttempt 0; SetResult (Some initial); SetStatus SUCCESS;
                  ClearManualRetryTimer; SetCanManualRetry false] ++ li).
      split.
      { rewrite Eli. unfold si. simpl. rewrite Elg. unfold s0. simpl.
        rewrite <- !app_assoc. reflexivity. }
      right. split; [exact Hnr|].
      exists s0, initial, sg. split; [exact Eg|].
      rewrite !resultUpdates_app, (keepsResult_updates lg Hlg). simpl.
      destruct Hli as [-> | (s2 & improved & s3 & Ei & ->)]; [left; reflexivity|].
      right. exists s2, improved, s3. split; [exact Ei | reflexivity].
  - inversion Es; subst; clear Es. simpl. rewrite Elg. unfold s0. simpl.
    exists ([SetCurrentTranscript (in_transcriptText input);
             SetTranscriptLength (length (in_transcriptText input));
             SetRetryAttempt 0] ++ lg).
    split; [rewrite <- !app_assoc; reflexivity|]. left.
    rewrite !resultUpdates_app, (keepsResult_updates lg Hlg). reflexivity.
  - inversion Es; subst; clear Es. simpl. rewrite Elg. unfold s0. simpl.
    exists ([SetCurrentTranscript (in_transcriptText input);
             SetTranscriptLength (length (in_transcriptText input));
             SetRetryAttempt 0] ++ lg).
    split; [rewrite <- !app_assoc; reflexivity|]. left.
    rewrite !resultUpdates_app, (keepsResult_updates lg Hlg). reflexivity.
Qed.

(** The handler shows nothing; or clears the result and shows
    nothing; or clears it and shows the result of the first phase and
    then at most the result of the second. *)
Lemma handleSummarize_updates s :
  exists added,
    ui (snd (handleSummarize toLowerCase t input env s)) = ui s ++ added
    /\ (resultUpdates added = []
        \/ resultUpdates added = [None]
        \/ exists s0 initial s1,
             generate toLowerCase input env (trim (in_userQuery input)) s0
             = (Resolved initial, s1)
             /\ (resultUpdates added = [None; Some initial]
                 \/ exists s2 improved s3,
                      improveResult (respondImprove env) initial
                        (in_transcriptText input) (in_credentials input)
                        (in_selectedLanguageOption input) s2
                      = (Resolved improved, s3)
                      /\ resultUpdates added
                         = [None; Some initial; Some improved])).
Proof.
  unfold handleSummarize.
  assert (Hmissing : forall m d c,
            exists added,
              ui (snd (handleLanguageAwareError m d c s)) = ui s ++ added
              /\ resultUpdates added = []).
  { intros m d c.
    destruct (handleLanguageAwareError_keeps m d c s) as (l & El & Hl).
    exists l. split; [exact El | apply keepsResult_updates, Hl]. }
  destruct (in_credentials input) as [credentials|] eqn:Ecred.
  2:{ destruct (Hmissing (t (js "errors.apiKeyMissing"))
                  (Some (js "API Key is not configured")) false)
        as (l & El & Hl). exists l. auto. }
  destruct (negb (truthy (key credentials))).
  { destruct (Hmissing (t (js "errors.apiKeyMissing"))
                (Some (js "API Key is not configured")) false)
      as (l & El & Hl). exists l. auto. }
  rewrite <- Ecred.
  rewrite !bind_uiEvent. unfold bind at 1. rewrite clearManualRetryTimer_run.
  rewrite !bind_uiEvent.
  match goal with
  | |- context [tryCatch _ _ ?st] => set (sp := st)
  end.
  assert (Esp : ui sp
                = ui s ++ [CancelActiveRequest; SetCanManualRetry false;
                           ClearManualRetryTimer; SetCanManualRetry false;
                           ScheduleManualRetryTimer; SetStatus LOADING;
                           SetError None; SetResult None; SetIsFromCache false;
                           SetIsImproving false]).
  { unfold sp. simpl. rewrite <- !app_assoc. reflexivity. }
  destruct (summarize_updates sp) as (l & El & Hl).
  unfold tryCatch.
  destruct (summarize toLowerCase t input env sp) as [[[]|e|] s1] eqn:Es;
    cbn [snd fst] in El, Hl.
  - eexists. split; [cbn [snd]; rewrite El, Esp, <- app_assoc; reflexivity|].
    rewrite resultUpdates_app. simpl.
    destruct Hl as [-> | (_ & s0 & initial & sg & Eg & Hl)]; [auto|].
    right. right. exists s0, initial, sg. split; [exact Eg|].
    destruct Hl as [-> | (s2 & improved & s3 & Ei & ->)]; [auto|].
    right. exists s2, improved, s3. auto.
  - destruct Hl as [Hl | (Hnr & _)]; [|exfalso; eapply Hnr; reflexivity].
    destruct (handleFailure_keeps e s1) as (l' & El' & Hl').
    eexists. split; [rewrite El', El, Esp, <- !app_assoc; reflexivity|].
    rewrite !resultUpdates_app, Hl, (keepsResult_updates l' Hl'). auto.
  - eexists. split; [cbn [snd]; rewrite El, Esp, <- app_assoc; reflexivity|].
    rewrite resultUpdates_app. simpl.
    destruct Hl as [-> | (_ & s0 & initial & sg & Eg & Hl)]; [auto|].
    right. right. exists s0, initial, sg. split; [exact Eg|].
    destruct Hl as [-> | (s2 & improved & s3 & Ei & ->)]; [auto|].
    right. exists s2, improved, s3. auto.
Qed.

End HandlerFacts.

(** ** The improve phase fails open *)

(** The reasons for which the validation call fails: the provider call
    rejects, the response is empty, or no JSON can be read from it. *)
Lemma validation_failure_reasons
  (respond : ChatModel -> Prompt -> Outcome jsstring)
  {parseValidation : JsonParse ValidationResult} :
  (forall llm prompt,
     (exists e, respond llm prompt = Rejected e)
     \/ (exists response, respond llm prompt = Resolved response
          /\ (trim response = []
              \/ (JSON_parse (T := ValidationResult) (trim response) = None
                  /\ (extractJsonFromText (trim response) = trim response
                      \/ JSON_parse (T := ValidationResult)
                           (extractJsonFromText (trim response)) = None))))) ->
  validationFails respond.
Proof.
  intros Hr llm prompt s. unfold invokeModelForJson, invoke, bind, emit, await.
  destruct (Hr llm prompt) as [[e ->] | (response & -> & Hresp)]; [eauto|].
  destruct Hresp as [-> | (Hraw & Hfb)]; [eauto|].
  destruct (trim response) as [|c raw] eqn:Et; [eauto|].
  cbn [truthy negb].
  pose proof (parseJsonContent_cases (c :: raw) (js "validateResult")
                (mkService (lastAnalysisPrompt s)
                   (events s ++ [Invoked llm prompt]))) as Hp.
  destruct (parseJsonContent (c :: raw) (js "validateResult") _)
    as [[v|e|] s'] eqn:Ep; [|eauto|contradiction].
  destruct Hp as [_ [Hv | (_ & Hne & Hv)]]; [congruence|].
  destruct Hfb as [Hfb | Hfb]; [contradiction | congruence].
Qed.

Section FailOpen.

Variable respond : ChatModel -> Prompt -> Outcome jsstring.
Context {parseValidation : JsonParse ValidationResult}.
Hypothesis validation_fails : validationFails respond.

Lemma validateResult_fail_open llm result transcript originalPrompt
  languageName languageCode s :
  fst (validateResult respond llm result transcript originalPrompt
         languageName languageCode s)
  = Resolved (mkValidation true []).
Proof.
  unfold validateResult, tryCatch.
  destruct (validation_fails llm
              (ValidationPrompt result transcript originalPrompt languageName
                 languageCode) s) as (e & s' & ->).
  reflexivity.
Qed.

Lemma improveResult_fail_open result transcript credentials targetLanguage
  s r s' :
  improveResult respond result transcript credentials targetLanguage s
    = (Resolved r, s') ->
  r = setKeyMoments result (sanitizeKeyMoments (ofHighlights (keyMoments result))).
Proof.
  intros E. apply improveResult_inv in E.
  destruct E as (llm & tr & op & ln & lc & s1 & E).
  unfold validateAndFixResult in E. apply bind_resolved in E.
  destruct E as (validation & s2 & Ev & E).
  pose proof (validateResult_fail_open llm result tr op ln lc s1) as Hv.
  rewrite Ev in Hv. simpl in Hv. inversion Hv; subst. simpl in E.
  inversion E. reflexivity.
Qed.

End FailOpen.

Lemma sanitized_fixpoint r u :
  keyMoments r = sanitizeKeyMoments u ->
  setKeyMoments r (sanitizeKeyMoments (ofHighlights (keyMoments r))) = r.
Proof.
  intros E. destruct r as [a text km]. unfold setKeyMoments.
  cbn [keyMoments customAnswer summary] in *.
  subst km. rewrite sanitizeKeyMoments_idem. reflexivity.
Qed.

(** C5. When the validation call fails, [validateResult] returns
    [{isValid: true, issues: []}], and a summarize request shows no
    other result than its preliminary one: whatever is shown after the
    preliminary result equals it, and it is the visible result when the
    handler is done. *)
Theorem fail_open_improve (toLowerCase t : jsstring -> jsstring)
  {parseAnswer : JsonParse RawAnswer} {parseAnalysis : JsonParse RawAnalysis}
  {parseValidation : JsonParse ValidationResult}
  (input : SummarizeInput) (env : SummarizeEnv) :
  validationFails (respondImprove env) ->
  (forall llm result transcript originalPrompt languageName languageCode s,
     fst (validateResult (respondImprove env) llm result transcript
            originalPrompt languageName languageCode s)
     = Resolved (mkValidation true []))
  /\ (forall s,
        exists added,
          ui (snd (handleSummarize toLowerCase t input env s)) = ui s ++ added
          /\ forall before preliminary later,
               shownResults added = preliminary :: later ->
               Forall (eq preliminary) later
               /\ visibleResult before added = Some preliminary).
Proof.
  intros Hfails. split.
  { intros. apply validateResult_fail_open. exact Hfails. }
  intros s.
  destruct (handleSummarize_updates toLowerCase t input env s)
    as (added & Eadd & Hupd).
  exists added. split; [exact Eadd|].
  intros before preliminary later.
  rewrite shownResults_updates, visibleResult_updates.
  destruct Hupd as [-> | [-> | (s0 & initial & s1 & Eg & Hupd)]];
    try discriminate.
  destruct Hupd as [-> | (s2 & improved & s3 & Ei & ->)]; simpl.
  - intros [= <- <-]. auto.
  - intros [= <- <-].
    apply (improveResult_fail_open _ Hfails) in Ei.
    destruct (generate_preliminary toLowerCase input env _ _ _ _ Eg)
      as [[u Hu] _].
    rewrite (sanitized_fixpoint initial u Hu) in Ei. subst improved. auto.
Qed.

Lemma fail_open_improve_witness :
  validationFails (respondImprove Scenario.validationBroken)
    (parseValidation := Decode.parseValidationResult)
  /\ visibleResult None
       (ui (snd (handleSummarize Decode.asciiToLowerCase id
                   (parseAnswer := Decode.parseRawAnswer)
                   (parseAnalysis := Decode.parseRawAnalysis)
                   (parseValidation := Decode.parseValidationResult)
                   (Scenario.request "") Scenario.validationBroken
                   Scenario.panel)))
     = Some Scenario.preliminary.
Proof.
  assert (Hfails : validationFails (respondImprove Scenario.validationBroken)
                     (parseValidation := Decode.parseValidationResult)).
  { intros llm prompt s. do 2 eexists. lazy. reflexivity. }
  split; [exact Hfails|].
  destruct (proj2 (fail_open_improve Decode.asciiToLowerCase id
                     (parseAnswer := Decode.parseRawAnswer)
                     (parseAnalysis := Decode.parseRawAnalysis)
                     (Scenario.request "") Scenario.validationBroken Hfails)
              Scenario.panel) as (added & Eadd & Hshown).
  simpl ui at 2 in Eadd. simpl app in Eadd. rewrite Eadd.
  apply (Hshown None Scenario.preliminary [Scenario.preliminary]).
  rewrite <- Eadd. vm_compute. reflexivity.
Defined.

(** ** A question needs both calls *)

Lemma wrapped_settles toLowerCase {A} (m : nat -> M A) operationName s :
  fst (withTimeoutAndRetry toLowerCase (fun attempt => callService (m attempt))
         SUMMARY_TIMEOUT_MS MAX_RETRY_ATTEMPTS operationName (Some handleRetry) s)
  <> Pending.
Proof.
  apply (loop_bound toLowerCase (fun attempt => callService (m attempt))
           SUMMARY_TIMEOUT_MS MAX_RETRY_ATTEMPTS operationName (Some handleRetry)
           (fun _ => quiet_callService _) handleRetry_returns
           MAX_RETRY_ATTEMPTS 1%nat None s).
Qed.

(** C6. With a question, the first phase runs the answer call and the
    analysis call, both through the retry wrapper, and settles once
    both have: it resolves only when both resolved, with the answer as
    [customAnswer] and the summary and key moments of the analysis, and
    rejects with one of their errors otherwise. The first result the
    handler shows, if it shows any, is such a merged result. *)
Theorem question_needs_both_calls (toLowerCase t : jsstring -> jsstring)
  {parseAnswer : JsonParse RawAnswer} {parseAnalysis : JsonParse RawAnalysis}
  {parseValidation : JsonParse ValidationResult}
  (input : SummarizeInput) (env : SummarizeEnv) :
  let trimmedQuery := trim (in_userQuery input) in
  truthy trimmedQuery = true ->
  let answerCall :=
    withTimeoutAndRetry toLowerCase
      (fun attempt =>
         callService (answerUserQuestion (respondAnswer env attempt)
                        (in_transcriptText input) trimmedQuery
                        (in_credentials input) (in_selectedLanguageOption input)))
      SUMMARY_TIMEOUT_MS MAX_RETRY_ATTEMPTS (js "User question analysis")
      (Some handleRetry) in
  let analysisCall :=
    withTimeoutAndRetry toLowerCase
      (fun attempt =>
         callService (analyzeVideo (respondAnalysis env attempt)
                        (in_transcriptText input) (in_credentials input)
                        (in_selectedLanguageOption input)))
      SUMMARY_TIMEOUT_MS MAX_RETRY_ATTEMPTS (js "Video analysis")
      (Some handleRetry) in
  let merged a v :=
    mkAnalysisResult (Some a) (summary v) (keyMoments v) in
  (forall s o1 s1 o2 s2,
     answerCall s = (o1, s1) -> analysisCall s1 = (o2, s2) ->
     snd (generate toLowerCase input env trimmedQuery s) = s2
     /\ match fst (generate toLowerCase input env trimmedQuery s) with
        | Resolved r =>
            exists a v, o1 = Resolved a /\ o2 = Resolved v /\ r = merged a v
        | Rejected e => o1 = Rejected e \/ o2 = Rejected e
        | Pending => False
        end)
  /\ (forall s,
        exists added,
          ui (snd (handleSummarize toLowerCase t input env s)) = ui s ++ added
          /\ forall preliminary later,
               shownResults added = preliminary :: later ->
               exists s0 s1 s2 a v,
                 answerCall s0 = (Resolved a, s1)
                 /\ analysisCall s1 = (Resolved v, s2)
                 /\ preliminary = merged a v).
Proof.
  intros trimmedQuery Hq answerCall analysisCall merged.
  assert (Hgen : forall s o1 s1 o2 s2,
            answerCall s = (o1, s1) -> analysisCall s1 = (o2, s2) ->
            generate toLowerCase input env trimmedQuery s
            = (match promiseAll (answerRejectsFirst env) o1 o2 with
               | Resolved (a, v) => Resolved (merged a v)
               | Rejected e => Rejected e
               | Pending => Pending
               end, s2)).
  { intros s o1 s1 o2 s2 E1 E2. unfold generate. rewrite Hq.
    unfold bind, awaitAll. fold answerCall analysisCall. rewrite E1, E2.
    destruct (promiseAll _ o1 o2) as [[a v]| |]; reflexivity. }
  split.
  - intros s o1 s1 o2 s2 E1 E2. rewrite (Hgen s o1 s1 o2 s2 E1 E2). simpl.
    split; [reflexivity|].
    pose proof (wrapped_settles toLowerCase
                  (fun attempt =>
                     answerUserQuestion (respondAnswer env attempt)
                       (in_transcriptText input) trimmedQuery
                       (in_credentials input) (in_selectedLanguageOption input))
                  (js "User question analysis") s) as H1.
    pose proof (wrapped_settles toLowerCase
                  (fun attempt =>
                     analyzeVideo (respondAnalysis env attempt)
                       (in_transcriptText input) (in_credentials input)
                       (in_selectedLanguageOption input))
                  (js "Video analysis") s1) as H2.
    change (fst (answerCall s) <> Pending) in H1.
    change (fst (analysisCall s1) <> Pending) in H2.
    rewrite E1 in H1. rewrite E2 in H2. simpl in H1, H2.
    destruct o1 as [a|e|], o2 as [v|e'|]; simpl; try contradiction; eauto.
    destruct (answerRejectsFirst env); auto.
  - intros s.
    destruct (handleSummarize_updates toLowerCase t input env s)
      as (added & Eadd & Hupd).
    exists added. split; [exact Eadd|].
    intros preliminary later. rewrite shownResults_updates.
    assert (Hinit : forall s0 initial sg,
              generate toLowerCase input env trimmedQuery s0
              = (Resolved initial, sg) ->
              exists s0 s1 s2 a v,
                answerCall s0 = (Resolved a, s1)
                /\ analysisCall s1 = (Resolved v, s2)
                /\ initial = merged a v).
    { intros s0 initial sg Eg.
      destruct (answerCall s0) as [o1 s1] eqn:E1.
      destruct (analysisCall s1) as [o2 s2] eqn:E2.
      rewrite (Hgen s0 o1 s1 o2 s2 E1 E2) in Eg.
      destruct o1 as [a|e|], o2 as [v|e'|]; simpl in Eg; try discriminate.
      inversion Eg; subst. exists s0, s1, sg, a, v. auto. }
    destruct Hupd as [-> | [-> | (s0 & initial & s1 & Eg & Hupd)]];
      try discriminate.
    destruct Hupd as [-> | (s2 & improved & s3 & Ei & ->)]; simpl;
      intros [= <- <-]; eapply Hinit; exact Eg.
Qed.

Lemma question_needs_both_calls_witness :
  let merged :=
    mkAnalysisResult (Some Scenario.answer) (summary Scenario.preliminary)
      (keyMoments Scenario.preliminary) in
  truthy (trim (in_userQuery (Scenario.request "What is it about?"))) = true
  /\ shownResults
       (ui (snd (handleSummarize Decode.asciiToLowerCase id
                   (parseAnswer := Decode.parseRawAnswer)
                   (parseAnalysis := Decode.parseRawAnalysis)
                   (parseValidation := Decode.parseValidationResult)
                   (Scenario.request "What is it about?")
                   Scenario.validationBroken Scenario.panel)))
     = [merged; merged]
  /\ exists a v,
       merged = mkAnalysisResult (Some a) (summary v) (keyMoments v).
Proof.
  intros merged. split; [reflexivity|]. split; [vm_compute; reflexivity|].
  destruct (proj2 (question_needs_both_calls Decode.asciiToLowerCase id
                     (parseAnswer := Decode.parseRawAnswer)
                     (parseAnalysis := Decode.parseRawAnalysis)
                     (parseValidation := Decode.parseValidationResult)
                     (Scenario.request "What is it about?")
                     Scenario.validationBroken eq_refl)
              Scenario.panel) as (added & Eadd & Hshown).
  simpl ui at 2 in Eadd. simpl app in Eadd.
  destruct (Hshown merged [merged]) as (s0 & s1 & s2 & a & v & _ & _ & E).
  { rewrite <- Eadd. vm_compute. reflexivity. }
  exists a, v. exact E.
Defined.

(** ** The summary cache when the storage fails *)





(** When the storage works, a summary saved twice is stored once, with
    the creation time of the first save and the update time and result
    of the second, and is read back; a video never saved reads as
    [null]. *)
Example cache_round_trip :
  let save now r :=
    SummaryStorage.saveSummary (Scenario.workingStorage now) (js "abc") r
      (js "https://www.youtube.com/watch?v=abc") (js "en") [] in
  let saved :=
    snd (save 2000 Scenario.improved
           (snd (save 1000 Scenario.preliminary Scenario.emptyCache))) in
  fst (SummaryStorage.getSummary (Scenario.workingStorage 3000) (js "abc") saved)
    = Resolved
        (Some (SummaryStorage.mkStoredSummary (js "abc") Scenario.improved
                 (js "https://www.youtube.com/watch?v=abc") (js "en") []
                 1000 2000))
  /\ fst (SummaryStorage.getSummary (Scenario.workingStorage 3000) (js "xyz")
            saved)
     = Resolved None
  /\ length (SummaryStorage.allRecords saved) = 1%nat.
Proof. repeat split; vm_compute; reflexivity. Qed.


(** ** The provider operations, call by call *)

Lemma invocations_app l l' :
  invocations (l ++ l') = invocations l ++ invocations l'.
Proof. unfold invocations. apply omap_app. Qed.

Lemma ensureCredentials_configured c s :
  configured c -> ensureCredentials (Some c) s = (Resolved tt, s).
Proof.
  unfold configured, ensureCredentials.
  destruct (trim (key c)); [congruence|reflexivity].
Qed.

Lemma createLLM_configured c temperature maxTokens maxRetries s :
  configured c ->
  createLLM c (mkOptions (Some temperature) (Some maxTokens) (Some maxRetries)
                 None) s
  = (Resolved (clientOf c temperature maxTokens maxRetries), s).
Proof.
  intros Hc. unfold createLLM, bind.
  rewrite (ensureCredentials_configured c s Hc). reflexivity.
Qed.

Lemma parseJsonContent_silent {T} {parser : JsonParse T} raw context s :
  lastAnalysisPrompt (snd (parseJsonContent raw context s))
  = lastAnalysisPrompt s
  /\ invocations (events (snd (parseJsonContent raw context s)))
     = invocations (events s)
  /\ fst (parseJsonContent raw context s) <> Pending.
Proof.
  unfold parseJsonContent.
  destruct (JSON_parse raw); simpl; [repeat split; congruence|].
  destruct (negb _); [destruct (JSON_parse _)|]; simpl;
    rewrite ?invocations_app; simpl; rewrite ?app_nil_r;
    repeat split; congruence.
Qed.

Lemma invokeModelForJson_once {T} {parser : JsonParse T}
  (respond : ChatModel -> Prompt -> Outcome jsstring) llm prompt context s :
  lastAnalysisPrompt (snd (invokeModelForJson respond llm prompt context s))
  = lastAnalysisPrompt s
  /\ invocations (events (snd (invokeModelForJson respond llm prompt context s)))
     = invocations (events s) ++ [(llm, prompt)]
  /\ (fst (invokeModelForJson respond llm prompt context s) = Pending
      <-> respond llm prompt = Pending).
Proof.
  unfold invokeModelForJson, invoke, bind, emit, await.
  destruct (respond llm prompt) as [response|e|]; simpl;
    rewrite ?invocations_app; simpl; try (repeat split; congruence).
  destruct (negb (truthy (trim response))); simpl;
    rewrite ?invocations_app; simpl; try (repeat split; congruence).
  match goal with
  | |- context [parseJsonContent ?raw ?ctx ?st] =>
      pose proof (parseJsonContent_silent raw ctx st) as (H1 & H2 & H3)
  end.
  rewrite H1, H2. simpl. rewrite invocations_app. simpl.
  repeat split; congruence.
Qed.

(** X1. The answer [sanitizeUserAnswer] returns is clean: its text is
    trimmed, every related segment is trimmed and non-empty, and
    sanitizing it again changes nothing. *)
Theorem sanitizeUserAnswer_clean (v : RawAnswer) :
  let a := sanitizeUserAnswer v in
  trim (text a) = text a
  /\ Forall (fun segment => segment <> [] /\ trim segment = segment)
       (relatedSegments a)
  /\ sanitizeUserAnswer
       (mkRawAnswer (Some (text a)) (Some (Some <$> relatedSegments a)))
     = a.
Proof.
  intros a.
  assert (Ht : trim (text a) = text a).
  { subst a. unfold sanitizeUserAnswer. simpl.
    destruct (ra_text v) as [t|]; [|reflexivity].
    destruct (0 <? length (trim t))%nat; [apply trim_idem|reflexivity]. }
  assert (Hs : Forall (fun segment => segment <> [] /\ trim segment = segment)
                 (relatedSegments a)).
  { subst a. unfold sanitizeUserAnswer. simpl.
    destruct (ra_relatedSegments v) as [l|]; [|constructor].
    induction l as [|entry l IH]; simpl; [constructor|].
    destruct (0 <? length (trimOrEmpty entry))%nat eqn:E; [|exact IH].
    constructor; [|exact IH]. split; [|apply trimOrEmpty_trim].
    intros E'. rewrite E' in E. discriminate. }
  split; [exact Ht|]. split; [exact Hs|].
  destruct a as [txt segments]. simpl in *.
  unfold sanitizeUserAnswer. simpl. f_equal.
  - rewrite Ht. destruct txt; reflexivity.
  - clear Ht. induction Hs as [|segment l [Hne Htrim] _ IH]; [reflexivity|].
    simpl. rewrite Htrim. destruct segment; [congruence|].
    simpl. f_equal. exact IH.
Qed.

Section ProviderCalls.

Variable respond : ChatModel -> Prompt -> Outcome jsstring.
Context {parseAnswer : JsonParse RawAnswer}
        {parseAnalysis : JsonParse RawAnalysis}
        {parseValidation : JsonParse ValidationResult}.

(** X2. With configured credentials, [analyzeVideo] calls the provider
    exactly once, with the summary prompt of the trimmed transcript (of
    a placeholder when the transcript is blank, so never of an empty
    text), and records that prompt in the module whatever the call
    returns, also when it fails or does not settle. *)
Theorem analyzeVideo_records_prompt c transcript targetLanguage s :
  configured c ->
  let prompt :=
    SummaryPrompt
      (orElse (trim transcript)
         (js "Transcript unavailable. Explain the limitation."))
      (fst (sanitizeLanguage targetLanguage))
      (snd (sanitizeLanguage targetLanguage)) in
  let s' := snd (analyzeVideo respond transcript (Some c) targetLanguage s) in
  lastAnalysisPrompt s' = Some prompt
  /\ invocations (events s')
     = invocations (events s) ++ [(clientOf c 30 2048 3, prompt)]
  /\ orElse (trim transcript)
       (js "Transcript unavailable. Explain the limitation.") <> [].
Proof.
  intros Hc prompt s'. subst s' prompt.
  destruct (analyzeVideo respond transcript (Some c) targetLanguage s)
    as [o s'] eqn:E.
  unfold analyzeVideo in E.
  unfold bind at 1 in E. rewrite (ensureCredentials_configured c s Hc) in E.
  destruct (sanitizeLanguage targetLanguage) as [languageName languageCode].
  unfold bind at 1 in E. rewrite (createLLM_configured c 30 2048 3 s Hc) in E.
  unfold bind at 1 in E.
  cbn [setLastAnalysisPrompt sanitizeTranscript default fmap option_fmap
         option_map id] in E.
  unfold bind in E.
  match type of E with
  | context [invokeModelForJson respond ?llm ?p ?ctx ?st] =>
      pose proof (invokeModelForJson_once (T := RawAnalysis) respond llm p ctx st)
        as (H1 & H2 & _);
      destruct (invokeModelForJson respond llm p ctx st) as [[r|e|] s1]
  end; cbn [fst snd events lastAnalysisPrompt] in *; inversion E; subst;
    (split; [exact H1|]); (split; [exact H2|]);
    unfold orElse; destruct (trim transcript); discriminate.
Qed.

(** X3. With configured credentials, [answerUserQuestion] calls the
    provider exactly once, with the question prompt of the trimmed
    transcript (of a placeholder when it is blank), and leaves the
    prompt recorded by the last analysis as it was. *)
Theorem answerUserQuestion_calls_once c transcript userQuery targetLanguage s :
  configured c ->
  let prompt :=
    QuestionPrompt
      (orElse (trim transcript) (js "Transcript unavailable."))
      userQuery
      (fst (sanitizeLanguage targetLanguage))
      (snd (sanitizeLanguage targetLanguage)) in
  let s' :=
    snd (answerUserQuestion respond transcript userQuery (Some c)
           targetLanguage s) in
  lastAnalysisPrompt s' = lastAnalysisPrompt s
  /\ invocations (events s')
     = invocations (events s) ++ [(clientOf c 25 1024 3, prompt)]
  /\ orElse (trim transcript) (js "Transcript unavailable.") <> [].
Proof.
  intros Hc prompt s'. subst s' prompt.
  destruct (answerUserQuestion respond transcript userQuery (Some c)
              targetLanguage s) as [o s'] eqn:E.
  unfold answerUserQuestion in E.
  unfold bind at 1 in E. rewrite (ensureCredentials_configured c s Hc) in E.
  destruct (sanitizeLanguage targetLanguage) as [languageName languageCode].
  unfold bind at 1 in E. rewrite (createLLM_configured c 25 1024 3 s Hc) in E.
  cbn [sanitizeTranscript default fmap option_fmap option_map id] in E.
  unfold bind in E.
  match type of E with
  | context [invokeModelForJson respond ?llm ?p ?ctx ?st] =>
      pose proof (invokeModelForJson_once (T := RawAnswer) respond llm p ctx st)
        as (H1 & H2 & _);
      destruct (invokeModelForJson respond llm p ctx st) as [[r|e|] s1]
  end; cbn [fst snd events lastAnalysisPrompt] in *; inversion E; subst;
    (split; [exact H1|]); (split; [exact H2|]);
    unfold orElse; destruct (trim transcript); discriminate.
Qed.



(** The probe of [validateProviderCredentials], run. *)
Lemma validateProviderCredentials_run c s :
  configured c ->
  validateProviderCredentials respond (Some c) s
  = (match respond (clientOf c 0 8 0) RespondWithOK with
     | Resolved _ => Resolved tt
     | Rejected error =>
         Rejected
           (newError
              (mapProviderLabel (provider c) ++ js ": "
                 ++ orElse (trim (errMessage error))
                      (js "Unable to reach " ++ mapProviderLabel (provider c)
                         ++ js ". Please verify the API key.")))
     | Pending => Pending
     end,
     mkService (lastAnalysisPrompt s)
       (events s ++ [Invoked (clientOf c 0 8 0) RespondWithOK])).
Proof.
  intros Hc. unfold validateProviderCredentials.
  unfold bind at 1. rewrite (ensureCredentials_configured c s Hc).
  unfold tryCatch. unfold bind at 1.
  rewrite (createLLM_configured c 0 8 0 s Hc).
  unfold bind, invoke, bind, emit, await, throw.
  destruct (respond (clientOf c 0 8 0) RespondWithOK); reflexivity.
Qed.

(** X5. With configured credentials, [validateProviderCredentials]
    sends one probe ([Respond with OK], temperature 0, at most 8
    tokens, no retries) and resolves as soon as the provider answers,
    whatever the answer says. When the probe fails it rejects with a
    message made of the provider's label, a colon and a non-empty
    reason: the trimmed message of the failure, or a hint to verify the
    key when the failure has no message. *)
Theorem validateProviderCredentials_outcome c s :
  configured c ->
  let probe := clientOf c 0 8 0 in
  let run := validateProviderCredentials respond (Some c) s in
  invocations (events (snd run))
  = invocations (events s) ++ [(probe, RespondWithOK)]
  /\ match respond probe RespondWithOK with
     | Resolved _ => fst run = Resolved tt
     | Rejected error =>
         exists reason,
           fst run
           = Rejected (newError (mapProviderLabel (provider c) ++ js ": "
                                   ++ reason))
           /\ reason <> []
           /\ (trim (errMessage error) <> [] ->
               reason = trim (errMessage error))
     | Pending => fst run = Pending
     end.
Proof.
  intros Hc probe run. subst run probe.
  rewrite (validateProviderCredentials_run c s Hc). cbn [fst snd events].
  rewrite invocations_app. split; [reflexivity|].
  destruct (respond (clientOf c 0 8 0) RespondWithOK) as [response|error|];
    [reflexivity| |reflexivity].
  eexists. split; [reflexivity|].
  unfold orElse. destruct (trim (errMessage error)) eqn:Et; simpl.
  - split; [discriminate|congruence].
  - split; [discriminate|reflexivity].
Qed.

End ProviderCalls.

Lemma scenario_configured : configured Scenario.credentials.
Proof. vm_compute. discriminate. Defined.

(** The analysis against a provider that never answers: the prompt is
    recorded all the same. *)
Lemma analyzeVideo_records_prompt_witness :
  configured Scenario.credentials
  /\ lastAnalysisPrompt
       (snd (analyzeVideo Scenario.silent
               (parseAnalysis := Decode.parseRawAnalysis)
               (js "  the transcript ") (Some Scenario.credentials) None
               Scenario.idle))
     = Some (SummaryPrompt (js "the transcript") (js "English") (js "en")).
Proof.
  split; [exact scenario_configured|].
  exact (proj1 (analyzeVideo_records_prompt Scenario.silent
                  (parseAnalysis := Decode.parseRawAnalysis)
                  Scenario.credentials (js "  the transcript ") None
                  Scenario.idle scenario_configured)).
Defined.

(** A question about a blank transcript. *)
Lemma answerUserQuestion_calls_once_witness :
  configured Scenario.credentials
  /\ invocations
       (events
          (snd (answerUserQuestion
                  (fun _ _ => Resolved Scenario.answerResponse)
                  (parseAnswer := Decode.parseRawAnswer)
                  (js "   ") (js "why?") (Some Scenario.credentials) None
                  Scenario.idle)))
     = [(clientOf Scenario.credentials 25 1024 3,
         QuestionPrompt (js "Transcript unavailable.") (js "why?")
           (js "English") (js "en"))].
Proof.
  split; [exact scenario_configured|].
  exact (proj1 (proj2
           (answerUserQuestion_calls_once
              (fun _ _ => Resolved Scenario.answerResponse)
              (parseAnswer := Decode.parseRawAnswer)
              Scenario.credentials (js "   ") (js "why?") None
              Scenario.idle scenario_configured))).
Defined.


(** A provider that refuses the key without a message. *)
Lemma validateProviderCredentials_outcome_witness :
  configured Scenario.credentials
  /\ exists reason,
       fst (validateProviderCredentials
              (fun _ _ => Rejected (newError (js "  ")))
              (Some Scenario.credentials) Scenario.idle)
       = Rejected (newError (js "Google Gemini: " ++ reason))
       /\ reason <> [].
Proof.
  split; [exact scenario_configured|].
  destruct (proj2
              (validateProviderCredentials_outcome
                 (fun _ _ => Rejected (newError (js "  ")))
                 Scenario.credentials Scenario.idle scenario_configured))
    as (reason & E & Hne & _).
  exists reason. split; [exact E|exact Hne].
Defined.


(** ** Corrections, field by field *)

Section SortedFilter.

Context {A : Type} (cmp : A -> A -> Z) (keep : A -> bool).

Hypothesis cmp_total : forall a b, 0 < cmp a b -> notAfter cmp b a.
Hypothesis cmp_trans :
  forall a b c, notAfter cmp a b -> notAfter cmp b c -> notAfter cmp a c.

Lemma insertSorted_head x l :
  Forall (notAfter cmp x) l -> insertSorted cmp x l = x :: l.
Proof.
  destruct 1 as [|y l Hy _]; [reflexivity|]. simpl.
  unfold notAfter in Hy. destruct (Z.ltb_spec 0 (cmp x y)); [lia|reflexivity].
Qed.

Lemma Forall_kept (Q : A -> Prop) l :
  Forall Q l -> Forall Q (List.filter keep l).
Proof.
  induction 1 as [|z l Hz _ IH]; simpl; [constructor|].
  destruct (keep z); [constructor; assumption|exact IH].
Qed.

Lemma insertSorted_filter x l :
  StronglySorted (notAfter cmp) l ->
  List.filter keep (insertSorted cmp x l)
  = if keep x then insertSorted cmp x (List.filter keep l)
    else List.filter keep l.
Proof.
  induction 1 as [|y l Hs IH Hy]; simpl.
  - destruct (keep x); reflexivity.
  - destruct (0 <? cmp x y) eqn:E; simpl.
    + rewrite IH. destruct (keep y), (keep x); simpl; rewrite ?E; reflexivity.
    + apply Z.ltb_ge in E.
      destruct (keep x); [|reflexivity].
      symmetry. apply insertSorted_head.
      apply (Forall_kept (notAfter cmp x) (y :: l)).
      constructor; [exact E|].
      eapply List.Forall_impl; [|exact Hy].
      intros z Hz. eapply cmp_trans; [exact E|exact Hz].
Qed.

Lemma arraySort_filter l :
  List.filter keep (arraySort cmp l) = arraySort cmp (List.filter keep l).
Proof.
  induction l as [|x l IH]; simpl; [reflexivity|].
  rewrite insertSorted_filter
    by (apply arraySort_sorted; [exact cmp_total|exact cmp_trans]).
  rewrite IH. destruct (keep x); reflexivity.
Qed.

End SortedFilter.

Lemma sortIssues_issuesOf f issues :
  issuesOf f (sortIssues issues) = sortIssues (issuesOf f issues).
Proof.
  unfold issuesOf, sortIssues.
  apply arraySort_filter; [exact compareIssues_total|exact compareIssues_trans].
Qed.

Lemma sameField_refl f r : sameField f r r.
Proof. destruct f; reflexivity. Qed.

Lemma sameField_trans f r1 r2 r3 :
  sameField f r1 r2 -> sameField f r2 r3 -> sameField f r1 r3.
Proof. destruct f; simpl; congruence. Qed.

(** An issue about another field leaves the field as it is. *)
Lemma applyIssue_other f r issue :
  field issue <> f -> sameField f (applyIssue r issue) r.
Proof.
  intros Hf. unfold applyIssue.
  destruct (field issue), f; try congruence; simpl;
    repeat match goal with
           | |- context [match ?x with _ => _ end] => destruct x; simpl
           end; reflexivity.
Qed.

(** An issue about the field reads nothing but the field. *)
Lemma applyIssue_same f r r' issue :
  field issue = f -> sameField f r r' ->
  sameField f (applyIssue r issue) (applyIssue r' issue).
Proof.
  intros Hf. unfold applyIssue. rewrite Hf.
  destruct f; simpl; intros E.
  - repeat match goal with
           | |- context [match ?x with _ => _ end] => destruct x; simpl
           end; congruence.
  - rewrite E. reflexivity.
  - rewrite E. destruct (customAnswer r') eqn:E';
      repeat match goal with
             | |- context [match ?x with _ => _ end] => destruct x; simpl
             end; congruence.
Qed.

Lemma fold_issuesOf f l : forall r r',
  sameField f r r' ->
  sameField f (List.fold_left applyIssue l r)
    (List.fold_left applyIssue (issuesOf f l) r').
Proof.
  induction l as [|issue l IH]; intros r r' E; simpl; [exact E|].
  destruct (decide (field issue = f)) as [Ef|Nf].
  - rewrite bool_decide_eq_true_2 by exact Ef. simpl.
    apply IH, applyIssue_same; assumption.
  - rewrite bool_decide_eq_false_2 by exact Nf.
    apply IH. eapply sameField_trans; [|exact E].
    apply applyIssue_other. exact Nf.
Qed.

(** X6. Corrections of different fields do not interfere: the value
    [applyCorrections] gives to a field is the one it gives when
    handed only the issues about that field. In particular a field no
    issue mentions is returned as it was. *)
Theorem fields_are_corrected_independently result issues f :
  sameField f (applyCorrections result issues)
    (applyCorrections result (issuesOf f issues)).
Proof.
  unfold applyCorrections.
  eapply sameField_trans.
  - apply (fold_issuesOf f). apply sameField_refl.
  - rewrite sortIssues_issuesOf. apply sameField_refl.
Qed.


Lemma sortIssues_perm issues : Permutation issues (sortIssues issues).
Proof. apply arraySort_perm. Qed.

Lemma issuesOf_field f issues :
  Forall (fun issue => field issue = f) (issuesOf f issues).
Proof.
  unfold issuesOf. induction issues as [|issue l IH]; simpl; [constructor|].
  destruct (decide (field issue = f)) as [Ef|Nf].
  - rewrite bool_decide_eq_true_2 by exact Ef. constructor; assumption.
  - rewrite bool_decide_eq_false_2 by exact Nf. exact IH.
Qed.

(** The value of a field after corrections, from the issues about it
    alone, in the order they are processed. *)
Lemma applyCorrections_field f result issues :
  sameField f (applyCorrections result issues)
    (List.fold_left applyIssue (sortIssues (issuesOf f issues)) result).
Proof.
  unfold applyCorrections, deepCopy. rewrite <- sortIssues_issuesOf.
  apply fold_issuesOf, sameField_refl.
Qed.

Lemma removes_keep_no_answer l : forall r,
  Forall (fun issue => field issue = FCustomAnswer /\ isRemove issue = true) l ->
  customAnswer r = None ->
  customAnswer (List.fold_left applyIssue l r) = None.
Proof.
  induction l as [|issue l IH]; intros r Hl Hr; [exact Hr|].
  inversion Hl as [|? ? [Hf Hrm] Hl']; subst. simpl. apply IH; [exact Hl'|].
  unfold applyIssue. rewrite Hf.
  unfold isRemove in Hrm. apply bool_decide_eq_true_1 in Hrm. rewrite Hrm.
  reflexivity.
Qed.

Lemma sorted_answer_removal l :
  StronglySorted processedBefore l ->
  Forall (fun issue => field issue = FCustomAnswer) l ->
  Exists (fun issue => isRemove issue = true) l ->
  forall r, customAnswer (List.fold_left applyIssue l r) = None.
Proof.
  induction 1 as [|issue l Hs IH Hall]; intros Hf Hex r.
  { inversion Hex. }
  inversion Hf as [|? ? Hfi Hfl]; subst.
  destruct (isRemove issue) eqn:Hrm.
  - simpl. apply removes_keep_no_answer.
    + rewrite List.Forall_forall in *. intros b Hb.
      split; [apply Hfl; exact Hb|].
      pose proof (Hall b Hb) as Hp. pose proof (Hfl b Hb) as Hfb.
      unfold processedBefore in Hp. rewrite Hfi, Hfb, Hrm in Hp.
      destruct Hp as [Hp|[(_ & Hp & _)|(_ & Hp & _)]];
        [lia|discriminate|congruence].
    + unfold applyIssue. rewrite Hfi.
      unfold isRemove in Hrm. apply bool_decide_eq_true_1 in Hrm.
      rewrite Hrm. reflexivity.
  - simpl. apply IH; [exact Hfl|].
    inversion Hex as [? ? Hx|? ? Hx]; subst; [congruence|exact Hx].
Qed.

(** X7. A ['remove'] correction of the custom answer always wins: when
    the issues hold one, the corrected result has no custom answer,
    whatever else the issues ask for and in whatever order they come
    (the removals of a field are processed after its other
    corrections). *)
Theorem customAnswer_removal_wins result issues issue :
  In issue issues ->
  field issue = FCustomAnswer ->
  action (correction issue) = Remove ->
  customAnswer (applyCorrections result issues) = None.
Proof.
  intros Hin Hf Hrm.
  pose proof (applyCorrections_field FCustomAnswer result issues) as E.
  simpl in E. rewrite E. apply sorted_answer_removal.
  - apply sortIssues_sorted.
  - rewrite <- sortIssues_perm. apply issuesOf_field.
  - rewrite <- sortIssues_perm. apply List.Exists_exists. exists issue.
    split.
    + unfold issuesOf. apply filter_In. split; [exact Hin|].
      apply bool_decide_eq_true_2. exact Hf.
    + unfold isRemove. apply bool_decide_eq_true_2. exact Hrm.
Qed.

(** A removal of the answer listed before its replacement. *)
Lemma customAnswer_removal_wins_witness :
  let remove :=
    mkIssue FCustomAnswer None hallucination []
      (mkCorrection Remove None) in
  let replace :=
    mkIssue FCustomAnswer None hallucination []
      (mkCorrection Replace (Some (VString (js "another answer")))) in
  customAnswer
    (applyCorrections
       (mkAnalysisResult (Some Scenario.answer) (js "A talk.") [])
       [remove; replace])
  = None.
Proof.
  intros remove replace.
  apply (customAnswer_removal_wins _ [remove; replace] remove).
  - left. reflexivity.
  - reflexivity.
  - reflexivity.
Defined.

(** ** Removals of key moments *)

Lemma withoutFrom_above {A} (indices : list nat) position (l : list A) :
  Forall (fun n => (n < position)%nat) indices ->
  withoutFrom indices position l = l.
Proof.
  revert position. induction l as [|x l IH]; intros position Hlt; [reflexivity|].
  simpl. rewrite bool_decide_eq_false_2.
  - f_equal. apply IH. eapply List.Forall_impl; [|exact Hlt].
    simpl. intros. lia.
  - intros Hin. rewrite List.Forall_forall in Hlt.
    apply list_elem_of_In in Hin. apply Hlt in Hin. lia.
Qed.

Lemma withoutFrom_ext {A} (indices indices' : list nat) (l : list A) :
  (forall n, n ∈ indices <-> n ∈ indices') ->
  forall position,
    withoutFrom indices position l = withoutFrom indices' position l.
Proof.
  intros Hext. induction l as [|x l IH]; intros position; [reflexivity|].
  simpl. rewrite (bool_decide_ext _ _ (Hext position)), !IH. reflexivity.
Qed.

(** Deleting the highest listed position first leaves the lower ones
    where they were. *)
Lemma withoutFrom_delete {A} (indices : list nat) n (l : list A) :
  Forall (fun m => (m < n)%nat) indices ->
  forall position, (position <= n)%nat ->
    withoutFrom indices position (delete (n - position)%nat l)
    = withoutFrom (n :: indices) position l.
Proof.
  intros Hlt. induction l as [|x l IH]; intros position Hle.
  { destruct (n - position)%nat; reflexivity. }
  destruct (decide (position = n)) as [->|Hne].
  - rewrite Nat.sub_diag. simpl.
    rewrite bool_decide_eq_true_2 by (left).
    rewrite withoutFrom_above by exact Hlt.
    rewrite withoutFrom_above; [reflexivity|].
    constructor; [lia|]. eapply List.Forall_impl; [|exact Hlt].
    simpl. intros. lia.
  - replace (n - position)%nat with (S (n - S position)) by lia. simpl.
    rewrite IH by lia.
    assert (Hiff : position ∈ indices <-> position ∈ n :: indices).
    { rewrite elem_of_cons. split; [auto|]. intros [?|?]; [lia|assumption]. }
    rewrite (bool_decide_ext _ _ Hiff). reflexivity.
Qed.

Lemma delete_descending {A} (indices : list nat) :
  StronglySorted (fun a b => (b < a)%nat) indices ->
  forall l : list A,
    List.fold_left (fun km n => delete n km) indices l
    = withoutIndices indices l.
Proof.
  unfold withoutIndices.
  induction 1 as [|n indices Hs IH Hn]; intros l; simpl.
  - symmetry. apply withoutFrom_above. constructor.
  - rewrite IH. rewrite <- (withoutFrom_delete indices n l Hn 0%nat) by lia.
    rewrite Nat.sub_0_r. reflexivity.
Qed.

Lemma removals_fold l : forall r,
  Forall (fun issue => field issue = FKeyMoments /\ isRemove issue = true) l ->
  keyMoments (List.fold_left applyIssue l r)
  = List.fold_left (fun km n => delete n km) (omap validIndex l) (keyMoments r).
Proof.
  induction l as [|issue l IH]; intros r Hl; [reflexivity|].
  inversion Hl as [|? ? [Hf Hrm] Hl']; subst.
  assert (Hk : keyMoments (applyIssue r issue)
               = match validIndex issue with
                 | Some n => delete n (keyMoments r)
                 | None => keyMoments r
                 end).
  { unfold applyIssue. rewrite Hf. simpl. unfold correctKeyMoments.
    unfold isRemove in Hrm. apply bool_decide_eq_true_1 in Hrm. rewrite Hrm.
    destruct (validIndex issue); reflexivity. }
  change (List.fold_left applyIssue (issue :: l) r)
    with (List.fold_left applyIssue l (applyIssue r issue)).
  rewrite IH by exact Hl'. rewrite Hk. simpl.
  destruct (validIndex issue); reflexivity.
Qed.

Lemma validIndex_indexOr0 issue n :
  validIndex issue = Some n -> indexOr0 issue = Z.of_nat n.
Proof.
  unfold validIndex, indexOr0. destruct (index issue) as [i|]; [|discriminate].
  destruct (Z.leb_spec 0 i); [|discriminate].
  intros [= <-]. simpl. lia.
Qed.

Lemma removals_sorted l :
  StronglySorted processedBefore l ->
  Forall (fun issue => field issue = FKeyMoments /\ isRemove issue = true) l ->
  StronglySorted (fun a b => (b <= a)%nat) (omap validIndex l).
Proof.
  induction 1 as [|issue l Hs IH Hall]; intros Hl; [constructor|].
  inversion Hl as [|? ? [Hf Hrm] Hl']; subst. simpl.
  destruct (validIndex issue) as [n|] eqn:En; [|apply IH; exact Hl'].
  constructor; [apply IH; exact Hl'|].
  apply List.Forall_forall. intros m Hm.
  apply list_elem_of_In, list_elem_of_omap in Hm.
  destruct Hm as (b & Hb & Em). apply list_elem_of_In in Hb.
  rewrite List.Forall_forall in Hall, Hl'.
  pose proof (Hall b Hb) as Hp. destruct (Hl' b Hb) as [Hfb Hrb].
  unfold processedBefore in Hp. rewrite Hf, Hfb, Hrm, Hrb in Hp.
  apply validIndex_indexOr0 in En, Em.
  destruct Hp as [Hp|[(_ & Hp & _)|(_ & _ & Hp)]]; [lia|discriminate|lia].
Qed.

Lemma sorted_nodup_descending (l : list nat) :
  StronglySorted (fun a b => (b <= a)%nat) l -> List.NoDup l ->
  StronglySorted (fun a b => (b < a)%nat) l.
Proof.
  induction 1 as [|n l Hs IH Hn]; intros Hnd; [constructor|].
  inversion Hnd as [|? ? Hnot Hnd']; subst.
  constructor; [apply IH; exact Hnd'|].
  rewrite List.Forall_forall in *. intros m Hm.
  pose proof (Hn m Hm). assert (m <> n) by (intros ->; contradiction). lia.
Qed.

(** X8. Removals leave exactly the moments that were not named. When
    every issue about [keyMoments] is a ['remove'] and no position is
    named twice, the corrected key moments are the original ones
    without those at the named positions, in their order, however the
    issues are ordered and also when positions are out of range.
    Issues about [keyMoments] without a usable index (none, or a
    negative one) remove nothing. *)
Theorem removals_leave_the_unnamed_moments result issues :
  Forall (fun issue => action (correction issue) = Remove)
    (issuesOf FKeyMoments issues) ->
  List.NoDup (removedIndices issues) ->
  keyMoments (applyCorrections result issues)
  = withoutIndices (removedIndices issues) (keyMoments result).
Proof.
  intros Hrm Hnd.
  pose proof (applyCorrections_field FKeyMoments result issues) as E.
  simpl in E. rewrite E. clear E.
  pose proof (sortIssues_perm (issuesOf FKeyMoments issues)) as Hperm.
  set (sorted := sortIssues (issuesOf FKeyMoments issues)) in *.
  assert (Hall : Forall (fun issue => field issue = FKeyMoments
                                      /\ isRemove issue = true) sorted).
  { rewrite <- Hperm. pose proof (issuesOf_field FKeyMoments issues) as Hf.
    rewrite List.Forall_forall in *. intros issue Hin. split; [auto|].
    unfold isRemove. apply bool_decide_eq_true_2. auto. }
  assert (Hp : Permutation (removedIndices issues) (omap validIndex sorted)).
  { unfold removedIndices. apply omap_Permutation. exact Hperm. }
  rewrite removals_fold by exact Hall.
  rewrite delete_descending.
  - unfold withoutIndices. apply withoutFrom_ext. intros n.
    rewrite Hp. reflexivity.
  - apply sorted_nodup_descending.
    + apply removals_sorted; [apply sortIssues_sorted|exact Hall].
    + rewrite <- Hp. exact Hnd.
Qed.

(** Five moments; the issues name positions 3, 0, 7 (out of range) and
    1, in this order. *)
Lemma removals_leave_the_unnamed_moments_witness :
  keyMoments
    (applyCorrections
       (mkAnalysisResult None (js "A talk.")
          [Scenario.moment "00:10" "a"; Scenario.moment "00:20" "b";
           Scenario.moment "00:30" "c"; Scenario.moment "00:40" "d";
           Scenario.moment "00:50" "e"])
       [Scenario.removeAt 3; Scenario.removeAt 0; Scenario.removeAt 7;
        Scenario.removeAt 1])
  = [Scenario.moment "00:30" "c"; Scenario.moment "00:50" "e"].
Proof.
  apply (removals_leave_the_unnamed_moments
           (mkAnalysisResult None (js "A talk.")
              [Scenario.moment "00:10" "a"; Scenario.moment "00:20" "b";
               Scenario.moment "00:30" "c"; Scenario.moment "00:40" "d";
               Scenario.moment "00:50" "e"])
           [Scenario.removeAt 3; Scenario.removeAt 0; Scenario.removeAt 7;
            Scenario.removeAt 1]).
  - repeat constructor.
  - vm_compute. repeat constructor; simpl; intros H;
      repeat (destruct H as [H|H]; [discriminate|]); exact H.
Defined.

(** ** The summary under corrections *)

Lemma applyIssue_summary r issue :
  summary (applyIssue r issue) = summary r
  \/ (summary (applyIssue r issue) <> []
      /\ field issue = FSummary /\ action (correction issue) = Replace).
Proof.
  unfold applyIssue. destruct (field issue) eqn:Ef.
  - destruct (action (correction issue)); try (left; reflexivity).
    destruct (truthyValue (value (correction issue))) as [v|];
      [|left; reflexivity].
    destruct (match v with
              | VString s => Some s
              | VObject _ => orOpt (valueText v) (valueDescription v)
              end) as [s|]; [|left; reflexivity].
    destruct s as [|c s]; [left; reflexivity|].
    right. simpl. repeat split; congruence.
  - left. reflexivity.
  - left.
    repeat match goal with
           | |- context [match ?x with _ => _ end] => destruct x; simpl
           end; reflexivity.
Qed.

Lemma fold_summary l : forall r,
  summary (List.fold_left applyIssue l r) = summary r
  \/ (summary (List.fold_left applyIssue l r) <> []
      /\ exists issue,
           In issue l /\ field issue = FSummary
           /\ action (correction issue) = Replace).
Proof.
  induction l as [|issue l IH]; intros r; [left; reflexivity|].
  simpl. destruct (IH (applyIssue r issue)) as [E|(Hne & b & Hb & Hf & Ha)].
  - rewrite E. destruct (applyIssue_summary r issue) as [E'|(Hne & Hf & Ha)].
    + left. exact E'.
    + right. split; [exact Hne|]. exists issue. auto.
  - right. split; [exact Hne|]. exists b. auto.
Qed.

(** X9. Corrections never remove or empty the summary: after
    [applyCorrections] the summary is the original one, or a non-empty
    text, and then the issues hold a ['replace'] of the summary.
    ['remove'] and ['add'] issues and replacements by an empty text
    have no effect on it. *)
Theorem summary_is_never_emptied result issues :
  summary (applyCorrections result issues) = summary result
  \/ (summary (applyCorrections result issues) <> []
      /\ exists issue,
           In issue issues /\ field issue = FSummary
           /\ action (correction issue) = Replace).
Proof.
  unfold applyCorrections, deepCopy.
  destruct (fold_summary (sortIssues issues) result)
    as [E|(Hne & issue & Hin & Hf & Ha)]; [left; exact E|].
  right. split; [exact Hne|]. exists issue. split; [|auto].
  eapply Permutation_in; [|exact Hin].
  symmetry. apply sortIssues_perm.
Qed.

(** ** Recovery by retrying *)

Section RetryRecovery.

Variable toLowerCase : jsstring -> jsstring.
Context {T : Type}.
Variable operation : nat -> P T.
Variable timeoutMs : N.
Variable maxAttempts : nat.
Variable operationName : jsstring.
Variable onRetry : option (nat -> JsError -> P unit).

Hypothesis operation_quiet : forall k, quiet (operation k).
Hypothesis onRetry_returns : returnsNormally onRetry.

Let attempt (k : nat) : P T :=
  withTimeout (do _ <- uiEvent (Called operationName k); operation k)
    timeoutMs operationName.

Let loop := retryFrom toLowerCase operation timeoutMs maxAttempts
              operationName onRetry.

Lemma attempt_resolves k v s :
  (forall s0, fst (operation k s0) = Resolved v) ->
  fst (attempt k s) = Resolved v.
Proof.
  intros Hv. unfold attempt, withTimeout, bind, uiEvent.
  set (s0 := mkPanel _ _). specialize (Hv s0).
  destruct (operation k s0) as [[w|e|] s1]; simpl in *; congruence.
Qed.

Lemma attempt_fails k s :
  (forall s0,
     fst (operation k s0) = Pending
     \/ exists e, fst (operation k s0) = Rejected e
                  /\ isRetryable toLowerCase e = true) ->
  exists e s1,
    attempt k s = (Rejected e, s1) /\ isRetryable toLowerCase e = true.
Proof.
  intros Hf. unfold attempt, withTimeout, bind, uiEvent.
  set (s0 := mkPanel _ _). specialize (Hf s0).
  destruct (operation k s0) as [[w|e|] s1]; simpl in *.
  - destruct Hf as [Hf|(e & Hf & _)]; discriminate.
  - destruct Hf as [Hf|(e' & [= <-] & He)]; [discriminate|]. eauto.
  - eexists _, _. split; reflexivity.
Qed.

Lemma loop_recovers n v : forall failing k remaining last s,
  (forall j s0, (1 <= j <= n)%nat ->
     fst (operation j s0) = Pending
     \/ exists e, fst (operation j s0) = Rejected e
                  /\ isRetryable toLowerCase e = true) ->
  (forall s0, fst (operation (S n) s0) = Resolved v) ->
  (n < maxAttempts)%nat ->
  (1 <= k)%nat ->
  (k + failing = S n)%nat ->
  (failing < remaining)%nat ->
  fst (loop remaining k last s) = Resolved v
  /\ attempts (ui (snd (loop remaining k last s)))
     = attempts (ui s) ++ seq k (S failing).
Proof.
  induction failing as [|failing IH];
    intros k remaining last s Hfail Hok Hn Hk1 Hk Hrem;
    (destruct remaining as [|remaining]; [lia|]).
  - replace k with (S n) by lia.
    pose proof (attempt_resolves (S n) v s Hok) as Hv.
    pose proof (attempt_records operation timeoutMs operationName
                  operation_quiet (S n) s) as Hr.
    change (attempts (ui (snd (attempt (S n) s)))
            = attempts (ui s) ++ [S n]) in Hr.
    unfold loop. rewrite loop_step.
    change (withTimeout _ timeoutMs operationName s) with (attempt (S n) s).
    destruct (attempt (S n) s) as [o s1]. simpl in Hv. subst o.
    split; [reflexivity|exact Hr].
  - destruct (attempt_fails k s (fun s0 => Hfail k s0 ltac:(lia)))
      as (e & s1 & Ea & He).
    assert (Er : isRetryable toLowerCase e && (k <? maxAttempts)%nat = true).
    { rewrite He. apply Nat.ltb_lt. lia. }
    destruct (loop_retry toLowerCase operation timeoutMs maxAttempts
                operationName onRetry operation_quiet onRetry_returns
                remaining k e s s1 Ea Er) as (s2 & E2 & H2).
    unfold loop. rewrite E2.
    destruct (IH (S k) remaining (Some e) s2 Hfail Hok Hn ltac:(lia)
                ltac:(lia) ltac:(lia)) as (Ho & Hat).
    split; [exact Ho|].
    unfold loop in Hat. rewrite Hat, H2, <- app_assoc. reflexivity.
Qed.

End RetryRecovery.

(** X10. Retrying recovers from transient failures: when the first
    [n] attempts time out or fail with a retryable error, with [n]
    below the maximum, and attempt [n + 1] succeeds, the wrapped call
    resolves with the value of that attempt after exactly [n + 1]
    calls of the operation, numbered from 1. *)
Theorem retry_recovers {T} (toLowerCase : jsstring -> jsstring)
  (operation : nat -> P T) (timeoutMs : N) (maxAttempts : nat)
  (operationName : jsstring) (onRetry : option (nat -> JsError -> P unit))
  (n : nat) (v : T) (s : Panel) :
  (forall k, quiet (operation k)) ->
  returnsNormally onRetry ->
  (n < maxAttempts)%nat ->
  (forall k s0, (1 <= k <= n)%nat ->
     fst (operation k s0) = Pending
     \/ exists e, fst (operation k s0) = Rejected e
                  /\ isRetryable toLowerCase e = true) ->
  (forall s0, fst (operation (S n) s0) = Resolved v) ->
  let run :=
    withTimeoutAndRetry toLowerCase operation timeoutMs maxAttempts
      operationName onRetry in
  fst (run s) = Resolved v
  /\ attempts (ui (snd (run s))) = attempts (ui s) ++ seq 1 (S n).
Proof.
  intros Hq Hcb Hn Hfail Hok run. subst run. unfold withTimeoutAndRetry.
  apply (loop_recovers toLowerCase operation timeoutMs maxAttempts
           operationName onRetry Hq Hcb n v n 1%nat maxAttempts None s
           Hfail Hok Hn); lia.
Qed.

(** An operation that hangs on its first attempt, fails with a
    [TypeError] on its second and answers on its third. *)
Lemma retry_recovers_witness :
  let operation (k : nat) : P Z :=
    match k with
    | 1%nat => await Pending
    | 2%nat => throw (Error (js "TypeError") (js "Failed to fetch"))
    | _ => ret 7
    end in
  let run :=
    withTimeoutAndRetry Decode.asciiToLowerCase operation SUMMARY_TIMEOUT_MS
      MAX_RETRY_ATTEMPTS (js "Video analysis") (Some handleRetry) in
  fst (run Scenario.panel) = Resolved 7
  /\ attempts (ui (snd (run Scenario.panel))) = [1; 2; 3]%nat.
Proof.
  intros operation run.
  apply (retry_recovers Decode.asciiToLowerCase operation SUMMARY_TIMEOUT_MS
           MAX_RETRY_ATTEMPTS (js "Video analysis") (Some handleRetry)
           2 7 Scenario.panel).
  - intros k s0. destruct k as [|[|[|k]]]; reflexivity.
  - exact handleRetry_returns.
  - unfold MAX_RETRY_ATTEMPTS. lia.
  - intros k s0 Hk. destruct k as [|[|[|k]]].
    + lia.
    + left. reflexivity.
    + right. eexists. split; [reflexivity|]. vm_compute. reflexivity.
    + lia.
  - intros s0. reflexivity.
Defined.


(** ** The summarize handler: what reaches the user *)

Section HandlerOutcomes.

Variable toLowerCase : jsstring -> jsstring.
Variable t : jsstring -> jsstring.
Context {parseAnswer : JsonParse RawAnswer}
        {parseAnalysis : JsonParse RawAnalysis}
        {parseValidation : JsonParse ValidationResult}.
Variable input : SummarizeInput.
Variable env : SummarizeEnv.

(** The first phase appends only what the retry wrapper and its
    callback record. *)
Lemma generate_appends (Q : UiEvent -> Prop) q :
  (forall name k, Q (Called name k)) ->
  (forall label e, Q (ConsoleWarn label e)) ->
  (forall label arg, Q (ConsoleLog label arg)) ->
  (forall ms, Q (SetTimeout ms)) ->
  (forall k, Q (SetRetryAttempt k)) ->
  appendsOnly Q (generate toLowerCase input env q).
Proof.
  intros Hcalled Hwarn Hlog Hdelay Hattempt.
  assert (Hw : forall A (m : nat -> M A) operationName,
             appendsOnly Q
               (withTimeoutAndRetry toLowerCase
                  (fun attempt => callService (m attempt))
                  SUMMARY_TIMEOUT_MS MAX_RETRY_ATTEMPTS operationName
                  (Some handleRetry))).
  { intros A m operationName. apply appendsOnly_retry; auto.
    - intros k. apply appendsOnly_callService.
    - intros callback k e [= <-]. unfold handleRetry.
      apply appendsOnly_bind; [|intros _]; apply appendsOnly_uiEvent; auto. }
  unfold generate. destruct (truthy q); [|apply Hw].
  apply appendsOnly_bind.
  - apply appendsOnly_awaitAll; apply Hw.
  - intros [a v]. apply appendsOnly_ret.
Qed.

(** X11. A request that has been superseded stays silent. When the
    request's token is found cancelled after the first phase, the
    handler, from the moment it was started, shows no result, sets no
    final status, opens no error dialog, writes nothing to the cache
    and does not touch the stored key, whether the first phase
    succeeded, failed or timed out. *)
Theorem cancelled_request_stays_silent c :
  in_credentials input = Some c ->
  truthy (key c) = true ->
  cancelledAfterGeneration env = true ->
  appendsOnly withoutOutcome (handleSummarize toLowerCase t input env).
Proof.
  intros Hc Hk Hcancel. unfold handleSummarize. rewrite Hc, Hk. simpl negb.
  cbv iota. unfold clearManualRetryTimer.
  keeps_result.
  apply appendsOnly_tryCatch.
  - unfold summarize. rewrite Hcancel. unfold clearManualRetryTimer.
    destruct (negb _ || _); [apply appendsOnly_throw|].
    keeps_result.
    apply generate_appends; intros; exact I.
  - intros err. unfold handleFailure. rewrite Hcancel.
    unfold clearManualRetryTimer. keeps_result.
Qed.

Lemma savedResults_app l l' :
  savedResults (l ++ l') = savedResults l ++ savedResults l'.
Proof. unfold savedResults. apply omap_app. Qed.

Lemma improving_app before l l' :
  improving before (l ++ l') = improving (improving before l) l'.
Proof. unfold improving. apply fold_left_app. Qed.

Lemma visibleResult_app before l l' :
  visibleResult before (l ++ l') = visibleResult (visibleResult before l) l'.
Proof. unfold visibleResult. apply fold_left_app. Qed.

Lemma inProgress_observed l :
  Forall inProgress l ->
  savedResults l = []
  /\ (forall before, visibleResult before l = before)
  /\ (forall before, improving before l = before).
Proof.
  induction 1 as [|e l He _ (IH1 & IH2 & IH3)]; [auto|].
  destruct e; simpl in He; try contradiction; simpl; auto.
Qed.

Lemma saveToCache_events r q s :
  exists l,
    saveToCache input r q s = (Resolved tt, mkPanel (service s) (ui s ++ l))
    /\ (l = []
        \/ exists videoId url,
             l = [SaveSummary videoId r url (in_language input) q]).
Proof.
  unfold saveToCache.
  destruct (in_videoId input) as [videoId|], (in_currentVideoUrl input) as [url|];
    try (exists []; rewrite app_nil_r; destruct s; split; [reflexivity|auto]).
  destruct (truthy _ && truthy _).
  - eexists [_]. split; [reflexivity|]. right. eauto.
  - exists []. rewrite app_nil_r. destruct s. split; [reflexivity|auto].
Qed.

(** The second phase: it never rejects; it writes to the cache at most
    once, and then the result on screen; when it ends, the improving
    flag is off. *)
Lemma improve_outcome initial q s :
  exists l,
    ui (snd (improve input env initial q s)) = ui s ++ l
    /\ (forall e, fst (improve input env initial q s) <> Rejected e)
    /\ (savedResults l = []
        \/ exists r, savedResults l = [r]
                     /\ visibleResult (Some initial) l = Some r)
    /\ (fst (improve input env initial q s) = Resolved tt ->
        forall before, improving before l = false).
Proof.
  destruct (improve input env initial q s) as [o s'] eqn:Ei. simpl.
  unfold improve, bind in Ei. unfold uiEvent at 1 in Ei.
  set (s0 := mkPanel (service s) (ui s ++ [SetIsImproving true])) in Ei.
  unfold callService in Ei.
  destruct (improveResult _ _ _ _ _ (service s0)) as [[improved|e|] svc] eqn:E.
  - destruct (cancelledAfterImprove env).
    + inversion Ei; subst; clear Ei.
      eexists [_; _]. simpl. rewrite <- app_assoc.
      split; [reflexivity|]. split; [discriminate|]. auto.
    + unfold uiEvent at 1 in Ei.
      destruct (saveToCache_events improved q
                  (mkPanel svc (ui s0 ++ [SetResult (Some improved)])))
        as (l & El & Hl).
      simpl in El, Ei. rewrite El in Ei. inversion Ei; subst; clear Ei.
      exists ([SetIsImproving true; SetResult (Some improved)] ++ l
                ++ [SetIsImproving false]).
      split; [simpl; rewrite <- !app_assoc; reflexivity|].
      split; [discriminate|].
      destruct Hl as [->|(videoId & url & ->)]; simpl; [auto|].
      split; [|auto]. right. eauto.
  - destruct (cancelledAfterImprove env).
    + inversion Ei; subst; clear Ei.
      eexists [_; _]. simpl. rewrite <- app_assoc.
      split; [reflexivity|]. split; [discriminate|]. auto.
    + unfold uiEvent at 1 in Ei.
      destruct (saveToCache_events initial q
                  (mkPanel svc
                     (ui s0
                        ++ [ConsoleWarn
                              (js "Improvement failed, keeping initial result:")
                              e]))) as (l & El & Hl).
      simpl in El, Ei. rewrite El in Ei. inversion Ei; subst; clear Ei.
      exists ([SetIsImproving true;
               ConsoleWarn (js "Improvement failed, keeping initial result:") e]
                ++ l ++ [SetIsImproving false]).
      split; [simpl; rewrite <- !app_assoc; reflexivity|].
      split; [discriminate|].
      destruct Hl as [->|(videoId & url & ->)]; simpl; [auto|].
      split; [|auto]. right. eauto.
  - inversion Ei; subst; clear Ei.
    eexists [_]. simpl. split; [reflexivity|]. split; [discriminate|].
    split; [auto|discriminate].
Qed.

Lemma onlyRecords_uiEvent (Q : UiEvent -> Prop) e :
  Q e -> onlyRecords Q (uiEvent e).
Proof. intros He s. exists [e]. split; [reflexivity|auto]. Qed.

Lemma onlyRecords_bind Q (m : P unit) (k : unit -> P unit) :
  onlyRecords Q m -> (forall u, onlyRecords Q (k u)) -> onlyRecords Q (bind m k).
Proof.
  intros Hm Hk s. unfold bind. destruct (Hm s) as (l & -> & Hl).
  destruct (Hk tt (mkPanel (service s) (ui s ++ l))) as (l' & -> & Hl').
  exists (l ++ l'). simpl. rewrite app_assoc. split; [reflexivity|].
  apply Forall_app; auto.
Qed.

Ltac records_step :=
  lazymatch goal with
  | |- onlyRecords _ (bind _ _) => apply onlyRecords_bind; [|intros ?]
  | |- onlyRecords _ (uiEvent _) => apply onlyRecords_uiEvent; exact I
  | |- onlyRecords _ (if ?b then _ else _) => destruct b
  | |- onlyRecords _ (match ?x with _ => _ end) => destruct x
  end.

Lemma reportsFailure_observed l :
  Forall reportsFailure l ->
  savedResults l = []
  /\ (forall before, visibleResult before l = before)
  /\ improving false l = false.
Proof.
  induction 1 as [|e l He _ (IH1 & IH2 & IH3)]; [auto|].
  destruct e; simpl in He; try contradiction; simpl; auto.
  destruct b; [contradiction|auto].
Qed.

Lemma inProgress_reportsFailure l :
  Forall inProgress l -> Forall reportsFailure l.
Proof.
  apply List.Forall_impl. intros e He.
  destruct e; simpl in *; try contradiction; auto.
Qed.

(** The outer [catch]: it returns normally; unless the request was
    cancelled it first lowers the improving flag. *)
Lemma handleFailure_outcome err s :
  exists l,
    handleFailure toLowerCase t env err s
    = (Resolved tt, mkPanel (service s) (ui s ++ l))
    /\ Forall reportsFailure l
    /\ (Forall inProgress l \/ forall before, improving before l = false).
Proof.
  unfold handleFailure. destruct (cancelledAfterGeneration env).
  - assert (H : onlyRecords inProgress clearManualRetryTimer).
    { unfold clearManualRetryTimer. repeat records_step. }
    destruct (H s) as (l & El & Hl). exists l.
    split; [exact El|]. split; [apply inProgress_reportsFailure, Hl|auto].
  - rewrite bind_uiEvent.
    match goal with
    | |- context [bind ?m ?k ?st] =>
        assert (H : onlyRecords reportsFailure (bind m k))
    end.
    { unfold clearManualRetryTimer, handleLanguageAwareError.
      repeat records_step. }
    match goal with
    | |- context [bind ?m ?k ?st] => destruct (H st) as (l & El & Hl)
    end.
    exists (SetIsImproving false :: l). rewrite El. simpl.
    rewrite <- app_assoc. split; [reflexivity|].
    split; [constructor; [exact I|exact Hl]|].
    right. intros before. simpl. apply reportsFailure_observed, Hl.
Qed.

(** The [try] block: either it only makes progress updates, or it got
    past the first phase of a request that was not cancelled. *)
Lemma summarize_outcome s :
  exists l,
    ui (snd (summarize toLowerCase t input env s)) = ui s ++ l
    /\ (Forall inProgress l
        \/ ((forall e, fst (summarize toLowerCase t input env s) <> Rejected e)
            /\ (forall before,
                  savedResults l = []
                  \/ exists r, savedResults l = [r]
                               /\ visibleResult before l = Some r)
            /\ (fst (summarize toLowerCase t input env s) = Resolved tt ->
                forall before, improving before l = false))).
Proof.
  destruct (summarize toLowerCase t input env s) as [o s'] eqn:Es. simpl.
  unfold summarize in Es.
  destruct (negb _ || _).
  { inversion Es; subst. exists []. rewrite app_nil_r. auto. }
  rewrite !bind_uiEvent in Es.
  match type of Es with
  | bind _ _ ?st = _ => set (s0 := st) in Es
  end.
  destruct (generate_appends inProgress (trim (in_userQuery input))
              ltac:(intros; exact I) ltac:(intros; exact I)
              ltac:(intros; exact I) ltac:(intros; exact I)
              ltac:(intros; exact I) s0) as (lg & Elg & Hlg).
  unfold bind at 1 in Es.
  destruct (generate toLowerCase input env (trim (in_userQuery input)) s0)
    as [[initial|e|] sg] eqn:Eg; simpl in Elg.
  - rewrite bind_uiEvent in Es.
    destruct (cancelledAfterGeneration env).
    + rewrite clearManualRetryTimer_run in Es. inversion Es; subst; clear Es.
      simpl. rewrite Elg. unfold s0. simpl.
      exists ([SetCurrentTranscript (in_transcriptText input);
               SetTranscriptLength (length (in_transcriptText input));
               SetRetryAttempt 0] ++ lg
              ++ [SetRetryAttempt 0; ClearManualRetryTimer;
                  SetCanManualRetry false]).
      split; [rewrite <- !app_assoc; reflexivity|]. left.
      repeat (apply Forall_app; split); auto; repeat constructor.
    + rewrite !bind_uiEvent in Es. unfold bind at 1 in Es.
      rewrite clearManualRetryTimer_run in Es.
      match type of Es with
      | improve _ _ _ _ ?st = _ => set (si := st) in Es
      end.
      destruct (improve_outcome initial (trim (in_userQuery input)) si)
        as (li & Eli & Hnr & Hsaved & Himp).
      rewrite Es in Eli, Hnr, Himp. simpl in Eli, Hnr, Himp.
      exists (([SetCurrentTranscript (in_transcriptText input);
                SetTranscriptLength (length (in_transcriptText input));
                SetRetryAttempt 0] ++ lg)
              ++ [SetRetryAttempt 0; SetResult (Some initial); SetStatus SUCCESS;
                  ClearManualRetryTimer; SetCanManualRetry false] ++ li).
      split.
      { rewrite Eli. unfold si. simpl. rewrite Elg. unfold s0. simpl.
        rewrite <- !app_assoc. reflexivity. }
      right. split; [exact Hnr|].
      assert (Hpre : Forall inProgress
                       ([SetCurrentTranscript (in_transcriptText input);
                         SetTranscriptLength (length (in_transcriptText input));
                         SetRetryAttempt 0] ++ lg)).
      { apply Forall_app; split; auto; repeat constructor. }
      destruct (inProgress_observed _ Hpre) as (Hs & Hv & Hi).
      split.
      * intros before.
        rewrite savedResults_app, Hs, visibleResult_app, Hv.
        simpl. exact Hsaved.
      * intros Ho before. rewrite improving_app, Hi. simpl. apply Himp, Ho.
  - inversion Es; subst; clear Es. simpl. rewrite Elg. unfold s0. simpl.
    exists ([SetCurrentTranscript (in_transcriptText input);
             SetTranscriptLength (length (in_transcriptText input));
             SetRetryAttempt 0] ++ lg).
    split; [rewrite <- !app_assoc; reflexivity|]. left.
    apply Forall_app; split; auto; repeat constructor.
  - inversion Es; subst; clear Es. simpl. rewrite Elg. unfold s0. simpl.
    exists ([SetCurrentTranscript (in_transcriptText input);
             SetTranscriptLength (length (in_transcriptText input));
             SetRetryAttempt 0] ++ lg).
    split; [rewrite <- !app_assoc; reflexivity|]. left.
    apply Forall_app; split; auto; repeat constructor.
Qed.

Lemma handleLanguageAwareError_run message details communicationError s :
  handleLanguageAwareError message details communicationError s
  = (Resolved tt,
     mkPanel (service s)
       (ui s ++ [SetStatus ERROR; SetError (Some message);
                 SetErrorDetails details;
                 SetIsCommunicationError communicationError;
                 SetShowErrorModal true])).
Proof.
  unfold handleLanguageAwareError. rewrite !bind_uiEvent. unfold uiEvent.
  simpl. rewrite <- !app_assoc. reflexivity.
Qed.

Lemma handleSummarize_outcome s :
  exists added,
    ui (snd (handleSummarize toLowerCase t input env s)) = ui s ++ added
    /\ (forall e, fst (handleSummarize toLowerCase t input env s) <> Rejected e)
    /\ (forall before,
          savedResults added = []
          \/ exists r, savedResults added = [r]
                       /\ visibleResult before added = Some r)
    /\ (forall c,
          in_credentials input = Some c -> truthy (key c) = true ->
          fst (handleSummarize toLowerCase t input env s) = Resolved tt ->
          forall before, improving before added = false).
Proof.
  destruct (handleSummarize toLowerCase t input env s) as [o sf] eqn:Eh.
  cbn [fst snd]. unfold handleSummarize in Eh.
  destruct (in_credentials input) as [credentials|] eqn:Ecred.
  2:{ rewrite handleLanguageAwareError_run in Eh. inversion Eh; subst.
      eexists. simpl. split; [reflexivity|]. split; [discriminate|].
      split; [auto|]. intros c [=]. }
  destruct (truthy (key credentials)) eqn:Ekey; cbn [negb] in Eh.
  2:{ rewrite handleLanguageAwareError_run in Eh. inversion Eh; subst.
      eexists. simpl. split; [reflexivity|]. split; [discriminate|].
      split; [auto|]. intros c [= <-]. congruence. }
  rewrite !bind_uiEvent in Eh. unfold bind at 1 in Eh.
  rewrite clearManualRetryTimer_run in Eh. rewrite !bind_uiEvent in Eh.
  match type of Eh with
  | tryCatch _ _ ?st = _ => set (sp := st) in Eh
  end.
  set (start := [CancelActiveRequest; SetCanManualRetry false;
                 ClearManualRetryTimer; SetCanManualRetry false;
                 ScheduleManualRetryTimer; SetStatus LOADING;
                 SetError None; SetResult None; SetIsFromCache false;
                 SetIsImproving false]).
  assert (Esp : ui sp = ui s ++ start).
  { unfold sp, start. simpl. rewrite <- !app_assoc. reflexivity. }
  assert (Hstart : savedResults start = []
                   /\ (forall before, visibleResult before start = None)
                   /\ (forall before, improving before start = false))
    by (repeat split; intros; reflexivity).
  destruct Hstart as (Hs0 & Hv0 & Hi0).
  clearbody sp start.
  destruct (summarize_outcome sp) as (l & El & Hl).
  unfold tryCatch in Eh.
  destruct (summarize toLowerCase t input env sp) as [[[]|e|] s1] eqn:Es;
    cbn [snd fst] in El, Hl.
  - inversion Eh; subst; clear Eh. exists (start ++ l).
    split; [rewrite El, Esp, <- app_assoc; reflexivity|].
    split; [discriminate|].
    destruct Hl as [Hl | (_ & Hsaved & Himp)].
    + destruct (inProgress_observed l Hl) as (Hs & Hv & Hi).
      split.
      * intros before. left. rewrite savedResults_app, Hs0, Hs. reflexivity.
      * intros c _ _ _ before. rewrite improving_app, Hi0, Hi. reflexivity.
    + split.
      * intros before. rewrite savedResults_app, Hs0, visibleResult_app, Hv0.
        simpl. apply Hsaved.
      * intros c _ _ _ before. rewrite improving_app. apply Himp. reflexivity.
  - destruct Hl as [Hl | (Hnr & _)]; [|exfalso; eapply Hnr; reflexivity].
    destruct (inProgress_observed l Hl) as (Hs & Hv & Hi).
    destruct (handleFailure_outcome e s1) as (l' & El' & Hrf & Himp).
    destruct (reportsFailure_observed l' Hrf) as (Hs' & Hv' & Hi').
    rewrite El' in Eh. inversion Eh; subst; clear Eh.
    exists (start ++ l ++ l'). cbn [ui].
    split; [rewrite El, Esp, <- !app_assoc; reflexivity|].
    split; [discriminate|].
    split.
    + intros before. left.
      rewrite !savedResults_app, Hs0, Hs, Hs'. reflexivity.
    + intros c _ _ _ before. rewrite !improving_app, Hi0, Hi. exact Hi'.
  - inversion Eh; subst; clear Eh. exists (start ++ l).
    split; [rewrite El, Esp, <- app_assoc; reflexivity|].
    split; [discriminate|].
    split; [|discriminate].
    destruct Hl as [Hl | (_ & Hsaved & _)].
    + destruct (inProgress_observed l Hl) as (Hs & Hv & Hi).
      intros before. left. rewrite savedResults_app, Hs0, Hs. reflexivity.
    + intros before. rewrite savedResults_app, Hs0, visibleResult_app, Hv0.
      simpl. apply Hsaved.
Qed.

(** X12. What a request writes to the summary cache is what it leaves
    on screen: the handler writes to the cache at most once, and the
    result it writes is the result shown when the handler ends (the
    improved result, or the preliminary one when the improvement
    failed). A request that fails, is cancelled or lacks a video id
    writes nothing. *)
Theorem cache_holds_what_is_shown s :
  exists added,
    ui (snd (handleSummarize toLowerCase t input env s)) = ui s ++ added
    /\ forall before,
         savedResults added = []
         \/ exists r, savedResults added = [r]
                      /\ visibleResult before added = Some r.
Proof.
  destruct (handleSummarize_outcome s) as (added & E & _ & H & _).
  exists added. auto.
Qed.




End HandlerOutcomes.

(** A superseded request with a question. *)
Lemma cancelled_request_stays_silent_witness :
  appendsOnly withoutOutcome
    (handleSummarize Decode.asciiToLowerCase id
       (parseAnswer := Decode.parseRawAnswer)
       (parseAnalysis := Decode.parseRawAnalysis)
       (parseValidation := Decode.parseValidationResult)
       (Scenario.request "why?")
       (mkSummarizeEnv
          (fun _ _ _ => Resolved Scenario.answerResponse)
          (fun _ _ _ => Resolved Scenario.analysisResponse)
          (fun _ _ => Resolved Scenario.validationResponse)
          true true true)).
Proof.
  apply (cancelled_request_stays_silent Decode.asciiToLowerCase id
           (Scenario.request "why?") _ Scenario.credentials);
    reflexivity.
Defined.




(** ** The summary cache when the storage works *)

Module SummaryStorageFacts.
Import SummaryStorage.

Lemma openDatabase_ready env st :
  dbInstance st = true \/ idb_open env = OpenSucceeds ->
  openDatabase env st
  = (Resolved tt, mkStorage true (records st) (console st)).
Proof.
  unfold openDatabase. destruct st as [[|] recs cons]; simpl.
  - reflexivity.
  - intros [H|H]; [discriminate|]. rewrite H. reflexivity.
Qed.

(** X15. A saved summary is read back. When the storage works (the
    database is open or can be opened, the transaction starts, the
    read request and then the put succeed), [saveSummary] resolves and
    a following [getSummary] of the same video returns the saved
    result, URL, language and question, with the update time of the
    save and the creation time of the record that was there before, if
    any. The summaries of other videos read as before. The read uses
    the connection the save opened: it does not depend on the database
    being openable again. *)
Theorem saved_summary_is_read_back env env' st id r url lang query :
  dbInstance st = true \/ idb_open env = OpenSucceeds ->
  idb_transactionThrows env = None ->
  idb_events env = [RequestSuccess; PutSuccess] ->
  idb_transactionThrows env' = None ->
  idb_events env' = [RequestSuccess] ->
  let saved := saveSummary env id r url lang query st in
  fst saved = Resolved tt
  /\ fst (getSummary env' id (snd saved))
     = Resolved
         (Some (mkStoredSummary id r url lang query
                  (default (idb_now env) (createdAt <$> records st !! id))
                  (idb_now env)))
  /\ forall other,
       other <> id ->
       fst (getSummary env' other (snd saved)) = Resolved (records st !! other).
Proof.
  intros Hopen Ht He Ht' He' saved.
  assert (Es : saved
               = (Resolved tt,
                  mkStorage true
                    (<[id := mkStoredSummary id r url lang query
                               (default (idb_now env)
                                  (createdAt <$> records st !! id))
                               (idb_now env)]> (records st))
                    (console st))).
  { subst saved. unfold saveSummary, bind.
    rewrite (openDatabase_ready env st Hopen).
    unfold newPromise. rewrite Ht, He. reflexivity. }
  rewrite Es. cbn [fst snd]. split; [reflexivity|].
  assert (Eg : forall key,
             fst (getSummary env' key
                    (mkStorage true
                       (<[id := mkStoredSummary id r url lang query
                                  (default (idb_now env)
                                     (createdAt <$> records st !! id))
                                  (idb_now env)]> (records st))
                       (console st)))
             = Resolved
                 ((<[id := mkStoredSummary id r url lang query
                             (default (idb_now env)
                                (createdAt <$> records st !! id))
                             (idb_now env)]> (records st)) !! key)).
  { intros key. unfold getSummary, openDatabase. cbn [dbInstance].
    unfold newPromise. rewrite Ht', He'. reflexivity. }
  split.
  - rewrite Eg, lookup_insert_eq. reflexivity.
  - intros other Hne. rewrite Eg, lookup_insert_ne by congruence. reflexivity.
Qed.

Lemma saved_summary_is_read_back_witness :
  fst (getSummary (mkIdb (OpenErrors Scenario.quotaError) None [RequestSuccess] 3000)
         (js "abc")
         (snd (saveSummary (Scenario.workingStorage 1000) (js "abc")
                 Scenario.preliminary (js "https://youtu.be/abc") (js "en") []
                 Scenario.emptyCache)))
  = Resolved
      (Some (mkStoredSummary (js "abc") Scenario.preliminary
               (js "https://youtu.be/abc") (js "en") [] 1000 1000)).
Proof.
  apply (saved_summary_is_read_back (Scenario.workingStorage 1000)
           (mkIdb (OpenErrors Scenario.quotaError) None [RequestSuccess] 3000)
           Scenario.emptyCache (js "abc") Scenario.preliminary
           (js "https://youtu.be/abc") (js "en") []);
    first [reflexivity | right; reflexivity].
Defined.

Lemma openDatabase_records env st :
  records (snd (openDatabase env st)) = records st.
Proof.
  unfold openDatabase. destruct (dbInstance st); [reflexivity|].
  destruct (idb_open env); reflexivity.
Qed.

(** What holds of the handler's variables and the storage before the
    events are delivered, and is kept by each event, holds when the
    promise settles. *)
Lemma newPromise_invariant {A L} (env : Idb) (init : L)
  (handler : IdbEvent -> L -> Storage -> Outcome A * L * Storage)
  (Inv : L -> Storage -> Prop) s :
  Inv init s ->
  (forall event l st,
     Inv l st ->
     Inv (snd (fst (handler event l st))) (snd (handler event l st))) ->
  exists l, Inv l (snd (newPromise env init handler s)).
Proof.
  intros Hinit Hstep. unfold newPromise.
  destruct (idb_transactionThrows env); [exists init; exact Hinit|].
  generalize (@Pending A) as current. revert init s Hinit.
  induction (idb_events env) as [|event events IH]; intros l st Hinv current.
  - exists l. exact Hinv.
  - simpl. specialize (Hstep event l st Hinv).
    destruct (handler event l st) as [[next l'] st']. simpl in Hstep.
    apply IH. exact Hstep.
Qed.

(** X16. A save touches one record. Whatever the storage does (the
    opening, the transaction and the requests may fail or succeed in
    any order), [saveSummary] leaves the summaries of all other videos
    as they were, and the record of its own video is either untouched
    or holds exactly the given result, URL, language and question with
    the time of the save as update time; its creation time is then the
    time of the save or the creation time of the record that was
    there. *)
Theorem save_touches_one_record env st id r url lang query :
  let st' := snd (saveSummary env id r url lang query st) in
  (forall other, other <> id -> records st' !! other = records st !! other)
  /\ (records st' !! id = records st !! id
      \/ exists created,
           records st' !! id
           = Some (mkStoredSummary id r url lang query created (idb_now env))
           /\ (created = idb_now env
               \/ createdAt <$> records st !! id = Some created)).
Proof.
  intros st'. subst st'. unfold saveSummary, bind.
  pose proof (openDatabase_records env st) as Hopen.
  destruct (openDatabase env st) as [[[]|error|] st1]; simpl in Hopen;
    cbn [snd]; try (rewrite Hopen; auto; fail).
  set (okCreated := fun created =>
         created = idb_now env
         \/ createdAt <$> records st !! id = Some created).
  set (Inv := fun (pending : option StoredSummary) (cur : Storage) =>
         (forall entry, pending = Some entry ->
            exists created,
              entry = mkStoredSummary id r url lang query created (idb_now env)
              /\ okCreated created)
         /\ (forall other, other <> id ->
               records cur !! other = records st !! other)
         /\ (records cur !! id = records st !! id
             \/ exists created,
                  records cur !! id
                  = Some (mkStoredSummary id r url lang query created
                            (idb_now env))
                  /\ okCreated created)).
  match goal with
  | |- context [newPromise env ?init ?handler st1] =>
      destruct (newPromise_invariant env init handler Inv st1) as (l & Hl)
  end.
  - unfold Inv. rewrite Hopen. split; [discriminate|]. auto.
  - intros event pending cur (Hp & Hother & Hid).
    destruct event; cbn [fst snd].
    + split; [|auto]. intros entry [= <-].
      destruct Hid as [Hid|(created & Hid & Hc)]; rewrite Hid.
      * eexists. split; [reflexivity|]. unfold okCreated.
        destruct (records st !! id); simpl; auto.
      * eexists. split; [reflexivity|]. exact Hc.
    + split; [|auto]. intros entry [= <-].
      eexists. split; [reflexivity|]. left. reflexivity.
    + destruct pending as [entry|]; cbn [fst snd run putRecord];
        [|split; auto].
      destruct (Hp entry eq_refl) as (created & -> & Hc).
      unfold Inv. cbn [records videoId]. split; [discriminate|]. split.
      * intros other Hne. rewrite lookup_insert_ne by congruence. auto.
      * right. exists created. rewrite lookup_insert_eq. auto.
    + destruct pending as [entry|]; cbn [fst snd]; split; auto.
      discriminate.
    + cbn [fst snd]. split; auto.
  - destruct Hl as (_ & Hother & Hid). split; [exact Hother|exact Hid].
Qed.

(** A save whose put request fails: the record of another video and
    the missing record of this one are as before. *)
Lemma save_touches_one_record_witness :
  let failing :=
    mkIdb OpenSucceeds None [RequestSuccess; PutError Scenario.quotaError]
      2000 in
  let saved :=
    snd (saveSummary (Scenario.workingStorage 1000) (js "abc")
           Scenario.preliminary (js "https://youtu.be/abc") (js "en") []
           Scenario.emptyCache) in
  records (snd (saveSummary failing (js "xyz") Scenario.improved
                  (js "https://youtu.be/xyz") (js "en") [] saved))
    !! js "abc"
  = records saved !! js "abc".
Proof.
  intros failing saved.
  apply (proj1 (save_touches_one_record failing saved (js "xyz")
                  Scenario.improved (js "https://youtu.be/xyz") (js "en") [])
           (js "abc")).
  discriminate.
Defined.

(** X17. A deleted summary is gone, and only it: when the storage
    works, [deleteSummary] resolves, the deleted video then reads as
    [null] and the other videos as before; after [clearAllSummaries]
    the list of all summaries is empty. *)
Theorem deleted_summary_is_gone env env' st id :
  dbInstance st = true \/ idb_open env = OpenSucceeds ->
  idb_transactionThrows env = None ->
  idb_events env = [RequestSuccess] ->
  idb_transactionThrows env' = None ->
  idb_events env' = [RequestSuccess] ->
  let deleted := deleteSummary env id st in
  fst deleted = Resolved tt
  /\ fst (getSummary env' id (snd deleted)) = Resolved None
  /\ (forall other,
        other <> id ->
        fst (getSummary env' other (snd deleted))
        = Resolved (records st !! other))
  /\ fst (clearAllSummaries env st) = Resolved tt
  /\ fst (getAllSummaries env' (snd (clearAllSummaries env st))) = Resolved [].
Proof.
  intros Hopen Ht He Ht' He' deleted.
  assert (Ed : deleted
               = (Resolved tt,
                  mkStorage true (delete id (records st)) (console st))).
  { subst deleted. unfold deleteSummary, bind.
    rewrite (openDatabase_ready env st Hopen).
    unfold newPromise. rewrite Ht, He. reflexivity. }
  assert (Ec : clearAllSummaries env st
               = (Resolved tt, mkStorage true ∅ (console st))).
  { unfold clearAllSummaries, bind.
    rewrite (openDatabase_ready env st Hopen).
    unfold newPromise. rewrite Ht, He. reflexivity. }
  assert (Eg : forall key recs,
             fst (getSummary env' key (mkStorage true recs (console st)))
             = Resolved (recs !! key)).
  { intros key recs. unfold getSummary, openDatabase. cbn [dbInstance].
    unfold newPromise. rewrite Ht', He'. reflexivity. }
  rewrite Ed, Ec. cbn [fst snd]. rewrite !Eg.
  split; [reflexivity|]. split; [rewrite lookup_delete_eq; reflexivity|].
  split; [intros other Hne; rewrite Eg, lookup_delete_ne by congruence;
          reflexivity|].
  split; [reflexivity|].
  unfold getAllSummaries, openDatabase. cbn [dbInstance].
  unfold newPromise. rewrite Ht', He'. cbn [fst snd List.fold_left settle].
  unfold allRecords. cbn [records]. rewrite map_to_list_empty. reflexivity.
Qed.

Lemma deleted_summary_is_gone_witness :
  let working := mkIdb OpenSucceeds None [RequestSuccess] 3000 in
  let saved :=
    snd (saveSummary (Scenario.workingStorage 1000) (js "abc")
           Scenario.preliminary (js "https://youtu.be/abc") (js "en") []
           Scenario.emptyCache) in
  fst (getSummary working (js "abc")
         (snd (deleteSummary working (js "abc") saved)))
  = Resolved None.
Proof.
  intros working saved.
  apply (deleted_summary_is_gone working working saved (js "abc"));
    first [reflexivity | left; reflexivity].
Defined.

(** X18. A transaction that cannot be started fails every operation,
    the reads included: with an open connection on which
    [db.transaction] throws, each of the five operations rejects with
    the thrown error and leaves the records and the console as they
    were. The [catch] of [getSummary] and [getAllSummaries] does not
    cover it, since the promise is returned without being awaited. *)
Theorem transaction_failure_rejects env st error id r url lang query :
  dbInstance st = true ->
  idb_transactionThrows env = Some error ->
  saveSummary env id r url lang query st = (Rejected error, st)
  /\ getSummary env id st = (Rejected error, st)
  /\ deleteSummary env id st = (Rejected error, st)
  /\ getAllSummaries env st = (Rejected error, st)
  /\ clearAllSummaries env st = (Rejected error, st).
Proof.
  intros Hdb Ht.
  unfold saveSummary, getSummary, deleteSummary, getAllSummaries,
    clearAllSummaries, bind, openDatabase, newPromise.
  rewrite Hdb, Ht. repeat split; reflexivity.
Qed.

Lemma transaction_failure_rejects_witness :
  let stale :=
    mkIdb OpenSucceeds (Some Scenario.quotaError) [RequestSuccess] 3000 in
  let opened := mkStorage true ∅ [] in
  getSummary stale (js "abc") opened = (Rejected Scenario.quotaError, opened).
Proof.
  intros stale opened.
  apply (transaction_failure_rejects stale opened Scenario.quotaError
           (js "abc") Scenario.preliminary [] [] []); reflexivity.
Defined.

End SummaryStorageFacts.


(** ** The stored API key: writing and reading back *)

Module ApiKeyStorageFacts.
Import Json Decode ApiKeyStorage.
#[local] Open Scope N_scope.

(** *** Strings written by [JSON.stringify] are read back *)

Lemma readString_default c rest :
  c <> 34 -> c <> 92 ->
  readString (c :: rest)
  = if (c <? 32) || (c =? 92) then None
    else '(chars, rest') ← readString rest; Some (c :: chars, rest').
Proof.
  intros H1 H2. destruct c as [|p]; [reflexivity|].
  do 7 (try (destruct p as [p|p|]; try reflexivity)); congruence.
Qed.

Lemma readString_plain c rest :
  32 <= c -> c <> 34 -> c <> 92 ->
  readString (c :: rest)
  = '(chars, rest') ← readString rest; Some (c :: chars, rest').
Proof.
  intros H0 H1 H2. rewrite readString_default by assumption.
  destruct (N.ltb_spec c 32); [lia|].
  destruct (N.eqb_spec c 92); [lia|]. reflexivity.
Qed.

Lemma hexValue_hexDigit n : n < 16 -> hexValue (hexDigit n) = Some n.
Proof.
  intros H.
  assert (Hn : In n [0;1;2;3;4;5;6;7;8;9;10;11;12;13;14;15]).
  { simpl. lia. }
  simpl in Hn.
  repeat (destruct Hn as [<-|Hn]; [reflexivity|]). contradiction.
Qed.

Lemma readString_unicodeEscape c rest :
  c < 65536 ->
  readString (unicodeEscape c ++ rest)
  = '(chars, rest') ← readString rest; Some (c :: chars, rest').
Proof.
  intros H. unfold unicodeEscape.
  cbn [app readString].
  rewrite !hexValue_hexDigit
    by (zify; Z.to_euclidean_division_equations; lia).
  replace (c / 4096 * 4096 + c / 256 mod 16 * 256 + c / 16 mod 16 * 16
           + c mod 16) with c
    by (zify; Z.to_euclidean_division_equations; lia).
  reflexivity.
Qed.

Lemma readString_escapeUnit c rest :
  isHighSurrogate c = false -> isLowSurrogate c = false ->
  readString (escapeUnit c ++ rest)
  = '(chars, rest') ← readString rest; Some (c :: chars, rest').
Proof.
  intros _ _. unfold escapeUnit.
  repeat match goal with
         | |- context [if (c =? ?k) then _ else _] =>
             destruct (N.eqb_spec c k); [subst c; reflexivity|]
         end.
  destruct (N.ltb_spec c 32).
  - apply readString_unicodeEscape. lia.
  - apply readString_plain; assumption.
Qed.

Lemma surrogate_plain c rest :
  isHighSurrogate c = true \/ isLowSurrogate c = true ->
  c < 65536
  /\ readString (c :: rest)
     = '(chars, rest') ← readString rest; Some (c :: chars, rest').
Proof.
  unfold isHighSurrogate, isLowSurrogate. intros H.
  assert (55296 <= c <= 57343).
  { destruct H as [H|H]; apply andb_true_iff in H; destruct H as [H1 H2];
      apply N.leb_le in H1, H2; lia. }
  split; [lia|]. apply readString_plain; lia.
Qed.

Lemma readString_quoteUnits_aux n : forall s rest,
  (length s <= n)%nat ->
  readString (quoteUnits s ++ 34 :: rest) = Some (s, rest).
Proof.
  induction n as [|n IH]; intros s rest Hlen.
  { destruct s; [reflexivity|simpl in Hlen; lia]. }
  destruct s as [|c s]; [reflexivity|]. simpl in Hlen.
  cbn [quoteUnits].
  destruct (isHighSurrogate c) eqn:Hh.
  - destruct (surrogate_plain c (s ++ 34 :: rest) (or_introl Hh)) as [Hc _].
    destruct s as [|d s].
    + rewrite readString_unicodeEscape by exact Hc. reflexivity.
    + destruct (isLowSurrogate d) eqn:Hl.
      * cbn [app].
        rewrite (proj2 (surrogate_plain c _ (or_introl Hh))).
        rewrite (proj2 (surrogate_plain d _ (or_intror Hl))).
        rewrite IH by (simpl in Hlen; lia). reflexivity.
      * rewrite <- app_assoc, readString_unicodeEscape by exact Hc.
        rewrite IH by lia. reflexivity.
  - destruct (isLowSurrogate c) eqn:Hl.
    + destruct (surrogate_plain c (s ++ 34 :: rest) (or_intror Hl)) as [Hc _].
      rewrite <- app_assoc, readString_unicodeEscape by exact Hc.
      rewrite IH by lia. reflexivity.
    + rewrite <- app_assoc, readString_escapeUnit by assumption.
      rewrite IH by lia. reflexivity.
Qed.

Lemma readString_quoteUnits s rest :
  readString (quoteUnits s ++ 34 :: rest) = Some (s, rest).
Proof. apply (readString_quoteUnits_aux (length s)). lia. Qed.

Lemma serializeCredentials_text value :
  serializeCredentials value
  = 123 :: 34 :: quoteUnits (js "provider")
      ++ 34 :: 58 :: 34 :: quoteUnits (stored_provider value)
      ++ 34 :: 44 :: 34 :: quoteUnits (js "key")
      ++ 34 :: 58 :: 34 :: quoteUnits (stored_key value)
      ++ 34 :: [125].
Proof.
  unfold serializeCredentials, quoteJSONString.
  change (js "{") with [123]. change (js ":") with [58].
  change (js ",") with [44]. change (js "}") with [125].
  cbn [app]. rewrite <- !app_assoc. cbn [app]. reflexivity.
Qed.

Lemma readValue_string f s rest :
  readValue (S f) (34 :: quoteUnits s ++ 34 :: rest) = Some (JString s, rest).
Proof. cbn [readValue]. rewrite readString_quoteUnits. reflexivity. Qed.

Ltac json_step :=
  cbn [readValue readMembers skipSpace isJsonSpace N.eqb Pos.eqb orb mbind
         option_bind].

Lemma readMembers_last f k v rest :
  readMembers (S (S f))
    (34 :: quoteUnits k ++ 34 :: 58 :: 34 :: quoteUnits v ++ 34 :: 125 :: rest)
  = Some ([(k, JString v)], rest).
Proof.
  json_step. rewrite readString_quoteUnits. json_step.
  rewrite readString_quoteUnits. json_step. reflexivity.
Qed.

Lemma readMembers_more f k v text :
  readMembers (S (S f))
    (34 :: quoteUnits k ++ 34 :: 58 :: 34 :: quoteUnits v ++ 34 :: 44 :: text)
  = '(members, rest) ← readMembers (S f) text;
    Some ((k, JString v) :: members, rest).
Proof.
  json_step. rewrite readString_quoteUnits. json_step.
  rewrite readString_quoteUnits. json_step. reflexivity.
Qed.

Lemma readValue_credentials f value :
  readValue (S (S (S (S f)))) (serializeCredentials value)
  = Some (JObject [(js "provider", JString (stored_provider value));
                   (js "key", JString (stored_key value))], []).
Proof.
  rewrite serializeCredentials_text.
  cbn [readValue skipSpace isJsonSpace N.eqb Pos.eqb orb].
  rewrite readMembers_more, readMembers_last. reflexivity.
Qed.

Lemma parse_serializeCredentials value :
  parse (serializeCredentials value)
  = Some (JObject [(js "provider", JString (stored_provider value));
                   (js "key", JString (stored_key value))]).
Proof.
  unfold parse.
  assert (Hs : skipSpace (serializeCredentials value)
               = serializeCredentials value).
  { rewrite serializeCredentials_text. reflexivity. }
  assert (Hf : exists f,
             (2 * length (serializeCredentials value) + 2)%nat
             = S (S (S (S f)))).
  { exists (2 * (length (serializeCredentials value) - 1))%nat.
    rewrite serializeCredentials_text. cbn [length]. lia. }
  destruct Hf as (f & ->). rewrite Hs, readValue_credentials. reflexivity.
Qed.

Lemma parseStoredCredentials_serialized value :
  parseStoredCredentials (parser := json_parse)
    (Some (serializeCredentials value))
  = Some value.
Proof.
  unfold parseStoredCredentials.
  assert (Ht : truthy (serializeCredentials value) = true).
  { rewrite serializeCredentials_text. reflexivity. }
  rewrite Ht. cbn [negb]. unfold JSON_parse, json_parse.
  rewrite parse_serializeCredentials.
  destruct value as [p k]. reflexivity.
Qed.

(** The first character decides the kind of value read. *)
Lemma readValue_cons f c rest :
  readValue (S f) (c :: rest)
  = if c =? 123 then
      match skipSpace rest with
      | 125 :: rest' => Some (JObject [], rest')
      | _ =>
          '(members, rest') ← readMembers f rest;
          Some (JObject members, rest')
      end
    else if c =? 91 then
      match skipSpace rest with
      | 93 :: rest' => Some (JArray [], rest')
      | _ =>
          '(elements, rest') ← readElements f rest;
          Some (JArray elements, rest')
      end
    else if c =? 34 then
      '(chars, rest') ← readString rest; Some (JString chars, rest')
    else
      match stripPrefixExact (js "true") (c :: rest),
            stripPrefixExact (js "false") (c :: rest),
            stripPrefixExact (js "null") (c :: rest) with
      | Some rest', _, _ => Some (JBool true, rest')
      | _, Some rest', _ => Some (JBool false, rest')
      | _, _, Some rest' => Some (JNull, rest')
      | _, _, _ =>
          '(lexeme, rest') ← readNumber (c :: rest); Some (JNumber lexeme, rest')
      end.
Proof.
  destruct c as [|p]; [reflexivity|].
  do 7 (try (destruct p as [p|p|]; try reflexivity)).
Qed.

Lemma readValue_object f s members rest :
  readValue f s = Some (JObject members, rest) ->
  exists s', s = 123 :: s'.
Proof.
  destruct f as [|f]; [discriminate|].
  destruct s as [|c s].
  { cbn. discriminate. }
  rewrite readValue_cons.
  destruct (N.eqb_spec c 123) as [->|_]; [eauto|].
  intros H. exfalso. revert H. unfold mbind, option_bind.
  destruct (c =? 91); [|destruct (c =? 34)];
    repeat match goal with
           | |- context [match ?x with _ => _ end] => destruct x
           end; discriminate.
Qed.

(** *** The operations *)

Lemma skipSpace_trimStart s c rest :
  skipSpace s = c :: rest -> isWhiteSpace c = false ->
  trimStart s = c :: rest.
Proof.
  intros Hs Hc. induction s as [|x s IH]; [discriminate|].
  simpl in Hs. simpl. destruct (isJsonSpace x) eqn:Hx.
  - assert (Hw : isWhiteSpace x = true).
    { unfold isJsonSpace in Hx. apply orb_true_iff in Hx.
      destruct Hx as [Hx|Hx]; [apply orb_true_iff in Hx;
        destruct Hx as [Hx|Hx]; [apply orb_true_iff in Hx;
          destruct Hx as [Hx|Hx]|]|];
        apply N.eqb_eq in Hx; subst x; reflexivity. }
    rewrite Hw. apply IH. exact Hs.
  - injection Hs as -> ->. rewrite Hc. reflexivity.
Qed.

Lemma trimEnd_head c s :
  isWhiteSpace c = false -> exists s', trimEnd (c :: s) = c :: s'.
Proof.
  intros Hc. unfold trimEnd. simpl. rewrite trimStart_snoc by exact Hc.
  rewrite rev_app_distr. simpl. eauto.
Qed.

(** A text that reads as a JSON object starts, after white space,
    with an opening brace. *)
Lemma parsed_object_starts_with_brace raw members :
  parse raw = Some (JObject members) -> prefixb (js "{") (trim raw) = true.
Proof.
  unfold parse. intros H.
  destruct (readValue _ (skipSpace raw)) as [[v rest]|] eqn:Ev;
    [|discriminate].
  simpl in H. destruct (skipSpace rest); [|discriminate].
  injection H as ->.
  apply readValue_object in Ev. destruct Ev as (s' & Es).
  unfold trim. rewrite (skipSpace_trimStart raw 123 s' Es eq_refl).
  destruct (trimEnd_head 123 s' eq_refl) as (s'' & ->). reflexivity.
Qed.

Lemma saveUserApiKey_then_get backends access credentials s :
  hasChromeStorage backends = true \/ hasLocalStorage backends = true ->
  lastError access = None ->
  localStorageThrows access = None ->
  trim (stored_key credentials) <> [] ->
  exists s',
    saveUserApiKey backends access credentials s = (Resolved tt, s')
    /\ fst (getUserApiKey (parser := json_parse) backends access s')
       = Resolved (Some (mkStored (stored_provider credentials)
                           (trim (stored_key credentials)))).
Proof.
  intros Hb He Ht Hk.
  unfold saveUserApiKey, getUserApiKey, tryCatch, bind,
    setChromeStorage, getFromChromeStorage, localSetItem, localGetItem.
  destruct (trim (stored_key credentials)) as [|c k] eqn:Ek; [congruence|].
  cbn [truthy negb]. rewrite He, Ht.
  destruct (hasChromeStorage backends).
  - eexists. split; [reflexivity|].
    cbn [fst snd chromeLocal]. rewrite lookup_insert_eq.
    rewrite parseStoredCredentials_serialized. reflexivity.
  - destruct (hasLocalStorage backends); [|destruct Hb; discriminate].
    eexists. split; [reflexivity|].
    cbn [negb fst snd localStorage]. rewrite lookup_insert_eq.
    rewrite parseStoredCredentials_serialized. reflexivity.
Qed.

(** X19. What [saveUserApiKey] stores, [getUserApiKey] reads back:
    when the page has a storage and the storage works, saving
    credentials whose key is not blank resolves, and reading then
    returns the same provider with the trimmed key, whatever
    characters they contain (quotation marks, backslashes, control
    characters and unpaired surrogates included). *)
Theorem saved_key_is_read_back backends access credentials s :
  hasChromeStorage backends = true \/ hasLocalStorage backends = true ->
  lastError access = None ->
  localStorageThrows access = None ->
  trim (stored_key credentials) <> [] ->
  let saved := saveUserApiKey backends access credentials s in
  fst saved = Resolved tt
  /\ fst (getUserApiKey (parser := json_parse) backends access (snd saved))
     = Resolved (Some (mkStored (stored_provider credentials)
                         (trim (stored_key credentials)))).
Proof.
  intros Hb He Ht Hk saved. subst saved.
  destruct (saveUserApiKey_then_get backends access credentials s Hb He Ht Hk)
    as (s' & -> & Hg).
  split; [reflexivity|exact Hg].
Qed.

Lemma saved_key_is_read_back_witness :
  let backends := mkBackends false true in
  let access := mkAccess None None in
  let credentials := mkStored (js "openai") (jsq " sk-'quoted'\key ") in
  fst (getUserApiKey (parser := json_parse) backends access
         (snd (saveUserApiKey backends access credentials
                 (mkKeyStore ∅ ∅ []))))
  = Resolved (Some (mkStored (js "openai") (jsq "sk-'quoted'\key"))).
Proof.
  intros backends access credentials.
  apply (saved_key_is_read_back backends access credentials
           (mkKeyStore ∅ ∅ [])).
  - right. reflexivity.
  - reflexivity.
  - reflexivity.
  - vm_compute. discriminate.
Defined.

(** X20. A key stored by an older version as plain text is still
    read: a stored text that is not empty and does not start, after
    white space, with an opening brace is returned as the key of the
    fallback provider [google], unchanged (not trimmed), whether or
    not it happens to be valid JSON. *)
Theorem legacy_key_is_read raw :
  raw <> [] ->
  prefixb (js "{") (trim raw) = false ->
  parseStoredCredentials (parser := json_parse) (Some raw)
  = Some (mkStored FALLBACK_PROVIDER raw).
Proof.
  intros Hne Hb. unfold parseStoredCredentials.
  destruct raw as [|c raw]; [congruence|]. cbn [truthy negb].
  rewrite Hb. cbn [negb]. unfold JSON_parse, json_parse.
  destruct (parse (c :: raw)) as [parsed|] eqn:Ep; [|reflexivity].
  destruct (storedKey parsed) as [k|] eqn:Ek; [|reflexivity].
  exfalso. destruct parsed; try discriminate.
  apply parsed_object_starts_with_brace in Ep. congruence.
Qed.

Lemma legacy_key_is_read_witness :
  parseStoredCredentials (parser := json_parse) (Some (js "12345 "))
  = Some (mkStored (js "google") (js "12345 ")).
Proof.
  apply (legacy_key_is_read (js "12345 "));
    [discriminate|vm_compute; reflexivity].
Defined.

(** X21. [getUserApiKey] never rejects and never writes: whatever the
    storage holds and however the access fails, it resolves, with
    [null] after logging the failure when the storage cannot be read,
    and leaves both storages as they were. *)
Theorem getUserApiKey_never_rejects {parser : JsonParse json} backends access
  s :
  let run := getUserApiKey backends access s in
  (exists credentials, fst run = Resolved credentials)
  /\ chromeLocal (snd run) = chromeLocal s
  /\ localStorage (snd run) = localStorage s
  /\ (forall error,
        (hasChromeStorage backends = true /\ lastError access = Some error)
        \/ (hasChromeStorage backends = false
            /\ hasLocalStorage backends = true
            /\ localStorageThrows access = Some error) ->
        run = (Resolved None,
               mkKeyStore (chromeLocal s) (localStorage s)
                 (keyConsole s
                    ++ [(js "Failed to load stored API key", error)]))).
Proof.
  intros run. subst run.
  unfold getUserApiKey, tryCatch, bind, getFromChromeStorage, localGetItem,
    logError, ret.
  destruct (hasChromeStorage backends).
  - destruct (lastError access) as [e|]; cbn [fst snd chromeLocal localStorage].
    + repeat split; eauto.
      intros error [(_ & [= <-])|(Hf & _)]; [reflexivity|discriminate].
    + repeat split; eauto.
      intros error [(_ & Hf)|(Hf & _)]; discriminate.
  - destruct (hasLocalStorage backends).
    + destruct (localStorageThrows access) as [e|];
        cbn [fst snd chromeLocal localStorage].
      * repeat split; eauto.
        intros error [(Hf & _)|(_ & _ & [= <-])]; [discriminate|reflexivity].
      * repeat split; eauto.
        intros error [(Hf & _)|(_ & _ & Hf)]; discriminate.
    + cbn [fst snd]. repeat split; eauto.
      intros error [(Hf & _)|(_ & Hf & _)]; discriminate.
Qed.

(** A page whose [chrome.storage] reports an error. *)
Lemma getUserApiKey_never_rejects_witness :
  let denied := Error (js "Error") (js "Access denied") in
  fst (getUserApiKey (parser := json_parse) (mkBackends true true)
         (mkAccess (Some denied) None)
         (mkKeyStore {[ STORAGE_KEY := js "legacy-key" ]} ∅ []))
  = Resolved None.
Proof.
  intros denied.
  rewrite (proj2 (proj2 (proj2
             (getUserApiKey_never_rejects (parser := json_parse)
                (mkBackends true true) (mkAccess (Some denied) None)
                (mkKeyStore {[ STORAGE_KEY := js "legacy-key" ]} ∅ []))))
             denied (or_introl (conj eq_refl eq_refl))).
  reflexivity.
Defined.

(** X22. A cleared key is gone: when the storage works,
    [getUserApiKey] after [clearUserApiKey] returns [null], whichever
    storage the page has. *)
Theorem cleared_key_reads_null {parser : JsonParse json} backends access s :
  lastError access = None ->
  localStorageThrows access = None ->
  fst (clearUserApiKey backends access s) = Resolved tt
  /\ fst (getUserApiKey backends access
            (snd (clearUserApiKey backends access s)))
     = Resolved None.
Proof.
  intros He Ht.
  unfold clearUserApiKey, getUserApiKey, tryCatch, bind, setChromeStorage,
    getFromChromeStorage, localRemoveItem, localGetItem.
  rewrite He, Ht.
  destruct (hasChromeStorage backends).
  - cbn [fst snd chromeLocal]. rewrite lookup_delete_eq. auto.
  - destruct (hasLocalStorage backends).
    + cbn [fst snd localStorage]. rewrite lookup_delete_eq. auto.
    + auto.
Qed.

Lemma cleared_key_reads_null_witness :
  let backends := mkBackends true false in
  let access := mkAccess None None in
  fst (getUserApiKey (parser := json_parse) backends access
         (snd (clearUserApiKey backends access
                 (mkKeyStore {[ STORAGE_KEY := js "legacy-key" ]} ∅ []))))
  = Resolved None.
Proof.
  intros backends access.
  apply (cleared_key_reads_null backends access); reflexivity.
Defined.

End ApiKeyStorageFacts.


(** ** Timestamps *)

Module TimestampFacts.
Import Json Timestamps.
#[local] Open Scope N_scope.

Lemma digit_not_colon c : isDigit c = true -> isColon c = false.
Proof.
  unfold isDigit, isColon. intros H. apply andb_true_iff in H.
  destruct H as [H1 H2]. apply N.leb_le in H2. apply N.eqb_neq. lia.
Qed.

Lemma digitsColon_two a b rest :
  isDigit a = true -> isDigit b = true ->
  digitsColon (a :: b :: 58 :: rest) = [([a; b; 58], rest)].
Proof.
  intros Ha Hb. unfold digitsColon.
  rewrite Ha, Hb, (digit_not_colon b Hb). reflexivity.
Qed.

Lemma digitsColon_one a rest :
  isDigit a = true -> digitsColon (a :: 58 :: rest) = [([a; 58], rest)].
Proof.
  intros Ha. unfold digitsColon. rewrite Ha.
  destruct rest; reflexivity.
Qed.

Lemma digitsColon_digits a b rest :
  isDigit a = true -> isDigit b = true ->
  match rest with c :: _ => isColon c = false | [] => True end ->
  digitsColon (a :: b :: rest) = [].
Proof.
  intros Ha Hb Hr. unfold digitsColon.
  rewrite (digit_not_colon b Hb), andb_false_r.
  destruct rest as [|c rest]; [reflexivity|]. rewrite Hr, andb_false_r.
  reflexivity.
Qed.

Lemma twoDigits_digits a b rest :
  isDigit a = true -> isDigit b = true -> twoDigits (a :: b :: rest) = Some [a; b].
Proof. intros Ha Hb. unfold twoDigits. rewrite Ha, Hb. reflexivity. Qed.

Lemma matchTimestamp_here s m :
  matchHere s = Some m -> matchTimestamp s = Some m.
Proof. intros H. destruct s; cbn [matchTimestamp]; rewrite H; reflexivity. Qed.

Lemma splitColon_nonempty s : splitColon s <> [].
Proof.
  induction s as [|c s IH]; simpl; [discriminate|].
  destruct (splitColon s); [discriminate|]. destruct (isColon c); discriminate.
Qed.

Lemma splitColon_digit c s :
  isColon c = false ->
  splitColon (c :: s)
  = match splitColon s with
    | part :: parts => (c :: part) :: parts
    | [] => [[c]]
    end.
Proof. intros Hc. simpl. rewrite Hc. reflexivity. Qed.

Lemma splitColon_colon s : splitColon (58 :: s) = [] :: splitColon s.
Proof.
  simpl. pose proof (splitColon_nonempty s).
  destruct (splitColon s); [contradiction|reflexivity].
Qed.

Lemma numberOfDigits_two a b :
  isDigit a = true -> isDigit b = true ->
  numberOfDigits [a; b] = Some (10 * digitValue a + digitValue b).
Proof.
  intros Ha Hb. unfold numberOfDigits. simpl. rewrite Ha, Hb. reflexivity.
Qed.

Lemma numberOfDigits_one a :
  isDigit a = true -> numberOfDigits [a] = Some (digitValue a).
Proof. intros Ha. unfold numberOfDigits. simpl. rewrite Ha. reflexivity. Qed.

(** X23. A timestamp with hours is read as hours, minutes and
    seconds: for decimal digits, the text [hh:mm:ss] parses to
    3600 hh + 60 mm + ss seconds, and so does [h:mm:ss] with a
    one-digit hour. The fields are not range checked (minutes and
    seconds up to 99 are accepted). *)
Theorem timestamp_with_hours a b c d e f :
  isDigit a = true -> isDigit b = true -> isDigit c = true ->
  isDigit d = true -> isDigit e = true -> isDigit f = true ->
  parseTimestampToSeconds [a; b; 58; c; d; 58; e; f]
  = Some (3600 * (10 * digitValue a + digitValue b)
          + 60 * (10 * digitValue c + digitValue d)
          + (10 * digitValue e + digitValue f))
  /\ parseTimestampToSeconds [b; 58; c; d; 58; e; f]
     = Some (3600 * digitValue b
             + 60 * (10 * digitValue c + digitValue d)
             + (10 * digitValue e + digitValue f)).
Proof.
  intros Ha Hb Hc Hd He Hf.
  pose proof (digit_not_colon _ Ha). pose proof (digit_not_colon _ Hb).
  pose proof (digit_not_colon _ Hc). pose proof (digit_not_colon _ Hd).
  pose proof (digit_not_colon _ He). pose proof (digit_not_colon _ Hf).
  unfold parseTimestampToSeconds. cbn [truthy negb]. split.
  - rewrite (matchTimestamp_here _ [a; b; 58; c; d; 58; e; f]).
    + rewrite splitColon_digit, splitColon_digit, splitColon_colon,
        splitColon_digit, splitColon_digit, splitColon_colon,
        splitColon_digit, splitColon_digit by assumption.
      cbn [splitColon mapM].
      rewrite !numberOfDigits_two by assumption.
      cbn [mbind option_bind mret option_ret List.fold_left]. f_equal. lia.
    + unfold matchHere. rewrite digitsColon_two by assumption.
      cbn [firstSome]. rewrite digitsColon_two by assumption.
      cbn [firstSome]. rewrite twoDigits_digits by assumption. reflexivity.
  - rewrite (matchTimestamp_here _ [b; 58; c; d; 58; e; f]).
    + rewrite splitColon_digit, splitColon_colon,
        splitColon_digit, splitColon_digit, splitColon_colon,
        splitColon_digit, splitColon_digit by assumption.
      cbn [splitColon mapM].
      rewrite !numberOfDigits_two, numberOfDigits_one by assumption.
      cbn [mbind option_bind mret option_ret List.fold_left]. f_equal. lia.
    + unfold matchHere. rewrite digitsColon_one by assumption.
      cbn [firstSome]. rewrite digitsColon_two by assumption.
      cbn [firstSome]. rewrite twoDigits_digits by assumption. reflexivity.
Qed.


Lemma timestamp_with_hours_witness :
  parseTimestampToSeconds (js "01:02:03") = Some 3723.
Proof.
  apply (proj1 (timestamp_with_hours 48 49 48 50 48 51
                  eq_refl eq_refl eq_refl eq_refl eq_refl eq_refl)).
Defined.

Lemma matchHere_no_colon s :
  Forall (fun c => isColon c = false) s -> matchHere s = None.
Proof.
  intros H. unfold matchHere.
  assert (E : digitsColon s = []).
  { unfold digitsColon.
    destruct H as [|a s Ha [|b s' Hb [|c s'' Hc _]]]; try reflexivity.
    - rewrite Hb, andb_false_r. reflexivity.
    - rewrite Hb, Hc, !andb_false_r. reflexivity. }
  rewrite E. reflexivity.
Qed.

(** X24. A text without a colon is no timestamp: whatever else it
    contains (a plain number of seconds, for example),
    [parseTimestampToSeconds] returns [null]. *)
Theorem timestamp_needs_a_colon s :
  Forall (fun c => isColon c = false) s -> parseTimestampToSeconds s = None.
Proof.
  intros H. unfold parseTimestampToSeconds.
  destruct (negb (truthy s)); [reflexivity|].
  assert (E : matchTimestamp s = None).
  { induction H as [|c s Hc Hs IH]; [reflexivity|].
    cbn [matchTimestamp].
    rewrite (matchHere_no_colon (c :: s)) by (constructor; assumption).
    exact IH. }
  rewrite E. reflexivity.
Qed.

Lemma timestamp_needs_a_colon_witness :
  parseTimestampToSeconds (js "75 seconds") = None.
Proof.
  apply (timestamp_needs_a_colon (js "75 seconds")).
  repeat constructor.
Defined.

Lemma allBelow_spec n f : allBelow n f = true -> forall k, k < n -> f k = true.
Proof.
  unfold allBelow.
  assert (H : fst (N.iter n (fun '(k, ok) => (k + 1, ok && f k)) (0, true)) = n
              /\ (snd (N.iter n (fun '(k, ok) => (k + 1, ok && f k)) (0, true))
                  = true -> forall k, k < n -> f k = true)).
  { induction n as [|n IH] using N.peano_ind.
    - simpl. split; [reflexivity|]. intros _ k Hk. lia.
    - rewrite N.iter_succ.
      destruct (N.iter n _ (0, true)) as [j ok]. simpl in IH.
      destruct IH as [-> IH]. simpl. split; [lia|].
      intros Hok k Hk. apply andb_true_iff in Hok. destruct Hok as [Hok Hf].
      destruct (N.eq_dec k n) as [->|Hne]; [exact Hf|].
      apply IH; [exact Hok|lia]. }
  apply H.
Qed.

(** X25. Times written by [formatTime] are read back by
    [parseTimestampToSeconds] up to 99 minutes and 59 seconds. For a
    whole number of seconds [n] below 60000 the text [formatTime n]
    parses to [n mod 6000]: exactly [n] below 100 minutes; from 100
    minutes on the hundreds of minutes are lost, since the pattern
    takes at most two digits before a colon. *)
Theorem formatted_time_is_read_back n :
  n < 60000 -> parseTimestampToSeconds (formatTime n) = Some (n mod 6000).
Proof.
  intros H.
  assert (Hall : allBelow 60000 readBack = true) by (vm_compute; reflexivity).
  pose proof (allBelow_spec _ _ Hall n H) as Hn. unfold readBack in Hn.
  destruct (parseTimestampToSeconds (formatTime n)); [|discriminate].
  apply N.eqb_eq in Hn. congruence.
Qed.

Lemma formatted_time_is_read_back_witness :
  parseTimestampToSeconds (formatTime 754) = Some 754
  /\ parseTimestampToSeconds (formatTime 6005) = Some 5.
Proof.
  split.
  - apply (formatted_time_is_read_back 754). reflexivity.
  - apply (formatted_time_is_read_back 6005). reflexivity.
Defined.

End TimestampFacts.


(** ** Setting up the key *)

Module KeySetupFacts.
Import Json ApiKeyStorage KeySetup.

(** X26. A key the provider did not accept is not stored: when the
    probe of [validateProviderCredentials] fails or never settles,
    [persistApiKey] does not resolve, leaves the key storage as it
    was and updates no state of the component. *)
Theorem unverified_key_is_not_stored t respond backends access chosen apiKey s :
  (forall response,
     respond (clientOf (mkCredentials chosen (trim apiKey)) 0 8 0) RespondWithOK
     <> Resolved response) ->
  let run := persistApiKey t respond backends access chosen apiKey s in
  (forall u, fst run <> Resolved u)
  /\ setup_store (snd run) = setup_store s
  /\ setup_updates (snd run) = setup_updates s.
Proof.
  intros Hprobe run. subst run.
  destruct (persistApiKey t respond backends access chosen apiKey s)
    as [o s'] eqn:E.
  cbn [fst snd]. unfold persistApiKey in E.
  destruct (trim apiKey) as [|c k] eqn:Ek; cbn [truthy negb] in E.
  { inversion E; subst. repeat split. discriminate. }
  assert (Etrim : trim (c :: k) = c :: k) by (rewrite <- Ek; apply trim_idem).
  assert (Hc : configured (mkCredentials chosen (c :: k))).
  { unfold configured. cbn [key]. rewrite Etrim. discriminate. }
  unfold bind at 1 in E. unfold callAnalysis at 1 in E.
  rewrite (validateProviderCredentials_run respond _ (setup_service s) Hc)
    in E.
  destruct (respond _ RespondWithOK) as [response|error|] eqn:Er.
  - destruct (Hprobe response). reflexivity.
  - inversion E; subst. repeat split. discriminate.
  - inversion E; subst. repeat split. discriminate.
Qed.

Lemma unverified_key_is_not_stored_witness :
  let refusing : ChatModel -> Prompt -> Outcome jsstring :=
    fun _ _ => Rejected (newError (js "API key not valid")) in
  let start := mkSetup Scenario.idle (mkKeyStore ∅ ∅ []) [] in
  setup_store
    (snd (persistApiKey id refusing (mkBackends true true) (mkAccess None None)
            google (js " AIzaSy-key ") start))
  = setup_store start.
Proof.
  intros refusing start.
  apply (unverified_key_is_not_stored id refusing (mkBackends true true)
           (mkAccess None None) google (js " AIzaSy-key ") start).
  intros response. discriminate.
Defined.

(** X27. After a successful set-up the component and the storage
    agree: when the key is not blank, the provider answers the probe
    and the storage works, [persistApiKey] resolves, the credentials
    it puts in the component state are the provider with the trimmed
    key, and [getUserApiKey] then reads the same provider and key
    from the storage. *)
Theorem persisted_key_is_consistent t respond backends access chosen apiKey
  response s :
  trim apiKey <> [] ->
  respond (clientOf (mkCredentials chosen (trim apiKey)) 0 8 0) RespondWithOK
  = Resolved response ->
  hasChromeStorage backends = true \/ hasLocalStorage backends = true ->
  lastError access = None ->
  localStorageThrows access = None ->
  let run := persistApiKey t respond backends access chosen apiKey s in
  fst run = Resolved tt
  /\ setup_updates (snd run)
     = setup_updates s
         ++ [Update (SetCredentials (Some (mkCredentials chosen (trim apiKey))));
             SetSelectedProvider chosen;
             SetKeySetupError None;
             Update (SetKeySetupSuccess (Some (t (js "auth.successMessage"))))]
  /\ fst (getUserApiKey (parser := json_parse) backends access
            (setup_store (snd run)))
     = Resolved (Some (mkStored (providerName chosen) (trim apiKey))).
Proof.
  intros Hk Hprobe Hb He Ht run. subst run.
  destruct (persistApiKey t respond backends access chosen apiKey s)
    as [o s'] eqn:E.
  cbn [fst snd]. unfold persistApiKey in E.
  destruct (trim apiKey) as [|c k] eqn:Ek; [congruence|].
  cbn [truthy negb] in E.
  assert (Etrim : trim (c :: k) = c :: k) by (rewrite <- Ek; apply trim_idem).
  assert (Hc : configured (mkCredentials chosen (c :: k))).
  { unfold configured. cbn [key]. rewrite Etrim. discriminate. }
  unfold bind at 1 in E. unfold callAnalysis at 1 in E.
  rewrite (validateProviderCredentials_run respond _ (setup_service s) Hc)
    in E.
  rewrite Hprobe in E.
  destruct (ApiKeyStorageFacts.saveUserApiKey_then_get backends access
              (mkStored (providerName chosen) (c :: k)) (setup_store s)
              Hb He Ht) as (store & Es & Hg).
  { cbn [stored_key]. rewrite Etrim. discriminate. }
  cbn [stored_key stored_provider] in Hg. rewrite Etrim in Hg.
  unfold bind at 1 in E. unfold callStorage at 1 in E.
  cbn [setup_store] in E. rewrite Es in E.
  unfold bind, update in E.
  cbn [fst snd setup_updates setup_store setup_service] in E.
  inversion E; subst. cbn [setup_updates setup_store].
  split; [reflexivity|]. split; [rewrite <- !app_assoc; reflexivity|].
  exact Hg.
Qed.

Lemma persisted_key_is_consistent_witness :
  let answering : ChatModel -> Prompt -> Outcome jsstring :=
    fun _ _ => Resolved (js "OK") in
  let start := mkSetup Scenario.idle (mkKeyStore ∅ ∅ []) [] in
  let backends := mkBackends false true in
  let access := mkAccess None None in
  fst (getUserApiKey (parser := json_parse) backends access
         (setup_store
            (snd (persistApiKey id answering backends access openai
                    (js " sk-key ") start))))
  = Resolved (Some (mkStored (js "openai") (js "sk-key"))).
Proof.
  intros answering start backends access.
  apply (persisted_key_is_consistent id answering backends access openai
           (js " sk-key ") (js "OK") start).
  - vm_compute. discriminate.
  - reflexivity.
  - right. reflexivity.
  - reflexivity.
  - reflexivity.
Defined.

End KeySetupFacts.

